(** * Realtime translation server: rooms, channels, fan-out and usage

    A shallow embedding of [src/server.js] (the version with rooms,
    passcodes and server-sent events) and the properties of its
    session orchestrator.

    Conventions of the embedding.
    - A JavaScript string is a [string] holding the UTF-8 encoding of
      its text.  [trim] strips the white space of ECMAScript, U+00A0,
      U+3000 and U+FEFF included, and [length] counts UTF-16 code
      units.  [toLowerCase] maps [A-Z] and leaves every other
      character as it is: a statement that depends on the case of a
      letter outside ASCII says so with [JS.is_ascii].  The tests
      [includes('cantonese')] and [includes('mandarin')] on lowered
      text need no such care: no character outside ASCII lowers to
      one of their letters next to the following one (U+0130 lowers
      to [i] followed by U+0307).
    - [null]/[undefined] are [None]; [a || b] on strings is [or_else].
    - The module-level [Map]s and [let sessionUsage] are fields of one
      explicit [State]; asynchronous functions are computations in a
      state-and-exception monad [M]; every [fetch] is answered by an
      oracle that sees the log of the calls made so far.
    - Token counts are integers.  The cost is a double: [Double] is
      the Standard Library's specification of binary64 arithmetic,
      and [Binary64] repeats the estimate on the primitive doubles of
      the machine.
    - An object literal read with [obj[name]] also finds the names it
      inherits; [pricing_for] accounts for them.
    - The file system is given by its three synchronous calls;
      [path.join] and [path.extname] follow Node's POSIX
      implementation. *)

From Stdlib Require Import String Ascii ZArith QArith Qround Qabs List Lia Lqa.
From Stdlib.Strings Require Import Byte.
From Stdlib Require Import Floats.
From stdpp Require Import gmap strings list pretty.

Local Open Scope string_scope.
Local Open Scope list_scope.
Local Close Scope Q_scope.
Local Open Scope nat_scope.

(** ** JavaScript string primitives *)

Module JS.

Definition nl : string := String (ascii_of_nat 10) "".

(** A string is held as the UTF-8 encoding of its text.  [units a]
    is what the byte [a] adds to the number of UTF-16 code units: a
    continuation byte nothing, the first byte of a four-byte
    character (a surrogate pair) two, any other first byte one. *)
Definition units (a : ascii) : nat :=
  let n := nat_of_ascii a in
  if (128 <=? n) && (n <? 192) then 0
  else if 240 <=? n then 2
  else 1.

(** [s.length] *)
Fixpoint length (s : string) : nat :=
  match s with
  | "" => 0
  | String a s' => units a + length s'
  end.

(** No character outside ASCII. *)
Fixpoint is_ascii (s : string) : bool :=
  match s with
  | "" => true
  | String a s' => (nat_of_ascii a <? 128) && is_ascii s'
  end.

(** Truthiness of a string: only [''] is falsy. *)
Definition truthy (s : string) : bool :=
  match s with "" => false | _ => true end.

(** [o || d] where [o] is a string, [null] or [undefined]. *)
Definition or_else (o : option string) (d : string) : string :=
  match o with
  | Some s => if truthy s then s else d
  | None => d
  end.

(** White space, as [trim] understands it ([WhiteSpace] and
    [LineTerminator] of ECMAScript), by the length of its encoding:
    TAB, LF, VT, FF, CR and SPACE; U+00A0; U+1680, U+2000 to U+200A,
    U+2028, U+2029, U+202F, U+205F, U+3000 and U+FEFF. *)
Definition space1 (a : ascii) : bool :=
  let n := nat_of_ascii a in
  ((9 <=? n) && (n <=? 13)) || (n =? 32).

Definition space2 (a b : ascii) : bool :=
  (nat_of_ascii a =? 194) && (nat_of_ascii b =? 160).

Definition space3 (a b c : ascii) : bool :=
  let x := nat_of_ascii a in
  let y := nat_of_ascii b in
  let z := nat_of_ascii c in
  ((x =? 225) && (y =? 154) && (z =? 128)) ||
  ((x =? 226) && (y =? 128) &&
   (((128 <=? z) && (z <=? 138)) || (z =? 168) || (z =? 169) || (z =? 175))) ||
  ((x =? 226) && (y =? 129) && (z =? 159)) ||
  ((x =? 227) && (y =? 128) && (z =? 128)) ||
  ((x =? 239) && (y =? 187) && (z =? 191)).

(** The rest of [s] after the white space character it starts with,
    if it starts with one. *)
Definition skip_space (s : string) : option string :=
  match s with
  | String a s1 =>
      if space1 a then Some s1
      else match s1 with
           | String b s2 =>
               if space2 a b then Some s2
               else match s2 with
                    | String c s3 => if space3 a b c then Some s3 else None
                    | "" => None
                    end
           | "" => None
           end
  | "" => None
  end.

(** At most [fuel] white space characters taken off the front. *)
Fixpoint strip (fuel : nat) (s : string) : string :=
  match fuel with
  | 0 => s
  | S fuel =>
      match skip_space s with
      | Some rest => strip fuel rest
      | None => s
      end
  end.

Definition trimStart (s : string) : string := strip (String.length s) s.

Fixpoint rev_onto (s acc : string) : string :=
  match s with
  | "" => acc
  | String c s' => rev_onto s' (String c acc)
  end.

Definition reverse (s : string) : string := rev_onto s "".

(** Nothing but white space. *)
Definition blank (s : string) : bool := String.eqb (trimStart s) "".

(** [s] up to the white space it ends with: the text is cut where
    what follows is nothing but white space. *)
Fixpoint trimEnd (s : string) : string :=
  match s with
  | "" => ""
  | String c s' => if blank s then "" else String c (trimEnd s')
  end.

(** [s.trim()] *)
Definition trim (s : string) : string := trimEnd (trimStart s).

Definition lower (c : ascii) : ascii :=
  let n := nat_of_ascii c in
  if (65 <=? n) && (n <=? 90) then ascii_of_nat (n + 32) else c.

(** [s.toLowerCase()] for text whose cased letters are in ASCII:
    [A-Z] are mapped and every other byte is kept, where the source
    also maps the cased letters outside ASCII. *)
Fixpoint toLowerCase (s : string) : string :=
  match s with
  | "" => ""
  | String c s' => String (lower c) (toLowerCase s')
  end.

Fixpoint startsWith (s p : string) : bool :=
  match p, s with
  | "", _ => true
  | String a p', String b s' => if Ascii.eqb a b then startsWith s' p' else false
  | String _ _, "" => false
  end.

(** [s.includes(p)] *)
Fixpoint includes (s p : string) : bool :=
  startsWith s p ||
  match s with
  | "" => false
  | String _ s' => includes s' p
  end.

(** [s.split(sep)] for a one-character separator: never the empty
    array, [''.split(',')] is [['']]. *)
Fixpoint split (sep : ascii) (s : string) : list string :=
  match s with
  | "" => [""]
  | String c s' =>
      if Ascii.eqb c sep then "" :: split sep s'
      else match split sep s' with
           | h :: t => String c h :: t
           | [] => [String c ""]
           end
  end.

(** [parts.join(sep)] *)
Fixpoint join (sep : string) (parts : list string) : string :=
  match parts with
  | [] => ""
  | [p] => p
  | p :: rest => p +:+ sep +:+ join sep rest
  end.

(** [set.add(x)] on a [Set] kept in insertion order. *)
Definition set_add {A} `{EqDecision A} (l : list A) (x : A) : list A :=
  if decide (x ∈ l) then l else l ++ [x].

(** [set.delete(x)] *)
Definition set_delete {A} `{EqDecision A} (l : list A) (x : A) : list A :=
  filter (λ y, y ≠ x) l.

(** [Array.from(new Set(xs))]: first occurrences, in order. *)
Definition Set_of {A} `{EqDecision A} (xs : list A) : list A :=
  fold_left set_add xs [].

End JS.

(** ** Configuration (module-level constants read from the environment) *)

Record Config := mkConfig {
  OPENAI_API_KEY : option string;
  OPENAI_API_BASE_URL : string;
  OPENAI_TRANSCRIBE_MODEL : string;
  OPENAI_TRANSLATE_MODEL : string;
  OPENAI_TTS_MODEL : string;
  OPENAI_TTS_VOICE : string }.

(** [s.replace(/\/$/, '')] *)
Definition strip_trailing_slash (s : string) : string :=
  match JS.reverse s with
  | String "/" r => JS.reverse r
  | _ => s
  end.

Definition load_config (env : gmap string string) : Config :=
  {| OPENAI_API_KEY := env !! "OPENAI_API_KEY";
     OPENAI_API_BASE_URL :=
       strip_trailing_slash
         (JS.or_else (env !! "OPENAI_API_BASE_URL") "https://api.openai.com/v1");
     OPENAI_TRANSCRIBE_MODEL := JS.or_else (env !! "OPENAI_TRANSCRIBE_MODEL") "whisper-1";
     OPENAI_TRANSLATE_MODEL := JS.or_else (env !! "OPENAI_TRANSLATE_MODEL") "gpt-4o-mini";
     OPENAI_TTS_MODEL := JS.or_else (env !! "OPENAI_TTS_MODEL") "gpt-4o-mini-tts";
     OPENAI_TTS_VOICE := JS.or_else (env !! "OPENAI_TTS_VOICE") "alloy" |}.

(** USD per 1K tokens. *)
Record Pricing := mkPricing { input : Q; output : Q }.

Definition OPENAI_PRICING : gmap string Pricing :=
  <["gpt-4o-mini" := mkPricing (15 # 100000) (6 # 10000)]>
  (<["gpt-4o-mini-tts" := mkPricing (2 # 10000) (2 # 10000)]> ∅).

(** [OPENAI_PRICING] is an object literal, so [OPENAI_PRICING[name]]
    also finds what every object inherits from [Object.prototype]:
    functions, and for [__proto__] the prototype itself.  All of them
    are truthy and none has an [input] or an [output]. *)
Definition inherited : list string :=
  [ "constructor"; "__defineGetter__"; "__defineSetter__"; "hasOwnProperty";
    "__lookupGetter__"; "__lookupSetter__"; "isPrototypeOf"; "propertyIsEnumerable";
    "toString"; "valueOf"; "__proto__"; "toLocaleString" ].

(** [OPENAI_PRICING[model] || { input: 0, output: 0 }]; [None] is an
    inherited value, whose rates are [undefined]. *)
Definition pricing_for (model : string) : option Pricing :=
  match OPENAI_PRICING !! model with
  | Some p => Some p
  | None => if bool_decide (model ∈ inherited) then None else Some (mkPricing 0 0)
  end.

(** ** Numbers

    A JavaScript number is an IEEE 754 double.  The arithmetic is the
    Standard Library's specification of binary64, rounding to nearest
    with ties to even. *)

Module Double.

Definition prec : Z := 53.
Definition emax : Z := 1024.

Definition add : spec_float → spec_float → spec_float := SFadd prec emax.
Definition mul : spec_float → spec_float → spec_float := SFmul prec emax.
Definition div : spec_float → spec_float → spec_float := SFdiv prec emax.

(** An integer as a double: the integer itself up to [2^53] in
    magnitude, the nearest double beyond. *)
Definition of_Z (z : Z) : spec_float := binary_normalize prec emax z 0 false.

(** An integer as it is, before any rounding. *)
Definition unrounded (z : Z) : spec_float :=
  match z with
  | Z0 => S754_zero false
  | Zpos p => S754_finite false p 0
  | Zneg p => S754_finite true p 0
  end.

(** The double nearest to the fraction [q]: what the decimal literal
    written [q] denotes, and [Number(text)] for a decimal [text]. *)
Definition literal (q : Q) : spec_float :=
  div (unrounded (Qnum q)) (unrounded (Z.pos (Qden q))).

(** The exact value of a double; none for NaN and the infinities. *)
Definition value (x : spec_float) : option Q :=
  match x with
  | S754_zero _ => Some 0%Q
  | S754_finite s m e =>
      let v := if (0 <=? e)%Z then inject_Z (Z.pos m * 2 ^ e)
               else (Z.pos m # Pos.pow 2 (Z.to_pos (- e)))%Q in
      Some (if s then Qopp v else v)
  | S754_infinity _ | S754_nan => None
  end.


End Double.

(** ** Upstream HTTP calls and their answers *)

Record Message := mkMessage { role : string; content : string }.

Inductive CallBody :=
| TranscriptionForm (file_name file_type model : string)
    (language : option string) (audio : list Byte.byte)
| ChatJson (model : string) (messages : list Message) (temperature : Q)
| SpeechJson (model input voice : string).

Record Call := mkCall { url : string; authorization : string; body : CallBody }.

Record UsageJson := mkUsageJson {
  j_total_tokens : option Z;
  j_prompt_tokens : option Z;
  j_completion_tokens : option Z }.

(** The fields of a parsed JSON answer that the server reads:
    [result.text], [completion.choices?.[0]?.message?.content] and
    [completion.usage]. *)
Record Json := mkJson {
  j_text : option string;
  j_content : option string;
  j_usage : option UsageJson }.

(** An HTTP response: [res.status], [await res.text()],
    [await res.json()] (which throws on a body that is not JSON) and
    [await res.arrayBuffer()]. *)
Record HttpResponse := mkHttpResponse {
  status : nat;
  res_text : string;
  res_json : string + Json;
  res_arrayBuffer : list Byte.byte }.

Definition ok (r : HttpResponse) : bool :=
  (200 <=? status r) && (status r <=? 299).

Inductive FetchResult :=
| NetworkError (message : string)
| Responded (r : HttpResponse).

(** The services behind [fetch]: the answer to a call may depend on
    every call made before it. *)
Definition Upstream := list Call → Call → FetchResult.

(** ** Server state *)

Record Usage := mkUsage {
  prompt_tokens : Z;
  completion_tokens : Z;
  total_tokens : Z }.

(** A listener is the [res] object of one subscribe request. *)
Definition Listener := nat.

(** Payloads handed to [JSON.stringify] for the event stream. *)
Inductive Payload :=
| Ready (channel : string)
| Translation (room language transcript translation : string)
    (audioBase64 : option string).

(** What [res.write] is given: [Data p] is the text
    [data: ${JSON.stringify(p)}] followed by a blank line, [Ping] is
    the keep-alive comment. *)
Inductive Chunk :=
| Data (p : Payload)
| Ping.

Record State := mkState {
  roomPasscodes : gmap string string;
  subscribers : gmap string (list Listener);
  sessionUsage : Usage;
  intervals : list Listener;
  closeHandlers : gmap Listener string;
  destroyed : gset Listener;
  written : gmap Listener (list Chunk);
  calls : list Call }.

Definition set_roomPasscodes (f : gmap string string → gmap string string) (st : State) : State :=
  mkState (f (roomPasscodes st)) (subscribers st) (sessionUsage st) (intervals st)
    (closeHandlers st) (destroyed st) (written st) (calls st).
Definition set_subscribers (f : gmap string (list Listener) → gmap string (list Listener))
    (st : State) : State :=
  mkState (roomPasscodes st) (f (subscribers st)) (sessionUsage st) (intervals st)
    (closeHandlers st) (destroyed st) (written st) (calls st).
Definition set_sessionUsage (f : Usage → Usage) (st : State) : State :=
  mkState (roomPasscodes st) (subscribers st) (f (sessionUsage st)) (intervals st)
    (closeHandlers st) (destroyed st) (written st) (calls st).
Definition set_intervals (f : list Listener → list Listener) (st : State) : State :=
  mkState (roomPasscodes st) (subscribers st) (sessionUsage st) (f (intervals st))
    (closeHandlers st) (destroyed st) (written st) (calls st).
Definition set_closeHandlers (f : gmap Listener string → gmap Listener string)
    (st : State) : State :=
  mkState (roomPasscodes st) (subscribers st) (sessionUsage st) (intervals st)
    (f (closeHandlers st)) (destroyed st) (written st) (calls st).
Definition set_destroyed (f : gset Listener → gset Listener) (st : State) : State :=
  mkState (roomPasscodes st) (subscribers st) (sessionUsage st) (intervals st)
    (closeHandlers st) (f (destroyed st)) (written st) (calls st).
Definition set_written (f : gmap Listener (list Chunk) → gmap Listener (list Chunk))
    (st : State) : State :=
  mkState (roomPasscodes st) (subscribers st) (sessionUsage st) (intervals st)
    (closeHandlers st) (destroyed st) (f (written st)) (calls st).
Definition set_calls (f : list Call → list Call) (st : State) : State :=
  mkState (roomPasscodes st) (subscribers st) (sessionUsage st) (intervals st)
    (closeHandlers st) (destroyed st) (written st) (f (calls st)).

(** The state of a freshly started process. *)
Definition init : State :=
  mkState ∅ ∅ (mkUsage 0 0 0) [] ∅ ∅ ∅ [].

(** ** Asynchronous functions: state and exceptions *)

Inductive Result (A : Type) :=
| Ok (a : A)
| Throw (message : string).
Arguments Ok {A} a.
Arguments Throw {A} message.

Definition M (A : Type) : Type := State → Result A * State.

Definition ret {A} (a : A) : M A := λ st, (Ok a, st).
Definition throw {A} (message : string) : M A := λ st, (Throw message, st).
Definition bind {A B} (m : M A) (k : A → M B) : M B :=
  λ st, match m st with
        | (Ok a, st') => k a st'
        | (Throw e, st') => (Throw e, st')
        end.
Definition modify (f : State → State) : M unit := λ st, (Ok tt, f st).
Definition gets {A} (f : State → A) : M A := λ st, (Ok (f st), st).

(** [try { body } catch (error) { handler(error.message) }] *)
Definition try_catch {A} (body : M A) (handler : string → M A) : M A :=
  λ st, match body st with
        | (Ok a, st') => (Ok a, st')
        | (Throw e, st') => handler e st'
        end.

Notation "'let!' x ':=' m 'in' k" := (bind m (λ x, k))
  (at level 10, x name, m at level 100, k at level 200).

(** ** Helpers that touch neither the state nor the network *)

Definition normalizeTargetLanguageLabel (language : string) : string :=
  let lower := JS.toLowerCase language in
  if JS.includes lower "cantonese"
  then "Cantonese (Traditional Chinese, Cantonese phrasing)"
  else if JS.includes lower "mandarin"
  then "Mandarin Chinese (Simplified Chinese, Mainland usage)"
  else language.

(** [a || b] on two header values. *)
Definition or_header (a b : option string) : option string :=
  match a with
  | Some s => if JS.truthy s then a else b
  | None => b
  end.

Definition normalizeMimeType (value : option string) : string :=
  match value with
  | None => ""
  | Some v =>
      if negb (JS.truthy v) then ""
      else JS.toLowerCase (JS.trim (hd "" (JS.split ";" v)))
  end.

Definition extensionForAudioMimeType (mimeType : string) : string :=
  if String.eqb mimeType "audio/webm" then "webm"
  else if String.eqb mimeType "audio/ogg" || String.eqb mimeType "audio/oga" then "ogg"
  else if String.eqb mimeType "audio/wav" || String.eqb mimeType "audio/x-wav" then "wav"
  else if String.eqb mimeType "audio/mpeg" || String.eqb mimeType "audio/mp3" then "mp3"
  else if String.eqb mimeType "audio/mp4" || String.eqb mimeType "audio/m4a" then "mp4"
  else if String.eqb mimeType "audio/flac" then "flac"
  else "webm".

(** Build channel name for a given room + language (language
    lowercased for stability). *)
Definition channelName (room language : string) : string :=
  JS.or_else (Some room) "default" +:+ ":" +:+
  JS.or_else (Some (JS.toLowerCase language)) "unknown".

(** [Buffer.from(bytes).toString('base64')] *)
Definition base64_alphabet : string :=
  "ABCDEFGHIJKLMNOPQRSTUVWXYZabcdefghijklmnopqrstuvwxyz0123456789+/".

Definition base64_digit (n : N) : string :=
  match String.get (N.to_nat n) base64_alphabet with
  | Some c => String c ""
  | None => "="
  end.

Fixpoint base64 (bytes : list Byte.byte) : string :=
  match bytes with
  | [] => ""
  | [a] =>
      let a := Byte.to_N a in
      base64_digit (N.shiftr a 2) +:+ base64_digit (N.shiftl (N.land a 3) 4) +:+ "=="
  | [a; b] =>
      let a := Byte.to_N a in
      let b := Byte.to_N b in
      base64_digit (N.shiftr a 2) +:+
      base64_digit (N.lor (N.shiftl (N.land a 3) 4) (N.shiftr b 4)) +:+
      base64_digit (N.shiftl (N.land b 15) 2) +:+ "="
  | a :: b :: c :: rest =>
      let a := Byte.to_N a in
      let b := Byte.to_N b in
      let c := Byte.to_N c in
      base64_digit (N.shiftr a 2) +:+
      base64_digit (N.lor (N.shiftl (N.land a 3) 4) (N.shiftr b 4)) +:+
      base64_digit (N.lor (N.shiftl (N.land b 15) 2) (N.shiftr c 6)) +:+
      base64_digit (N.land c 63) +:+ base64 rest
  end.

(** ** Requests *)

(** A request after [new URL(req.url, ...)]: the decoded query
    parameters in order, the two headers the server reads, and the
    chunks of the body. *)
Record Request := mkRequest {
  searchParams : list (string * string);
  x_audio_mime_type : option string;
  content_type : option string;
  chunks : list (list Byte.byte) }.

(** [url.searchParams.getAll(name)] *)
Definition getAll (name : string) (params : list (string * string)) : list string :=
  map snd (filter (λ kv, fst kv = name) params).

(** [url.searchParams.get(name)] *)
Definition get (name : string) (params : list (string * string)) : option string :=
  head (getAll name params).

Definition parseTargetLanguages (params : list (string * string)) : list string :=
  let langsFromRepeats := flat_map (JS.split ",") (getAll "targetLang" params) in
  let langsFromList := JS.split "," (JS.or_else (get "targetLangs" params) "") in
  let all := filter (λ v, JS.truthy v = true)
               (map JS.trim (langsFromRepeats ++ langsFromList)) in
  match all with
  | [] => ["English"]
  | _ => JS.Set_of all
  end.

(** ** Responses *)

Record TargetResult := mkTargetResult {
  r_language : string;
  r_translation : string;
  r_audioBase64 : option string }.

Inductive ResponseData :=
| ErrorData (error : string)
| TranslateData (transcript : string) (results : list TargetResult)
    (usage : Usage) (cost : spec_float) (model : string).

Inductive Response :=
| respondJson (status : nat) (data : ResponseData)
| EventStream.

(** ** The server *)

Section Server.

Variable cfg : Config.
Variable upstream : Upstream.

(** [`Bearer ${OPENAI_API_KEY}`] *)
Definition bearer : string :=
  "Bearer " +:+ match OPENAI_API_KEY cfg with Some k => k | None => "undefined" end.

(** [await fetch(url, options)]: the call is logged and answered. *)
Definition fetch (c : Call) : M HttpResponse :=
  λ st,
    let st' := set_calls (λ l, l ++ [c]) st in
    match upstream (calls st) c with
    | NetworkError e => (Throw e, st')
    | Responded r => (Ok r, st')
    end.

Definition request_failed (res : HttpResponse) : string :=
  "OpenAI request failed (" +:+ pretty (status res) +:+ "): " +:+ res_text res.

Definition fetchJson (c : Call) : M Json :=
  let! res := fetch c in
  if negb (ok res) then throw (request_failed res)
  else match res_json res with
       | inl e => throw e
       | inr j => ret j
       end.

Definition fetchArrayBuffer (c : Call) : M (list Byte.byte) :=
  let! res := fetch c in
  if negb (ok res) then throw (request_failed res)
  else ret (res_arrayBuffer res).

Definition transcribeAudio (audioBuffer : list Byte.byte) (sourceLanguage : string)
    (audioMimeType : string) : M (option string) :=
  let normalizedMimeType :=
    JS.or_else (Some (normalizeMimeType (Some audioMimeType))) "audio/webm" in
  let extension := extensionForAudioMimeType normalizedMimeType in
  let! result :=
    fetchJson (mkCall (OPENAI_API_BASE_URL cfg +:+ "/audio/transcriptions") bearer
      (TranscriptionForm ("audio." +:+ extension) normalizedMimeType
         (OPENAI_TRANSCRIBE_MODEL cfg)
         (if JS.truthy sourceLanguage then Some sourceLanguage else None)
         audioBuffer)) in
  ret (j_text result).

Definition chat_url : string := OPENAI_API_BASE_URL cfg +:+ "/chat/completions".

Definition chat (messages : list Message) : Call :=
  mkCall chat_url bearer (ChatJson (OPENAI_TRANSLATE_MODEL cfg) messages (2 # 10)).

(** [completion.choices?.[0]?.message?.content?.trim()] *)
Definition trimmed_content (completion : Json) : option string :=
  JS.trim <$> j_content completion.

Definition refine_messages (rawTranscript sourceLanguage : string) : list Message :=
  [ mkMessage "system"
      "You clean ASR transcripts. Fix obvious recognition mistakes, punctuation, and casing while preserving meaning. Do NOT add or remove sentences. Keep language same as input.";
    mkMessage "user"
      ("Language: " +:+ JS.or_else (Some sourceLanguage) "unknown / mixed" +:+ JS.nl +:+
       "Transcript:" +:+ JS.nl +:+ rawTranscript) ].

Definition refineTranscript (rawTranscript : option string) (sourceLanguage : string)
    : M string :=
  match rawTranscript with
  | None => ret ""
  | Some raw =>
      if negb (JS.truthy raw) || (JS.length (JS.trim raw) <? 2) then ret raw
      else
        let! completion := fetchJson (chat (refine_messages raw sourceLanguage)) in
        ret (JS.or_else (trimmed_content completion) raw)
  end.

Definition sysParts (targetLanguage : string) : list string :=
  let parts :=
    [ "You are a translation engine. Translate user text to " +:+ targetLanguage +:+ ".";
      "Use the provided context for coherence (names, pronouns, tense).";
      "Return ONLY the translation of the new text, not the context.";
      "If the text is already in the target language, return it unchanged.";
      "Never reply with explanations, apologies, or placeholders. Never return empty output." ] in
  let lowerLang := JS.toLowerCase targetLanguage in
  if JS.includes lowerLang "cantonese"
  then parts ++
    [ "Write in spoken Cantonese using Traditional Chinese characters (e.g., 喺/嘅/佢/佢哋/唔/冇/咗/啦/喇/啱).";
      "Avoid Mainland Mandarin lexical choices; prefer colloquial Cantonese phrasing and particles.";
      "Do not mix Simplified Chinese; keep vocabulary natural for Cantonese listeners." ]
  else parts.

Definition user_message (text context : string) : Message :=
  if JS.truthy context
  then mkMessage "user"
         ("Context (previous transcript):" +:+ JS.nl +:+ context +:+ JS.nl +:+ JS.nl +:+
          "New text to translate:" +:+ JS.nl +:+ text +:+ JS.nl +:+ JS.nl +:+
          "Translate only the new text, keep consistent with context.")
  else mkMessage "user" text.

Definition add_usage (u : UsageJson) (s : Usage) : Usage :=
  {| total_tokens := total_tokens s + default 0 (j_total_tokens u);
     prompt_tokens := prompt_tokens s + default 0 (j_prompt_tokens u);
     completion_tokens := completion_tokens s + default 0 (j_completion_tokens u) |}%Z.

(** The inner [tryTranslate], with the [messages] array it closes
    over made an argument. *)
Definition tryTranslate (messages : list Message) : M string :=
  let! completion := fetchJson (chat messages) in
  let! _ := match j_usage completion with
            | Some u => modify (set_sessionUsage (add_usage u))
            | None => ret tt
            end in
  ret (JS.or_else (trimmed_content completion) "").

Definition stricter : string :=
  " Output must not be empty. Provide best-effort translation.".

Definition translateText (text targetLanguage context : string) : M string :=
  let system := JS.join " " (sysParts targetLanguage) in
  let messages := [ mkMessage "system" system; user_message text context ] in
  let! result := tryTranslate messages in
  if negb (JS.truthy result) then
    (* Second attempt with stricter instruction if first came back empty. *)
    let messages := [ mkMessage "system" (system +:+ stricter); user_message text context ] in
    tryTranslate messages
  else ret result.

(** An [ArrayBuffer] has no [usage] property, so the accounting block
    of the source never runs. *)
Definition synthesizeSpeech (text : string) : M string :=
  let! audioBuffer :=
    fetchArrayBuffer (mkCall (OPENAI_API_BASE_URL cfg +:+ "/audio/speech") bearer
      (SpeechJson (OPENAI_TTS_MODEL cfg) text (OPENAI_TTS_VOICE cfg))) in
  ret (base64 audioBuffer).

(** *** Lightweight pub/sub for channel broadcasts (SSE) *)

Definition addSubscriber (channel : string) (res : Listener) : State → State :=
  set_subscribers (λ m, <[channel := JS.set_add (default [] (m !! channel)) res]> m).

Definition removeSubscriber (channel : string) (res : Listener) (st : State) : State :=
  match subscribers st !! channel with
  | None => st
  | Some set =>
      match JS.set_delete set res with
      | [] => set_subscribers (delete channel) st
      | set' => set_subscribers (<[channel := set']>) st
      end
  end.

(** [res.write(chunk)]: a write to a connection that is gone fails;
    Node reports that on a later tick and nothing is thrown at the
    call. *)
Definition write (res : Listener) (chunk : Chunk) (st : State) : State :=
  if decide (res ∈ destroyed st) then st
  else set_written (λ w, <[res := default [] (w !! res) ++ [chunk]]> w) st.

Definition broadcast (channel : string) (payload : Payload) (st : State) : State :=
  match subscribers st !! channel with
  | None => st
  | Some set => fold_left (λ st res, write res (Data payload) st) set st
  end.

(** [existing && existing !== passcode] *)
Definition mismatch (existing : option string) (passcode : string) : bool :=
  match existing with
  | Some e => JS.truthy e && negb (String.eqb e passcode)
  | None => false
  end.

(** The handler given to [req.on('close', ...)]. *)
Definition on_close (channel : string) (res : Listener) (st : State) : State :=
  removeSubscriber channel res (set_intervals (λ l, JS.set_delete l res) st).

Definition handleSubscribeRequest (req : Request) (res : Listener) (st : State)
    : Response * State :=
  let channel := get "channel" (searchParams req) in
  let room := JS.or_else (Some (JS.trim (JS.or_else (get "room" (searchParams req)) "")))
                "default" in
  let passcode := JS.trim (JS.or_else (get "passcode" (searchParams req)) "") in
  match channel with
  | None | Some "" => (respondJson 400 (ErrorData "Missing channel query param"), st)
  | Some channel =>
      let requiredPass := roomPasscodes st !! room in
      if mismatch requiredPass passcode
      then (respondJson 403 (ErrorData "Invalid passcode"), st)
      else
        let st := addSubscriber channel res st in
        (* Initial ping keeps some proxies happy. *)
        let st := write res (Data (Ready channel)) st in
        let st := set_intervals (λ l, JS.set_add l res) st in
        let st := set_closeHandlers (<[res := channel]>) st in
        (EventStream, st)
  end.

(** What [new URL(req.url, `http://${req.headers.host}`)] makes of an
    incoming request: a URL with its query parameters, or a
    [TypeError] when the request line and the Host header give no
    valid URL. *)
Inductive Arrival :=
| Parsed (req : Request)
| Unparsable.

Definition new_URL (a : Arrival) : M Request :=
  match a with
  | Parsed req => ret req
  | Unparsable => throw "Invalid URL"
  end.

(** The subscribe handler from its first line.  The URL is parsed
    outside any [try], so the error leaves the handler before it has
    read or written anything. *)
Definition subscribe_handler (a : Arrival) (res : Listener) : M Response :=
  let! req := new_URL a in
  λ st, let out := handleSubscribeRequest req res st in (Ok (fst out), snd out).

(** *** Usage accounting *)

(** The decimal that [toFixed(6)] writes for a number whose exact
    value is [x]: the nearest multiple of one millionth, a tie going
    away from zero; [toFixed] leaves a magnitude of [1e21] or more as
    it is. *)
Definition toFixed6 (x : Q) : Q :=
  let a := Qabs x in
  if Qle_bool (inject_Z (10 ^ 21)) a then x
  else
    let n := Qfloor (a * inject_Z 1000000 + (1 # 2))%Q in
    if Qle_bool 0 x then (n # 1000000) else (- n # 1000000).

(** [Number(x.toFixed(6))] on a double: the decimal is read back as
    the double nearest to it; a negative number that rounds to no
    millionth gives [-0], and NaN and the infinities give
    themselves. *)
Definition Number_toFixed6 (x : spec_float) : spec_float :=
  match x with
  | S754_zero _ => S754_zero false
  | S754_finite s _ _ =>
      match Double.value (SFabs x) with
      | Some a =>
          if Qle_bool (inject_Z (10 ^ 21)) a then x
          else
            let r := Double.literal (toFixed6 a) in
            if s then SFopp r else r
      | None => x
      end
  | S754_infinity _ | S754_nan => x
  end.

(** A rate read from [translatePricing]; [undefined] in arithmetic
    is NaN. *)
Definition rate (field : Pricing → Q) (translatePricing : option Pricing) : spec_float :=
  match translatePricing with
  | Some p => Double.literal (field p)
  | None => S754_nan
  end.

(** The sum that [estimateCost] computes, before it is rounded. *)
Definition cost_of (translatePricing : option Pricing) (u : Usage) : spec_float :=
  Double.add
    (Double.mul (Double.div (Double.of_Z (prompt_tokens u)) (Double.of_Z 1000))
       (rate input translatePricing))
    (Double.mul (Double.div (Double.of_Z (completion_tokens u)) (Double.of_Z 1000))
       (rate output translatePricing)).

Definition estimateCost (st : State) : spec_float :=
  let translatePricing := pricing_for (OPENAI_TRANSLATE_MODEL cfg) in
  (* approximation: prompt_tokens use input pricing, completion_tokens use output pricing *)
  let cost := cost_of translatePricing (sessionUsage st) in
  Number_toFixed6 cost.

Definition resetSessionUsage : State → State :=
  set_sessionUsage (λ _, mkUsage 0 0 0).

(** *** The submit handler *)

Definition ensureApiKey : bool :=
  match OPENAI_API_KEY cfg with
  | Some k => JS.truthy k
  | None => false
  end.

Definition readRequestBody (req : Request) : list Byte.byte := concat (chunks req).

(** Every promise runs to its end, whatever the others do. *)
Fixpoint settle_all {A} (ps : list (M A)) (st : State) : list (Result A) * State :=
  match ps with
  | [] => ([], st)
  | p :: ps' =>
      let '(r, st1) := p st in
      let '(rs, st2) := settle_all ps' st1 in
      (r :: rs, st2)
  end.

Fixpoint all_fulfilled {A} (rs : list (Result A)) : Result (list A) :=
  match rs with
  | [] => Ok []
  | Throw e :: _ => Throw e
  | Ok a :: rs' =>
      match all_fulfilled rs' with
      | Ok l => Ok (a :: l)
      | Throw e => Throw e
      end
  end.

(** [await Promise.all(ps)]: the values in the order of [ps] when
    all fulfil, otherwise a rejection.  The branches of the source
    interleave at their awaits and share only the usage counters and
    append-only logs; they are run here one after the other, in the
    order of the array, and the rejection relayed is that of the
    first rejected branch in that order. *)
Definition Promise_all {A} (ps : list (M A)) : M (list A) :=
  λ st, let '(rs, st') := settle_all ps st in (all_fulfilled rs, st').

(** The body of [targetLanguages.map(async (language) => ...)]. *)
Definition branch (room transcript context : string) (wantsAudio : bool)
    (language : string) : M TargetResult :=
  let normalizedLang := normalizeTargetLanguageLabel language in
  let! translation := translateText transcript normalizedLang context in
  let! audioBase64 :=
    (if wantsAudio
     then let! a := synthesizeSpeech translation in ret (Some a)
     else ret None) in
  let result := mkTargetResult language translation audioBase64 in
  (* Broadcast per-language channel so listeners can join their stream. *)
  let! _ := modify (broadcast (channelName room language)
                      (Translation room language transcript translation audioBase64)) in
  ret result.

Definition touch_usage (u : Usage) : Usage :=
  {| prompt_tokens := prompt_tokens u;
     completion_tokens := completion_tokens u;
     total_tokens := total_tokens u + 0 |}%Z.

Definition handleTranslateRequest (req : Request) : M Response :=
  if negb ensureApiKey then ret (respondJson 500 (ErrorData "Missing OPENAI_API_KEY"))
  else
    try_catch
      (let! _ := modify (set_sessionUsage touch_usage) in (* ensure object exists *)
       let params := searchParams req in
       let targetLanguages := parseTargetLanguages params in
       let sourceLanguage := JS.or_else (get "sourceLang" params) "" in
       let outputMode := JS.or_else (get "outputMode" params) "text" in
       let room := JS.or_else (get "room" params) "default" in
       let passcode := JS.trim (JS.or_else (get "passcode" params) "") in
       let context := JS.or_else (get "context" params) "" in
       if negb (JS.truthy passcode)
       then ret (respondJson 400 (ErrorData "Missing passcode"))
       else
         (* Remember passcode for room (first write wins; later must match). *)
         let! existing := gets (λ st, roomPasscodes st !! room) in
         if mismatch existing passcode
         then ret (respondJson 403 (ErrorData "Room passcode mismatch"))
         else
           let! _ := modify (set_roomPasscodes (<[room := passcode]>)) in
           let audioMimeType :=
             normalizeMimeType (or_header (x_audio_mime_type req) (content_type req)) in
           let audioBuffer := readRequestBody req in
           if length audioBuffer =? 0
           then ret (respondJson 400 (ErrorData "No audio content received."))
           else
             let! transcriptRaw := transcribeAudio audioBuffer sourceLanguage audioMimeType in
             let! transcript := refineTranscript transcriptRaw sourceLanguage in
             let wantsAudio := String.eqb outputMode "audio" || String.eqb outputMode "both" in
             let! results :=
               Promise_all (map (branch room transcript context wantsAudio) targetLanguages) in
             let! usage := gets sessionUsage in
             let! cost := gets estimateCost in
             ret (respondJson 200
                    (TranslateData transcript results usage cost (OPENAI_TRANSLATE_MODEL cfg))))
      (λ message,
         ret (respondJson 500 (ErrorData (JS.or_else (Some message) "Unexpected server error")))).

(** The last part of the handler's [try] block, from the first
    upstream call to the answer, as a computation of its own; the
    handler reduces to it once a request has passed validation
    ([handle_validated] below). *)
Definition translate_segment (req : Request) : M Response :=
  let params := searchParams req in
  let targetLanguages := parseTargetLanguages params in
  let sourceLanguage := JS.or_else (get "sourceLang" params) "" in
  let outputMode := JS.or_else (get "outputMode" params) "text" in
  let room := JS.or_else (get "room" params) "default" in
  let context := JS.or_else (get "context" params) "" in
  let audioMimeType :=
    normalizeMimeType (or_header (x_audio_mime_type req) (content_type req)) in
  let audioBuffer := readRequestBody req in
  let! transcriptRaw := transcribeAudio audioBuffer sourceLanguage audioMimeType in
  let! transcript := refineTranscript transcriptRaw sourceLanguage in
  let wantsAudio := String.eqb outputMode "audio" || String.eqb outputMode "both" in
  let! results :=
    Promise_all (map (branch room transcript context wantsAudio) targetLanguages) in
  let! usage := gets sessionUsage in
  let! cost := gets estimateCost in
  ret (respondJson 200
         (TranslateData transcript results usage cost (OPENAI_TRANSLATE_MODEL cfg))).

(** The [catch] block of the handler. *)
Definition server_error (message : string) : M Response :=
  ret (respondJson 500 (ErrorData (JS.or_else (Some message) "Unexpected server error"))).

(** *** The process as a machine driven by its event loop *)

Inductive Event :=
| Submit (req : Request)
| Subscribe (req : Request) (res : Listener)
| SocketGone (res : Listener)
| Close (res : Listener)
| KeepAlive (res : Listener).

Definition step (st : State) (ev : Event) : State :=
  match ev with
  | Submit req => snd (handleTranslateRequest req st)
  | Subscribe req res => snd (handleSubscribeRequest req res st)
  | SocketGone res => set_destroyed (λ d, {[res]} ∪ d) st
  | Close res =>
      match closeHandlers st !! res with
      | Some channel =>
          on_close channel res
            (set_closeHandlers (delete res) (set_destroyed (λ d, {[res]} ∪ d) st))
      | None => st
      end
  | KeepAlive res =>
      if decide (res ∈ intervals st) then write res Ping st else st
  end.

Definition run (st : State) (evs : list Event) : State := fold_left step evs st.

End Server.

(** ** The cost estimate on primitive doubles

    The computation of [estimateCost] once more, on the doubles of
    the machine instead of their specification, for cross-checks at
    given inputs.  It covers integers below [2^53] and amounts below
    [2^53] millionths, where the conversions used here are exact. *)

Module Binary64.

Definition of_Z (z : Z) : float :=
  if (z <? 0)%Z then PrimFloat.opp (PrimFloat.of_uint63 (Uint63.of_Z (- z)))
  else PrimFloat.of_uint63 (Uint63.of_Z z).

(** The double written as the decimal literal [q], as a correctly
    rounded quotient of two integers. *)
Definition literal (q : Q) : float :=
  PrimFloat.div (of_Z (Qnum q)) (of_Z (Z.pos (Qden q))).

(** The exact value of a finite double. *)
Definition exact (x : float) : option Q :=
  match Prim2SF x with
  | S754_zero _ => Some 0%Q
  | S754_finite s m e =>
      let v := if (0 <=? e)%Z then inject_Z (Z.pos m * 2 ^ e)
               else (Z.pos m # Pos.pow 2 (Z.to_pos (- e)))%Q in
      Some (if s then Qopp v else v)
  | S754_infinity _ | S754_nan => None
  end.

(** [Number(x.toFixed(6))] *)
Definition toFixed6 (x : float) : option float :=
  match exact x with
  | None => Some x
  | Some q =>
      let a := Qabs q in
      if Qle_bool (inject_Z (10 ^ 21)) a then Some x
      else
        let n := Qfloor (a * inject_Z 1000000 + (1 # 2))%Q in
        if (2 ^ 53 <=? n)%Z then None
        else
          let r := literal (n # 1000000) in
          Some (if Qle_bool 0 q then r else PrimFloat.opp r)
  end.

Definition rate (field : Pricing → Q) (translatePricing : option Pricing) : float :=
  match translatePricing with
  | Some p => literal (field p)
  | None => PrimFloat.nan
  end.

Definition cost (cfg : Config) (u : Usage) : float :=
  let translatePricing := pricing_for (OPENAI_TRANSLATE_MODEL cfg) in
  PrimFloat.add
    (PrimFloat.mul (PrimFloat.div (of_Z (prompt_tokens u)) (of_Z 1000))
       (rate input translatePricing))
    (PrimFloat.mul (PrimFloat.div (of_Z (completion_tokens u)) (of_Z 1000))
       (rate output translatePricing)).

Definition estimateCost (cfg : Config) (u : Usage) : option float :=
  toFixed6 (cost cfg u).

End Binary64.

(** ** Vocabulary for the statements *)

(** The room and the passcode a submit request presents, as the
    handler extracts them. *)
Definition submit_room (req : Request) : string :=
  JS.or_else (get "room" (searchParams req)) "default".

Definition submit_passcode (req : Request) : string :=
  JS.trim (JS.or_else (get "passcode" (searchParams req)) "").

(** The same for a subscribe request, which also trims the room. *)
Definition subscribe_room (req : Request) : string :=
  JS.or_else (Some (JS.trim (JS.or_else (get "room" (searchParams req)) ""))) "default".

Definition subscribe_passcode (req : Request) : string :=
  JS.trim (JS.or_else (get "passcode" (searchParams req)) "").

Definition wants_audio (req : Request) : bool :=
  let outputMode := JS.or_else (get "outputMode" (searchParams req)) "text" in
  String.eqb outputMode "audio" || String.eqb outputMode "both".

(** Everything a listener has been sent so far. *)
Definition written_to (res : Listener) (st : State) : list Chunk :=
  default [] (written st !! res).

(** A [fetch] that ends in an exception in [fetchJson] or
    [fetchArrayBuffer]: no answer, or a status outside 2xx. *)
Definition failed (r : FetchResult) : bool :=
  match r with
  | NetworkError _ => true
  | Responded res => negb (ok res)
  end.

Definition is_speech (c : Call) : bool :=
  match body c with SpeechJson _ _ _ => true | _ => false end.


(** [extends st st'] says that [st'] differs from [st] only in the
    usage counters, by calls added at the end of the log, and by
    chunks added to what listeners were sent. *)
Definition extends (st st' : State) : Prop :=
  roomPasscodes st' = roomPasscodes st ∧
  subscribers st' = subscribers st ∧
  intervals st' = intervals st ∧
  closeHandlers st' = closeHandlers st ∧
  destroyed st' = destroyed st ∧
  (∃ new, calls st' = calls st ++ new) ∧
  (∀ res, ∃ more, written_to res st' = written_to res st ++ more).

Definition keeps {A} (m : M A) : Prop := ∀ st, extends st (snd (m st)).

(** The state once the passcode has been remembered for the room. *)
Definition bound (req : Request) (st : State) : State :=
  set_roomPasscodes (<[submit_room req := submit_passcode req]>) st.

(** The [results] array of an answer; none in an error answer. *)
Definition results_of (r : Result Response) : list TargetResult :=
  match r with
  | Ok (respondJson _ (TranslateData _ results _ _ _)) => results
  | _ => []
  end.

(** The [all] array of [parseTargetLanguages]: every language named
    in the query, trimmed, blanks dropped, repetitions kept. *)
Definition requested (params : list (string * string)) : list string :=
  filter (λ v, JS.truthy v = true)
    (map JS.trim
       (flat_map (JS.split ",") (getAll "targetLang" params) ++
        JS.split "," (JS.or_else (get "targetLangs" params) ""))).

(** [answered upstream h new]: each call of [new], made in this
    order after the calls [h], was answered without a failure. *)
Fixpoint answered (upstream : Upstream) (h new : list Call) : bool :=
  match new with
  | [] => true
  | c :: rest => negb (failed (upstream h c)) && answered upstream (h ++ [c]) rest
  end.

(** [clean upstream st st']: from [st] to [st'] the log grew by
    calls that were all answered without a failure. *)
Definition clean (upstream : Upstream) (st st' : State) : Prop :=
  ∃ new, calls st' = calls st ++ new ∧ answered upstream (calls st) new = true.

(** A computation is [careful] when it can only return normally
    after a clean run. *)
Definition careful (upstream : Upstream) {A} (m : M A) : Prop :=
  ∀ st a st', m st = (Ok a, st') → clean upstream st st'.

(** A computation is [quiet] when it calls no speech synthesis. *)
Definition speechless (new : list Call) : bool :=
  forallb (λ c, negb (is_speech c)) new.

Definition quiet {A} (m : M A) : Prop :=
  ∀ st, ∃ new, calls (snd (m st)) = calls st ++ new ∧ speechless new = true.

(** What holds of the two registries in every state the process can
    reach: a channel's listener set is a set and is not empty, and a
    bound passcode is not empty. *)
Definition tidy (st : State) : Prop :=
  (∀ channel set, subscribers st !! channel = Some set → NoDup set ∧ set ≠ []) ∧
  (∀ room p, roomPasscodes st !! room = Some p → p ≠ "").

(** ** Fixtures: a configuration, stubbed services and requests *)

Module Fixture.

Definition cfg : Config := load_config {[ "OPENAI_API_KEY" := "sk-test" ]}.

Definition json_ok (j : Json) : FetchResult :=
  Responded (mkHttpResponse 200 "" (inr j) []).

Definition http_error (status : nat) (text : string) : FetchResult :=
  Responded (mkHttpResponse status text (inl "Unexpected token") []).

Definition completion (content : string) (prompt completion : Z) : Json :=
  mkJson None (Some content)
    (Some (mkUsageJson (Some (prompt + completion)%Z) (Some prompt) (Some completion))).

Definition system_of (messages : list Message) : string :=
  match messages with
  | m :: _ => content m
  | [] => ""
  end.

Definition is_refine (messages : list Message) : bool :=
  JS.startsWith (system_of messages) "You clean ASR transcripts.".

(** Services that always answer: the transcript is [hello there],
    refinement tidies it, the translation names its target. *)
Definition healthy : Upstream :=
  λ _ c,
    match body c with
    | TranscriptionForm _ _ _ _ _ => json_ok (mkJson (Some "hello there") None None)
    | ChatJson _ messages _ =>
        if is_refine messages then json_ok (completion " Hello there. " 40 5)
        else if JS.includes (system_of messages) "Spanish" then json_ok (completion "Hola." 60 3)
        else if JS.includes (system_of messages) "Cantonese" then json_ok (completion "Nei hou." 90 4)
        else json_ok (completion "Hello there." 60 3)
    | SpeechJson _ _ _ => Responded (mkHttpResponse 200 "" (inl "Unexpected token") ["M"; "a"; "n"]%byte)
    end.

(** As [healthy], but speech synthesis of the Spanish text fails. *)
Definition spanish_tts_down : Upstream :=
  λ h c,
    match body c with
    | SpeechJson _ "Hola." _ => http_error 503 "overloaded"
    | _ => healthy h c
    end.


(** As [healthy], but a translation comes back blank until the
    stricter instruction is present. *)
Definition empty_then_text : Upstream :=
  λ h c,
    match body c with
    | ChatJson _ messages _ =>
        if is_refine messages then healthy h c
        else if JS.includes (system_of messages) "Output must not be empty."
        then json_ok (completion "Hello there." 70 3)
        else json_ok (completion "  " 60 0)
    | _ => healthy h c
    end.


Definition audio : list (list Byte.byte) := [["R"; "I"]%byte; ["F"; "F"]%byte].

Definition submit (params : list (string * string)) (chunks : list (list Byte.byte)) : Request :=
  mkRequest params (Some "audio/webm;codecs=opus") None chunks.

Definition subscribe (params : list (string * string)) : Request :=
  mkRequest params None None [].

(** Requests on room [r1]: its owner, the owner with padding around
    the passcode, an owner who sends no audio, a stranger, and a
    request that presents no passcode. *)
Definition owner : Request :=
  submit [("room", "r1"); ("passcode", "abc"); ("targetLangs", "English,Cantonese")] audio.
Definition padded : Request :=
  submit [("room", "r1"); ("passcode", " abc ")] audio.
Definition silent : Request :=
  submit [("room", "r1"); ("passcode", "abc")] [].
Definition stranger : Request :=
  submit [("room", "r1"); ("passcode", "xyz")] audio.
Definition no_passcode : Request :=
  submit [("room", "r1"); ("passcode", "")] audio.

(** A listener on the English channel of [r1] who knows the passcode. *)
Definition listen_english : Request :=
  subscribe [("channel", "r1:english"); ("room", "r1"); ("passcode", "abc")].

(** The owner asking for the same language in two spellings. *)
Definition two_spellings : Request :=
  submit [("room", "r1"); ("passcode", "abc"); ("targetLangs", "English,english")] audio.

(** The owner asking for spoken Cantonese and Spanish. *)
Definition spoken : Request :=
  submit [("room", "r1"); ("passcode", "abc"); ("targetLang", "Cantonese");
          ("targetLang", "Spanish"); ("outputMode", "both")] audio.

(** A listener on the Cantonese channel of [r1] who knows the passcode. *)
Definition listen_cantonese : Request :=
  subscribe [("channel", "r1:cantonese"); ("room", "r1"); ("passcode", "abc")].

(** A listener on the Cantonese channel of [r1] who cites another room. *)
Definition eavesdrop : Request :=
  subscribe [("channel", "r1:cantonese"); ("room", "lobby")].

End Fixture.

(** ** Static files

    The rest of the request listener: the functions of Node's [path]
    module that it uses (POSIX flavour), and the static file server
    over a file system given by its three synchronous calls. *)

Module Path.

Fixpoint has_char (c : ascii) (s : string) : bool :=
  match s with
  | "" => false
  | String a s' => Ascii.eqb a c || has_char c s'
  end.

(** [s.charCodeAt(s.length - 1)] *)
Fixpoint last_char (s : string) : option ascii :=
  match s with
  | "" => None
  | String a "" => Some a
  | String _ s' => last_char s'
  end.

(** [normalizeString]: the segments are taken from left to right
    onto a stack (its top first); empty segments and [.] are dropped
    and [..] takes the last segment off, or stays when there is none
    to take and the path is relative. *)
Fixpoint normalizeString (allowAboveRoot : bool) (stack segments : list string)
    : list string :=
  match segments with
  | [] => rev stack
  | s :: rest =>
      if String.eqb s "" || String.eqb s "." then normalizeString allowAboveRoot stack rest
      else if String.eqb s ".." then
        match stack with
        | top :: below =>
            if String.eqb top ".."
            then normalizeString allowAboveRoot
                   (if allowAboveRoot then ".." :: stack else stack) rest
            else normalizeString allowAboveRoot below rest
        | [] =>
            normalizeString allowAboveRoot
              (if allowAboveRoot then [".."] else []) rest
        end
      else normalizeString allowAboveRoot (s :: stack) rest
  end.

(** [path.normalize(path)] *)
Definition normalize (path : string) : string :=
  if String.eqb path "" then "."
  else
    let isAbsolute := JS.startsWith path "/" in
    let trailingSeparator :=
      match last_char path with Some "/"%char => true | _ => false end in
    let p := JS.join "/" (normalizeString (negb isAbsolute) [] (JS.split "/" path)) in
    if String.eqb p "" then
      (if isAbsolute then "/" else if trailingSeparator then "./" else ".")
    else
      let p := if trailingSeparator then p +:+ "/" else p in
      if isAbsolute then "/" +:+ p else p.

(** [path.join(a, b)] *)
Definition join (a b : string) : string :=
  let joined :=
    if String.eqb a "" then b
    else if String.eqb b "" then a
    else a +:+ "/" +:+ b in
  if String.eqb joined "" then "." else normalize joined.

(** The last portion of a path, trailing separators left out. *)
Definition basename (path : string) : string :=
  default "" (last (filter (λ s, s ≠ "") (JS.split "/" path))).

(** All of [s] from its last dot on, with the position of that dot. *)
Fixpoint from_last_dot (s : string) : option (nat * string) :=
  match s with
  | "" => None
  | String c s' =>
      match from_last_dot s' with
      | Some (i, e) => Some (S i, e)
      | None => if Ascii.eqb c "." then Some (0, s) else None
      end
  end.

(** [path.extname(path)] *)
Definition extname (path : string) : string :=
  let base := basename path in
  if String.eqb base ".." then ""
  else match from_last_dot base with
       | Some (S _, e) => e
       | Some (0, _) | None => ""
       end.

End Path.

Definition MIME_TYPES : gmap string string :=
  list_to_map
    [ (".html", "text/html; charset=utf-8");
      (".js", "application/javascript; charset=utf-8");
      (".css", "text/css; charset=utf-8");
      (".json", "application/json; charset=utf-8");
      (".png", "image/png");
      (".jpg", "image/jpeg");
      (".svg", "image/svg+xml") ].

(** [existsSync], [statSync(path).isDirectory()] and [readFileSync]. *)
Record FileSystem := mkFileSystem {
  existsSync : string → bool;
  isDirectory : string → bool;
  readFileSync : string → list Byte.byte }.

Inductive StaticResponse :=
| Plain (status : nat) (text : string)
| File (status : nat) (contentType : string) (content : list Byte.byte).

(** [serveStatic] calls itself on the index file of a directory;
    [fuel] bounds the number of calls. *)
Fixpoint serveStatic (fuel : nat) (fs : FileSystem) (filePath : string)
    : option StaticResponse :=
  match fuel with
  | 0 => None
  | S fuel =>
      if negb (existsSync fs filePath) then Some (Plain 404 "Not found")
      else if isDirectory fs filePath then
        let indexPath := Path.join filePath "index.html" in
        if negb (existsSync fs indexPath) then Some (Plain 403 "Forbidden")
        else serveStatic fuel fs indexPath
      else
        let contentType :=
          JS.or_else (MIME_TYPES !! Path.extname filePath) "application/octet-stream" in
        Some (File 200 contentType (readFileSync fs filePath))
  end.

(** The file a URL is served from: [join(publicDir, ...)] on the
    part of [req.url] before the first question mark. *)
Definition publicDir (projectRoot : string) : string := Path.join projectRoot "public".

Definition static_path (projectRoot url : string) : string :=
  let requestedPath := hd "" (JS.split "?" url) in
  Path.join (publicDir projectRoot)
    (if String.eqb requestedPath "/" then "index.html" else requestedPath).

(** ** Vocabulary for frame conditions *)

(** A computation [respects] a relation between states when the
    state it ends in is related to the state it starts from. *)
Definition respects (R : State → State → Prop) {A} (m : M A) : Prop :=
  ∀ st, R st (snd (m st)).

Definition usage_le (u v : Usage) : Prop :=
  (prompt_tokens u <= prompt_tokens v)%Z ∧
  (completion_tokens u <= completion_tokens v)%Z ∧
  (total_tokens u <= total_tokens v)%Z.

(** Services whose answers never report a negative token count. *)
Definition reports_nonnegative (upstream : Upstream) : Prop :=
  ∀ h c r j u,
    upstream h c = Responded r → res_json r = inr j → j_usage j = Some u →
    (0 <= default 0 (j_prompt_tokens u))%Z ∧
    (0 <= default 0 (j_completion_tokens u))%Z ∧
    (0 <= default 0 (j_total_tokens u))%Z.


(** The listeners of a channel. *)
Definition listeners (channel : string) (st : State) : list Listener :=
  default [] (subscribers st !! channel).

(** A computation makes at most [k] upstream calls. *)
Definition within (k : nat) {A} (m : M A) : Prop :=
  ∀ st, length (calls (snd (m st))) ≤ length (calls st) + k.


(** A path segment that names something: not empty, not [.] or
    [..], and without a separator. *)
Definition plain (s : string) : bool :=
  negb (String.eqb s "") && negb (String.eqb s ".") && negb (String.eqb s "..") &&
  negb (Path.has_char "/" s).

(** A list of segments without its last [k]. *)
Definition drop_last {A} (k : nat) (l : list A) : list A := rev (drop k (rev l)).

(** The absolute path with the segments [segs]. *)
Definition absolute (segs : list string) : string := "/" +:+ JS.join "/" segs.

(** The segments of the path part of a URL. *)
Definition url_segments (url : string) : list string :=
  JS.split "/" (hd "" (JS.split "?" url)).

(** ** More fixtures *)

Module Sample.

(** No key in the environment. *)
Definition keyless : Config := load_config ∅.

(** A translate model that the pricing table does not list. *)
Definition unpriced : Config :=
  load_config {[ "OPENAI_API_KEY" := "sk-test"; "OPENAI_TRANSLATE_MODEL" := "gpt-4o" ]}.

(** Services that refuse every call, and a network that is down. *)
Definition overloaded : HttpResponse :=
  mkHttpResponse 503 "overloaded" (inl "Unexpected token") [].

Definition refusing : Upstream := λ _ _, Responded overloaded.

Definition offline : Upstream := λ _ _, NetworkError "".


(** A listener who gives the wrong passcode, and one who names no
    channel. *)
Definition wrong_passcode : Request :=
  Fixture.subscribe [("channel", "r1:english"); ("room", "r1"); ("passcode", "xyz")].

Definition no_channel : Request :=
  Fixture.subscribe [("room", "r1"); ("passcode", "abc")].

(** A public directory with a page, a script, a directory of
    documents and a file without a known extension; above it, the
    project's environment file. *)
Definition files : list (string * list Byte.byte) :=
  [ ("/srv/app/public/index.html", ["<"; "p"; ">"]%byte);
    ("/srv/app/public/app.js", ["1"; ";"]%byte);
    ("/srv/app/public/docs/index.html", ["d"]%byte);
    ("/srv/app/public/LICENSE", ["M"; "I"; "T"]%byte);
    ("/srv/app/.env", ["K"; "E"; "Y"]%byte) ].

Definition directories : list string :=
  ["/"; "/srv"; "/srv/app"; "/srv/app/public"; "/srv/app/public/docs";
   "/srv/app/public/empty"].

Definition disk : FileSystem :=
  {| existsSync p :=
       bool_decide (p ∈ directories) || bool_decide (p ∈ map fst files);
     isDirectory p := bool_decide (p ∈ directories);
     readFileSync p := default [] ((list_to_map files : gmap string _) !! p) |}.

(** NO-BREAK SPACE (U+00A0) and IDEOGRAPHIC SPACE (U+3000). *)
Definition nbsp : string := String (ascii_of_nat 194) (String (ascii_of_nat 160) "").
Definition ideographic_space : string :=
  String (ascii_of_nat 227) (String (ascii_of_nat 128) (String (ascii_of_nat 128) "")).

(** A submission whose passcode is one no-break space, and the
    owner's passcode with an ideographic space after it. *)
Definition blank_passcode : Request :=
  Fixture.submit [("room", "r1"); ("passcode", nbsp)] Fixture.audio.
Definition wide_padding : Request :=
  Fixture.submit [("room", "r1"); ("passcode", "abc" +:+ ideographic_space)] Fixture.audio.

End Sample.

(** * Properties *)

(** ** The monad *)

Lemma bind_Ok {A B} (m : M A) (k : A → M B) st a st1 :
  m st = (Ok a, st1) → bind m k st = k a st1.
Proof. intros H. unfold bind. now rewrite H. Qed.

Lemma bind_Throw {A B} (m : M A) (k : A → M B) st e st1 :
  m st = (Throw e, st1) → bind m k st = (Throw e, st1).
Proof. intros H. unfold bind. now rewrite H. Qed.

Lemma bind_Ok_inv {A B} (m : M A) (k : A → M B) st b st2 :
  bind m k st = (Ok b, st2) →
  ∃ a st1, m st = (Ok a, st1) ∧ k a st1 = (Ok b, st2).
Proof.
  unfold bind. destruct (m st) as [[a|e] st1]; intros H.
  - eauto.
  - discriminate.
Qed.

Lemma bind_Throw_inv {A B} (m : M A) (k : A → M B) st e st2 :
  bind m k st = (Throw e, st2) →
  m st = (Throw e, st2) ∨ ∃ a st1, m st = (Ok a, st1) ∧ k a st1 = (Throw e, st2).
Proof.
  unfold bind. destruct (m st) as [[a|e'] st1]; intros H.
  - right. eauto.
  - left. congruence.
Qed.

(** ** What a computation leaves alone

    A computation that [keeps] the state only extends it. *)

Lemma extends_refl st : extends st st.
Proof.
  repeat split; try reflexivity.
  - exists []. now rewrite app_nil_r.
  - intros res. exists []. now rewrite app_nil_r.
Qed.

Lemma extends_trans st1 st2 st3 : extends st1 st2 → extends st2 st3 → extends st1 st3.
Proof.
  intros (H1 & H2 & H3 & H4 & H5 & (n1 & H6) & H7) (K1 & K2 & K3 & K4 & K5 & (n2 & K6) & K7).
  repeat split; try congruence.
  - exists (n1 ++ n2). rewrite K6, H6. now rewrite app_assoc.
  - intros res. destruct (H7 res) as (m1 & E1). destruct (K7 res) as (m2 & E2).
    exists (m1 ++ m2). rewrite E2, E1. now rewrite app_assoc.
Qed.

Lemma extends_calls st new : extends st (set_calls (λ l, l ++ new) st).
Proof.
  repeat split; [now exists new|]. intros res. exists []. now rewrite app_nil_r.
Qed.

Lemma extends_usage st f : extends st (set_sessionUsage f st).
Proof.
  repeat split.
  - exists []. now rewrite app_nil_r.
  - intros res. exists []. now rewrite app_nil_r.
Qed.

Create HintDb keeps.

Lemma keeps_ret {A} (a : A) : keeps (ret a).
Proof. intros st. apply extends_refl. Qed.

Lemma keeps_throw {A} e : keeps (@throw A e).
Proof. intros st. apply extends_refl. Qed.

Lemma keeps_gets {A} (f : State → A) : keeps (gets f).
Proof. intros st. apply extends_refl. Qed.

Lemma keeps_bind {A B} (m : M A) (k : A → M B) :
  keeps m → (∀ a, keeps (k a)) → keeps (bind m k).
Proof.
  intros Hm Hk st. unfold bind. specialize (Hm st).
  destruct (m st) as [[a|e] st1]; simpl in *.
  - eapply extends_trans; [exact Hm | apply Hk].
  - exact Hm.
Qed.

Lemma keeps_modify_usage (f : Usage → Usage) : keeps (modify (set_sessionUsage f)).
Proof. intros st. apply extends_usage. Qed.

Lemma write_written res' chunk res st :
  written_to res (write res' chunk st) =
    if decide (res' = res ∧ res ∉ destroyed st)
    then written_to res st ++ [chunk]
    else written_to res st.
Proof.
  unfold write, written_to.
  destruct (decide (res' ∈ destroyed st)) as [Hd|Hd].
  - case_decide as H; [|reflexivity]. destruct H as [-> Hn]. contradiction.
  - simpl. destruct (decide (res' = res)) as [->|Hne].
    + rewrite lookup_insert_eq. simpl. case_decide as H; [reflexivity | tauto].
    + rewrite lookup_insert_ne by exact Hne. case_decide as H; [tauto | reflexivity].
Qed.

Lemma write_extends res chunk st : extends st (write res chunk st).
Proof.
  assert (W := λ r, write_written res chunk r st).
  unfold write in *. destruct (decide (res ∈ destroyed st)).
  - apply extends_refl.
  - repeat split.
    + exists []. simpl. now rewrite app_nil_r.
    + intros r. rewrite W. case_decide; [now exists [chunk]|].
      exists []. now rewrite app_nil_r.
Qed.

Lemma broadcast_extends channel payload st : extends st (broadcast channel payload st).
Proof.
  unfold broadcast. destruct (subscribers st !! channel) as [set|]; [|apply extends_refl].
  revert st. induction set as [|res set IH]; intros st; simpl.
  - apply extends_refl.
  - eapply extends_trans; [apply write_extends | apply IH].
Qed.

Lemma write_calls res chunk st : calls (write res chunk st) = calls st.
Proof. unfold write. now destruct (decide _). Qed.

Lemma broadcast_calls channel payload st : calls (broadcast channel payload st) = calls st.
Proof.
  unfold broadcast. destruct (subscribers st !! channel) as [set|]; [|reflexivity].
  revert st. induction set as [|res set IH]; intros st; simpl; [reflexivity|].
  now rewrite IH, write_calls.
Qed.

Lemma keeps_modify_broadcast channel payload : keeps (modify (broadcast channel payload)).
Proof. intros st. apply broadcast_extends. Qed.

Lemma keeps_if {A} (b : bool) (m1 m2 : M A) : keeps m1 → keeps m2 → keeps (if b then m1 else m2).
Proof. now destruct b. Qed.

#[local] Hint Resolve keeps_ret keeps_throw keeps_gets keeps_bind keeps_modify_usage
  keeps_modify_broadcast keeps_if : keeps.

Ltac keeps_step :=
  first
    [ progress auto with keeps
    | apply keeps_bind
    | match goal with
      | |- ∀ _, keeps _ => intro
      | |- keeps (match ?x with _ => _ end) => destruct x
      end ].

Section ServerFacts.

Variable cfg : Config.
Variable upstream : Upstream.

Lemma keeps_fetch c : keeps (fetch upstream c).
Proof.
  intros st. unfold fetch.
  destruct (upstream (calls st) c); simpl; apply extends_calls.
Qed.
#[local] Hint Resolve keeps_fetch : keeps.

Lemma keeps_fetchJson c : keeps (fetchJson upstream c).
Proof. unfold fetchJson. repeat keeps_step. Qed.

Lemma keeps_fetchArrayBuffer c : keeps (fetchArrayBuffer upstream c).
Proof. unfold fetchArrayBuffer. repeat keeps_step. Qed.
#[local] Hint Resolve keeps_fetchJson keeps_fetchArrayBuffer : keeps.

Lemma keeps_transcribeAudio a s m : keeps (transcribeAudio cfg upstream a s m).
Proof. unfold transcribeAudio. repeat keeps_step. Qed.

Lemma keeps_refineTranscript raw s : keeps (refineTranscript cfg upstream raw s).
Proof. unfold refineTranscript. repeat keeps_step. Qed.

Lemma keeps_tryTranslate ms : keeps (tryTranslate cfg upstream ms).
Proof. unfold tryTranslate. repeat keeps_step. Qed.
#[local] Hint Resolve keeps_tryTranslate : keeps.

Lemma keeps_translateText t l c : keeps (translateText cfg upstream t l c).
Proof. unfold translateText. repeat keeps_step. Qed.

Lemma keeps_synthesizeSpeech t : keeps (synthesizeSpeech cfg upstream t).
Proof. unfold synthesizeSpeech. repeat keeps_step. Qed.
#[local] Hint Resolve keeps_translateText keeps_synthesizeSpeech : keeps.

Lemma keeps_branch room t c w l : keeps (branch cfg upstream room t c w l).
Proof. unfold branch. repeat keeps_step. Qed.

Lemma settle_all_extends {A} (ps : list (M A)) :
  (∀ p, p ∈ ps → keeps p) → ∀ st, extends st (snd (settle_all ps st)).
Proof.
  induction ps as [|p ps IH]; intros Hps st; simpl.
  - apply extends_refl.
  - assert (Hp : keeps p) by (apply Hps; left).
    specialize (Hp st). destruct (p st) as [r st1]. simpl in Hp.
    assert (IH' := IH (λ q Hq, Hps q (list_elem_of_further _ _ _ Hq)) st1).
    destruct (settle_all ps st1) as [rs st2]. simpl in *.
    eapply extends_trans; eassumption.
Qed.

Lemma keeps_Promise_all {A} (ps : list (M A)) :
  (∀ p, p ∈ ps → keeps p) → keeps (Promise_all ps).
Proof.
  intros Hps st. unfold Promise_all.
  assert (H := settle_all_extends ps Hps st).
  now destruct (settle_all ps st).
Qed.

End ServerFacts.

(** ** The submit handler, case by case *)


Lemma truthy_true s : JS.truthy s = true ↔ s ≠ "".
Proof. destruct s; simpl; split; congruence. Qed.

Lemma mismatch_true e p : mismatch (Some e) p = true ↔ e ≠ "" ∧ e ≠ p.
Proof.
  unfold mismatch. rewrite andb_true_iff, negb_true_iff, truthy_true.
  rewrite String.eqb_neq. tauto.
Qed.

Lemma mismatch_same p : mismatch (Some p) p = false.
Proof. unfold mismatch. rewrite String.eqb_refl. simpl. apply andb_false_r. Qed.

Lemma touch_usage_id u : touch_usage u = u.
Proof. destruct u. unfold touch_usage. simpl. now rewrite Z.add_0_r. Qed.

Lemma touch_id st : set_sessionUsage touch_usage st = st.
Proof. destruct st. unfold set_sessionUsage. simpl. now rewrite touch_usage_id. Qed.

Section Handler.

Variable cfg : Config.
Variable upstream : Upstream.

Lemma handle_eq req st :
  handleTranslateRequest cfg upstream req st =
    if negb (ensureApiKey cfg)
    then (Ok (respondJson 500 (ErrorData "Missing OPENAI_API_KEY")), st)
    else if negb (JS.truthy (submit_passcode req))
    then (Ok (respondJson 400 (ErrorData "Missing passcode")), st)
    else if mismatch (roomPasscodes st !! submit_room req) (submit_passcode req)
    then (Ok (respondJson 403 (ErrorData "Room passcode mismatch")), st)
    else if length (readRequestBody req) =? 0
    then (Ok (respondJson 400 (ErrorData "No audio content received.")), bound req st)
    else try_catch (translate_segment cfg upstream req) server_error (bound req st).
Proof.
  unfold handleTranslateRequest.
  destruct (negb (ensureApiKey cfg)); [reflexivity|].
  unfold try_catch at 1. unfold bind at 1. unfold modify at 1.
  rewrite touch_id. fold (submit_passcode req). fold (submit_room req).
  destruct (negb (JS.truthy (submit_passcode req))); [reflexivity|].
  unfold bind at 1. unfold gets at 1.
  destruct (mismatch _ _); [reflexivity|].
  unfold bind at 1. unfold modify at 1. fold (bound req st).
  destruct (length (readRequestBody req) =? 0); reflexivity.
Qed.

Lemma handle_no_key req st :
  ensureApiKey cfg = false →
  handleTranslateRequest cfg upstream req st =
    (Ok (respondJson 500 (ErrorData "Missing OPENAI_API_KEY")), st).
Proof. intros H. rewrite handle_eq, H. reflexivity. Qed.

Lemma handle_missing_passcode req st :
  ensureApiKey cfg = true → submit_passcode req = "" →
  handleTranslateRequest cfg upstream req st =
    (Ok (respondJson 400 (ErrorData "Missing passcode")), st).
Proof. intros Hk Hp. rewrite handle_eq, Hk, Hp. reflexivity. Qed.

Lemma handle_mismatch req st :
  ensureApiKey cfg = true → submit_passcode req ≠ "" →
  mismatch (roomPasscodes st !! submit_room req) (submit_passcode req) = true →
  handleTranslateRequest cfg upstream req st =
    (Ok (respondJson 403 (ErrorData "Room passcode mismatch")), st).
Proof.
  intros Hk Hp Hm. apply truthy_true in Hp.
  rewrite handle_eq, Hk, Hp, Hm. reflexivity.
Qed.


Lemma handle_validated req st :
  ensureApiKey cfg = true → submit_passcode req ≠ "" →
  mismatch (roomPasscodes st !! submit_room req) (submit_passcode req) = false →
  readRequestBody req ≠ [] →
  handleTranslateRequest cfg upstream req st =
    try_catch (translate_segment cfg upstream req) server_error (bound req st).
Proof.
  intros Hk Hp Hm Hb. apply truthy_true in Hp.
  rewrite handle_eq, Hk, Hp, Hm.
  destruct (readRequestBody req); [congruence | reflexivity].
Qed.

End Handler.

Section Segment.

Variable cfg : Config.
Variable upstream : Upstream.

Lemma keeps_translate_segment req : keeps (translate_segment cfg upstream req).
Proof.
  unfold translate_segment.
  apply keeps_bind; [apply keeps_transcribeAudio|]. intros raw.
  apply keeps_bind; [apply keeps_refineTranscript|]. intros transcript.
  apply keeps_bind.
  - apply keeps_Promise_all. intros p Hp.
    apply list_elem_of_fmap in Hp as (l & -> & _). apply keeps_branch.
  - intros results. repeat keeps_step.
Qed.

Lemma keeps_server_error e : keeps (server_error e).
Proof. apply keeps_ret. Qed.

Lemma keeps_try_catch {A} (m : M A) (h : string → M A) :
  keeps m → (∀ e, keeps (h e)) → keeps (try_catch m h).
Proof.
  intros Hm Hh st. unfold try_catch. specialize (Hm st).
  destruct (m st) as [[a|e] st1]; simpl in *; [exact Hm|].
  eapply extends_trans; [exact Hm | apply Hh].
Qed.

(** The segment answers 200 or throws. *)
Lemma translate_segment_Ok req st r st' :
  translate_segment cfg upstream req st = (Ok r, st') →
  ∃ transcript results usage cost,
    r = respondJson 200
          (TranslateData transcript results usage cost (OPENAI_TRANSLATE_MODEL cfg)).
Proof.
  unfold translate_segment. intros H.
  apply bind_Ok_inv in H as (raw & s1 & _ & H).
  apply bind_Ok_inv in H as (transcript & s2 & _ & H).
  apply bind_Ok_inv in H as (results & s3 & _ & H).
  apply bind_Ok_inv in H as (usage & s4 & _ & H).
  apply bind_Ok_inv in H as (cost & s5 & _ & H).
  unfold ret in H. injection H as <- _. eauto.
Qed.

Lemma fetch_calls c st : calls (snd (fetch upstream c st)) = calls st ++ [c].
Proof. unfold fetch. now destruct (upstream (calls st) c). Qed.

Lemma fetchJson_calls c st : calls (snd (fetchJson upstream c st)) = calls st ++ [c].
Proof.
  unfold fetchJson, bind. assert (H := fetch_calls c st).
  destruct (fetch upstream c st) as [[res|e] st1]; simpl in *; [|exact H].
  destruct (negb (ok res)); [exact H|]. now destruct (res_json res).
Qed.

Lemma fetchArrayBuffer_calls c st :
  calls (snd (fetchArrayBuffer upstream c st)) = calls st ++ [c].
Proof.
  unfold fetchArrayBuffer, bind. assert (H := fetch_calls c st).
  destruct (fetch upstream c st) as [[res|e] st1]; simpl in *; [|exact H].
  now destruct (negb (ok res)).
Qed.

(** A validated request always reaches the transcription service. *)
Lemma translate_segment_calls req st :
  ∃ c new, calls (snd (translate_segment cfg upstream req st)) = calls st ++ c :: new ∧
           url c = OPENAI_API_BASE_URL cfg +:+ "/audio/transcriptions".
Proof.
  unfold translate_segment, transcribeAudio.
  set (c := mkCall _ _ _). exists c.
  match goal with |- context [bind (bind (fetchJson upstream c) ?k1) ?k2] =>
    set (k := k2); set (k' := k1) end.
  assert (Hk : ∀ a, keeps (k a)).
  { intros a. subst k. cbv beta.
    apply keeps_bind; [apply keeps_refineTranscript|]. intros transcript.
    apply keeps_bind.
    - apply keeps_Promise_all. intros p Hp.
      apply list_elem_of_fmap in Hp as (l & -> & _). apply keeps_branch.
    - intros results. repeat keeps_step. }
  unfold bind at 1. unfold bind at 1.
  assert (Hc := fetchJson_calls c st).
  destruct (fetchJson upstream c st) as [[j|e] st1]; simpl in Hc |- *.
  - destruct (Hk (j_text j) st1) as (_ & _ & _ & _ & _ & (new & Hn) & _).
    exists new. split; [|reflexivity]. rewrite Hn, Hc. now rewrite <- app_assoc.
  - exists []. split; [exact Hc | reflexivity].
Qed.

Lemma handle_roomPasscodes req st R P :
  roomPasscodes st !! R = Some P → P ≠ "" →
  roomPasscodes (snd (handleTranslateRequest cfg upstream req st)) !! R = Some P.
Proof.
  intros HR HP. rewrite handle_eq.
  destruct (negb (ensureApiKey cfg)); [exact HR|].
  destruct (negb (JS.truthy (submit_passcode req))); [exact HR|].
  destruct (mismatch _ _) eqn:Hm; [exact HR|].
  assert (Hb : roomPasscodes (bound req st) !! R = Some P).
  { unfold bound. simpl. destruct (decide (submit_room req = R)) as [E|E].
    - rewrite E in *. rewrite HR in Hm.
      destruct (decide (P = submit_passcode req)) as [<-|N].
      + now rewrite lookup_insert_eq.
      + assert (mismatch (Some P) (submit_passcode req) = true) by now apply mismatch_true.
        congruence.
    - now rewrite lookup_insert_ne. }
  destruct (length (readRequestBody req) =? 0); [exact Hb|].
  assert (K : keeps (try_catch (translate_segment cfg upstream req) server_error)).
  { apply keeps_try_catch; [apply keeps_translate_segment | apply keeps_server_error]. }
  destruct (K (bound req st)) as (-> & _). exact Hb.
Qed.

Lemma handleSubscribe_roomPasscodes req res st :
  roomPasscodes (snd (handleSubscribeRequest req res st)) = roomPasscodes st.
Proof.
  unfold handleSubscribeRequest.
  destruct (get "channel" (searchParams req)) as [[|c s]|]; try reflexivity.
  destruct (mismatch _ _); [reflexivity|].
  simpl. unfold write, addSubscriber.
  now destruct (decide _).
Qed.

Lemma removeSubscriber_roomPasscodes channel res st :
  roomPasscodes (removeSubscriber channel res st) = roomPasscodes st.
Proof.
  unfold removeSubscriber. destruct (subscribers st !! channel); [|reflexivity].
  now destruct (JS.set_delete _ _).
Qed.

(** A binding, once made, outlives every event. *)
Lemma binding_persists_step st ev R P :
  roomPasscodes st !! R = Some P → P ≠ "" →
  roomPasscodes (step cfg upstream st ev) !! R = Some P.
Proof.
  intros HR HP. destruct ev as [req|req res|res|res|res]; simpl.
  - now apply handle_roomPasscodes.
  - now rewrite handleSubscribe_roomPasscodes.
  - exact HR.
  - destruct (closeHandlers st !! res); [|exact HR].
    unfold on_close. now rewrite removeSubscriber_roomPasscodes.
  - destruct (decide _); [|exact HR]. unfold write. now destruct (decide _).
Qed.

Lemma binding_persists st evs R P :
  roomPasscodes st !! R = Some P → P ≠ "" →
  roomPasscodes (run cfg upstream st evs) !! R = Some P.
Proof.
  revert st. induction evs as [|ev evs IH]; intros st HR HP; simpl.
  - exact HR.
  - apply IH; [|exact HP]. now apply binding_persists_step.
Qed.

End Segment.

Lemma validated_shape cfg upstream req st :
  let out := try_catch (translate_segment cfg upstream req) server_error st in
  ((∃ transcript results usage cost,
      fst out = Ok (respondJson 200
        (TranslateData transcript results usage cost (OPENAI_TRANSLATE_MODEL cfg)))) ∨
   (∃ e, fst out = Ok (respondJson 500 (ErrorData e)))) ∧
  roomPasscodes (snd out) = roomPasscodes st ∧
  ∃ c new, calls (snd out) = calls st ++ c :: new ∧
           url c = OPENAI_API_BASE_URL cfg +:+ "/audio/transcriptions".
Proof.
  cbv zeta. unfold try_catch.
  assert (Hc := translate_segment_calls cfg upstream req st).
  assert (Hk := keeps_translate_segment cfg upstream req st).
  destruct (translate_segment cfg upstream req st) as [[r|e] st1] eqn:E; simpl in *.
  - split; [|split; [apply Hk | exact Hc]]. left.
    destruct (translate_segment_Ok cfg upstream req st r st1 E) as (t & rs & u & c & ->).
    eauto 6.
  - split; [right; eauto|]. split; [apply Hk | exact Hc].
Qed.

(** ** Room registry *)

(** C1 (as amended) — Passcodes are compared as the handler extracts
    them, that is after trimming.  Once a submit request has bound a
    non-empty passcode [P1] to room [R], then after any further events
    the room is still bound to [P1], and a submit request on [R]
    - presenting [P1] is accepted: it is answered 400 only for an
      empty body, and otherwise goes on to the transcription service
      and is answered 200, or 500 if a service fails;
    - presenting another, non-empty passcode is answered 403 and
      changes nothing;
    - presenting an empty passcode is answered 400 (missing passcode),
      not 403, and changes nothing. *)
Theorem C1_passcode_binding cfg upstream st0 req0 evs R P1 :
  ensureApiKey cfg = true →
  submit_room req0 = R → submit_passcode req0 = P1 → P1 ≠ "" →
  mismatch (roomPasscodes st0 !! R) P1 = false →
  let st := run cfg upstream (snd (handleTranslateRequest cfg upstream req0 st0)) evs in
  roomPasscodes st !! R = Some P1 ∧
  ∀ req, submit_room req = R →
    let out := handleTranslateRequest cfg upstream req st in
    (submit_passcode req = P1 →
       roomPasscodes (snd out) !! R = Some P1 ∧
       if length (readRequestBody req) =? 0
       then fst out = Ok (respondJson 400 (ErrorData "No audio content received."))
       else ((∃ data, fst out = Ok (respondJson 200 data)) ∨
             (∃ e, fst out = Ok (respondJson 500 (ErrorData e)))) ∧
            ∃ c new, calls (snd out) = calls st ++ c :: new ∧
                     url c = OPENAI_API_BASE_URL cfg +:+ "/audio/transcriptions") ∧
    (submit_passcode req ≠ P1 → submit_passcode req ≠ "" →
       out = (Ok (respondJson 403 (ErrorData "Room passcode mismatch")), st)) ∧
    (submit_passcode req = "" →
       out = (Ok (respondJson 400 (ErrorData "Missing passcode")), st)).
Proof.
  intros Hk HR HP1 Hne Hm st.
  assert (Hb : roomPasscodes (snd (handleTranslateRequest cfg upstream req0 st0)) !! R
               = Some P1).
  { rewrite handle_eq, Hk, HR, HP1. simpl.
    apply truthy_true in Hne as Ht. rewrite Ht, Hm. simpl.
    assert (B : roomPasscodes (bound req0 st0) !! R = Some P1).
    { unfold bound. simpl. rewrite HR, HP1. apply lookup_insert_eq. }
    destruct (length (readRequestBody req0) =? 0); [exact B|].
    destruct (validated_shape cfg upstream req0 (bound req0 st0)) as (_ & -> & _).
    exact B. }
  assert (Hst : roomPasscodes st !! R = Some P1) by now apply binding_persists.
  split; [exact Hst|]. intros req Hroom out. subst out. repeat split.
  - now apply handle_roomPasscodes.
  - rewrite handle_eq, Hk, Hroom, H, Hst, mismatch_same. simpl.
    apply truthy_true in Hne as Ht. rewrite Ht. simpl.
    destruct (length (readRequestBody req) =? 0); [reflexivity|].
    destruct (validated_shape cfg upstream req (bound req st)) as (Hs & _ & Hc).
    split; [|exact Hc].
    destruct Hs as [(t & rs & u & c & Hs)|Hs]; [left; eauto | right; exact Hs].
  - intros Hd He. apply handle_mismatch; auto.
    rewrite Hroom, Hst. apply mismatch_true. split; congruence.
  - intros He. now apply handle_missing_passcode.
Qed.

Lemma C1_passcode_binding_witness :
  let st := run Fixture.cfg Fixture.healthy
              (snd (handleTranslateRequest Fixture.cfg Fixture.healthy Fixture.owner init))
              [Subscribe Fixture.eavesdrop 7; Submit Fixture.stranger] in
  (ensureApiKey Fixture.cfg = true ∧
   submit_room Fixture.owner = "r1" ∧ submit_passcode Fixture.owner = "abc" ∧
   "abc" ≠ "" ∧ mismatch (roomPasscodes init !! "r1") "abc" = false) ∧
  roomPasscodes st !! "r1" = Some "abc" ∧
  handleTranslateRequest Fixture.cfg Fixture.healthy Fixture.stranger st =
    (Ok (respondJson 403 (ErrorData "Room passcode mismatch")), st).
Proof.
  cbv zeta.
  assert (H1 : ensureApiKey Fixture.cfg = true) by (vm_compute; reflexivity).
  assert (H2 : submit_room Fixture.owner = "r1") by reflexivity.
  assert (H3 : submit_passcode Fixture.owner = "abc") by reflexivity.
  assert (H4 : "abc" ≠ "") by discriminate.
  assert (H5 : mismatch (roomPasscodes init !! "r1") "abc" = false) by reflexivity.
  split; [repeat split; assumption|].
  destruct (C1_passcode_binding Fixture.cfg Fixture.healthy init Fixture.owner
              [Subscribe Fixture.eavesdrop 7; Submit Fixture.stranger] "r1" "abc"
              H1 H2 H3 H4 H5) as [Hb Hreq].
  split; [exact Hb|].
  destruct (Hreq Fixture.stranger eq_refl) as (_ & Hwrong & _).
  apply Hwrong; discriminate.
Defined.

(** C1 (as stated) fails — After the owner's request has bound [abc]
    to room [r1], a request on [r1] presenting the empty passcode,
    which differs from [abc], is turned away as a validation error
    (400, missing passcode) and not as an authorization error. *)
Lemma C1_counterexample :
  let st := snd (handleTranslateRequest Fixture.cfg Fixture.healthy Fixture.owner init) in
  roomPasscodes st !! "r1" = Some "abc" ∧
  submit_room Fixture.no_passcode = "r1" ∧
  submit_passcode Fixture.no_passcode = "" ∧
  fst (handleTranslateRequest Fixture.cfg Fixture.healthy Fixture.no_passcode st) =
    Ok (respondJson 400 (ErrorData "Missing passcode")).
Proof.
  cbv zeta. split; [vm_compute; reflexivity|].
  split; [reflexivity|]. split; [reflexivity|]. vm_compute. reflexivity.
Qed.

(** The passcode is trimmed before it is compared: [abc] with white
    space around it opens the room bound to [abc]. *)
Example padded_passcode_accepted :
  let st := snd (handleTranslateRequest Fixture.cfg Fixture.healthy Fixture.owner init) in
  get "passcode" (searchParams Fixture.padded) = Some " abc " ∧
  ∃ data, fst (handleTranslateRequest Fixture.cfg Fixture.healthy Fixture.padded st) =
    Ok (respondJson 200 data).
Proof. cbv zeta. split; [reflexivity|]. eexists. vm_compute. reflexivity. Qed.

(** ** Validation *)

(** C5 — A submit request with an empty passcode, or with a passcode
    other than the one bound to its room, or with an empty body, is
    answered with an error (400, 403 or 500) and no call to an
    upstream service is made. *)
Theorem C5_rejected_without_upstream_call cfg upstream req st :
  submit_passcode req = "" ∨
  (∃ e, roomPasscodes st !! submit_room req = Some e ∧ e ≠ "" ∧ e ≠ submit_passcode req) ∨
  readRequestBody req = [] →
  let out := handleTranslateRequest cfg upstream req st in
  (∃ status message,
     fst out = Ok (respondJson status (ErrorData message)) ∧
     (status = 400 ∨ status = 403 ∨ status = 500)) ∧
  calls (snd out) = calls st.
Proof.
  intros H out. subst out. rewrite handle_eq.
  destruct (negb (ensureApiKey cfg)); [simpl; eauto 8|].
  destruct (negb (JS.truthy (submit_passcode req))) eqn:Ht; [simpl; eauto 8|].
  destruct (mismatch _ _) eqn:Hm; [simpl; eauto 8|].
  apply negb_false_iff, truthy_true in Ht.
  destruct H as [H|[(e & He & Hne & Hd)|H]].
  - congruence.
  - rewrite He in Hm. assert (mismatch (Some e) (submit_passcode req) = true)
      by now apply mismatch_true. congruence.
  - rewrite H. simpl. eauto 8.
Qed.

Lemma C5_rejected_without_upstream_call_witness :
  let out := handleTranslateRequest Fixture.cfg Fixture.healthy Fixture.silent init in
  readRequestBody Fixture.silent = [] ∧
  (∃ status message,
     fst out = Ok (respondJson status (ErrorData message)) ∧
     (status = 400 ∨ status = 403 ∨ status = 500)) ∧
  calls (snd out) = calls init.
Proof.
  cbv zeta. split; [reflexivity|].
  apply (C5_rejected_without_upstream_call Fixture.cfg Fixture.healthy Fixture.silent init).
  right; right; reflexivity.
Defined.



(** ** Translation and refinement *)

Lemma tryTranslate_calls cfg upstream messages st :
  calls (snd (tryTranslate cfg upstream messages st)) = calls st ++ [chat cfg messages].
Proof.
  unfold tryTranslate. unfold bind at 1.
  assert (H := fetchJson_calls upstream (chat cfg messages) st).
  destruct (fetchJson upstream (chat cfg messages) st) as [[j|e] st1]; simpl in *; [|exact H].
  unfold bind. destruct (j_usage j); simpl; exact H.
Qed.

Lemma translateText_eq cfg upstream text targetLanguage context st :
  translateText cfg upstream text targetLanguage context st =
    let system := JS.join " " (sysParts targetLanguage) in
    match tryTranslate cfg upstream [mkMessage "system" system; user_message text context] st with
    | (Ok result, st1) =>
        if negb (JS.truthy result)
        then tryTranslate cfg upstream
               [mkMessage "system" (system +:+ stricter); user_message text context] st1
        else (Ok result, st1)
    | (Throw e, st1) => (Throw e, st1)
    end.
Proof.
  unfold translateText, bind. cbv zeta.
  destruct (tryTranslate cfg upstream _ st) as [[result|e] st1]; [|reflexivity].
  now destruct (negb (JS.truthy result)).
Qed.

Lemma translateText_calls cfg upstream text targetLanguage context st :
  ∃ new, calls (snd (translateText cfg upstream text targetLanguage context st)) =
           calls st ++ new ∧ length new ≤ 2.
Proof.
  rewrite translateText_eq. cbv zeta.
  match goal with |- context [tryTranslate cfg upstream ?ms st] => set (first := ms) end.
  assert (H1 := tryTranslate_calls cfg upstream first st).
  destruct (tryTranslate cfg upstream first st) as [[result|e] st1]; simpl in *.
  - destruct (negb (JS.truthy result)).
    + rewrite tryTranslate_calls, H1, <- app_assoc. eexists. split; [reflexivity|].
      simpl. lia.
    + simpl. rewrite H1. eexists. split; [reflexivity|]. simpl. lia.
  - rewrite H1. eexists. split; [reflexivity|]. simpl. lia.
Qed.






Lemma or_else_nonempty o d : d ≠ "" → JS.or_else o d ≠ "".
Proof.
  intros Hd. unfold JS.or_else. destruct o as [s|]; [|exact Hd].
  destruct (JS.truthy s) eqn:E; [|exact Hd]. now apply truthy_true.
Qed.




(** ** Broadcast *)

Lemma broadcast_subscribers channel payload st :
  subscribers (broadcast channel payload st) = subscribers st.
Proof. apply broadcast_extends. Qed.

Lemma fold_write_written payload res set :
  NoDup set → ∀ st,
  written_to res (fold_left (λ st r, write r (Data payload) st) set st) =
    if decide (res ∈ set ∧ res ∉ destroyed st)
    then written_to res st ++ [Data payload]
    else written_to res st.
Proof.
  induction 1 as [|r set Hr Hnd IH]; intros st; cbn [fold_left].
  - case_decide as H; [|reflexivity]. destruct H as [Hin _]. now apply elem_of_nil in Hin.
  - rewrite IH.
    assert (Hd : destroyed (write r (Data payload) st) = destroyed st)
      by apply write_extends.
    rewrite Hd, write_written.
    destruct (decide (r = res)) as [->|Hne].
    + repeat case_decide; try reflexivity; exfalso;
        rewrite ?elem_of_cons in *; tauto.
    + repeat case_decide; try reflexivity; exfalso;
        rewrite ?elem_of_cons in *; intuition congruence.
Qed.

(** C8 (as amended) — [broadcast] does nothing for a channel without
    a listener set.  Otherwise every listener registered on the
    channel whose connection is alive is sent the event exactly once;
    a listener whose connection is gone is sent nothing, which does
    not affect the others.  [broadcast] never changes the registry of
    subscribers: a listener whose write failed stays registered (it
    is removed by the close handler of its request only). *)
Theorem C8_broadcast_delivery channel payload st :
  (subscribers st !! channel = None → broadcast channel payload st = st) ∧
  (∀ set, subscribers st !! channel = Some set → NoDup set →
     ∀ res, written_to res (broadcast channel payload st) =
       if decide (res ∈ set ∧ res ∉ destroyed st)
       then written_to res st ++ [Data payload]
       else written_to res st) ∧
  subscribers (broadcast channel payload st) = subscribers st.
Proof.
  split; [|split].
  - intros H. unfold broadcast. now rewrite H.
  - intros set H Hnd res. unfold broadcast. rewrite H. now apply fold_write_written.
  - apply broadcast_subscribers.
Qed.

Lemma C8_broadcast_delivery_witness :
  let st := run Fixture.cfg Fixture.healthy init
              [Subscribe Fixture.listen_english 1; Subscribe Fixture.listen_english 2] in
  let p := Translation "r1" "English" "Hello there." "Hello there." None in
  (subscribers st !! "r1:english" = Some [1; 2] ∧ NoDup [1; 2]) ∧
  written_to 2 (broadcast "r1:english" p st) = [Data (Ready "r1:english"); Data p].
Proof.
  cbv zeta.
  assert (H1 : subscribers (run Fixture.cfg Fixture.healthy init
                 [Subscribe Fixture.listen_english 1; Subscribe Fixture.listen_english 2])
               !! "r1:english" = Some [1; 2]) by (vm_compute; reflexivity).
  assert (H2 : NoDup [1; 2]) by (apply (bool_decide_unpack _); vm_compute; exact I).
  split; [split; assumption|].
  destruct (C8_broadcast_delivery "r1:english"
              (Translation "r1" "English" "Hello there." "Hello there." None)
              (run Fixture.cfg Fixture.healthy init
                 [Subscribe Fixture.listen_english 1; Subscribe Fixture.listen_english 2]))
    as (_ & Hd & _).
  rewrite (Hd [1; 2] H1 H2 2). vm_compute. reflexivity.
Defined.

(** C8 (as stated) fails — Listeners 1 and 2 are registered on
    [r1:english] and the connection of listener 1 is gone, its close
    event not yet handled.  A broadcast fails to write to listener 1
    and reaches listener 2, and listener 1 is still registered on the
    channel afterwards: the failed write triggers no removal. *)
Lemma C8_counterexample :
  let st := run Fixture.cfg Fixture.healthy init
              [Subscribe Fixture.listen_english 1; Subscribe Fixture.listen_english 2;
               SocketGone 1] in
  let p := Translation "r1" "English" "Hello there." "Hello there." None in
  let st' := broadcast "r1:english" p st in
  written_to 1 st' = written_to 1 st ∧
  written_to 2 st' = written_to 2 st ++ [Data p] ∧
  subscribers st' !! "r1:english" = Some [1; 2].
Proof. cbv zeta. repeat split; vm_compute; reflexivity. Qed.

(** ** Cost estimate *)

Lemma toFixed6_Qeq (x y : Q) : (x == y)%Q → (toFixed6 x == toFixed6 y)%Q.
Proof.
  intros E. unfold toFixed6.
  assert (Ea : (Qabs x == Qabs y)%Q) by now rewrite E.
  rewrite (Qleb_comp _ _ (Qeq_refl _) _ _ Ea).
  destruct (Qle_bool _ (Qabs y)); [exact E|].
  assert (Ef : Qfloor (Qabs x * inject_Z 1000000 + (1 # 2)) =
               Qfloor (Qabs y * inject_Z 1000000 + (1 # 2))).
  { apply Qfloor_comp. now rewrite Ea. }
  rewrite Ef. rewrite (Qleb_comp _ _ (Qeq_refl 0%Q) _ _ E).
  reflexivity.
Qed.

Lemma toFixed6_zero (x : Q) : (x == 0)%Q → (toFixed6 x == 0)%Q.
Proof. intros E. rewrite (toFixed6_Qeq x 0 E). reflexivity. Qed.










(** The sum is rounded as a double, not as the number the formula
    denotes: for 10 prompt tokens the formula gives 0.0000015, half
    way between two millionths, the double sum lies just below it,
    and the function returns 0.000001; likewise 0.000025 for 150 and
    5 tokens, where the formula gives 0.0000255. *)
Example estimateCost_below_a_tie :
  let st (p c : Z) := set_sessionUsage (λ _, mkUsage p c (p + c)) init in
  estimateCost Fixture.cfg (st 10 0)%Z = Double.literal (1 # 1000000) ∧
  (toFixed6 (inject_Z 10 / inject_Z 1000 * (15 # 100000)) == 2 # 1000000)%Q ∧
  estimateCost Fixture.cfg (st 2 7)%Z = Double.literal (4 # 1000000) ∧
  estimateCost Fixture.cfg (st 150 5)%Z = Double.literal (25 # 1000000).
Proof. cbv zeta. repeat split; vm_compute; reflexivity. Qed.

(** The primitive doubles of the machine give the same sums and the
    same results: for 1000 and 1000 tokens the sum is
    0.00074999999999999991 and the result the double 0.00075. *)
Example estimateCost_binary64 :
  let cfg := load_config ∅ in
  let st (p c : Z) := set_sessionUsage (λ _, mkUsage p c (p + c)) init in
  Prim2SF (Binary64.cost cfg (mkUsage 1000 1000 2000)) =
    cost_of (pricing_for (OPENAI_TRANSLATE_MODEL cfg)) (mkUsage 1000 1000 2000) ∧
  Prim2SF <$> Binary64.estimateCost cfg (mkUsage 1000 1000 2000) =
    Some (estimateCost cfg (st 1000 1000)%Z) ∧
  Prim2SF <$> Binary64.estimateCost cfg (mkUsage 150 7 157) =
    Some (estimateCost cfg (st 150 7)%Z) ∧
  Prim2SF <$> Binary64.estimateCost cfg (mkUsage 10 0 10) =
    Some (estimateCost cfg (st 10 0)%Z) ∧
  cost_of (pricing_for (OPENAI_TRANSLATE_MODEL cfg)) (mkUsage 1000 1000 2000) ≠
    Double.literal (75 # 100000).
Proof. cbv zeta. repeat split; vm_compute; (reflexivity || discriminate). Qed.

(** ** Target languages *)

Lemma set_add_elem {A} `{EqDecision A} (l : list A) (x y : A) :
  x ∈ JS.set_add l y ↔ x ∈ l ∨ x = y.
Proof.
  unfold JS.set_add. destruct (decide (y ∈ l)) as [Hy|Hy].
  - split; [now left|]. intros [H| ->]; assumption.
  - rewrite elem_of_app, list_elem_of_singleton. reflexivity.
Qed.

Lemma set_add_NoDup {A} `{EqDecision A} (l : list A) (y : A) :
  NoDup l → NoDup (JS.set_add l y).
Proof.
  intros Hl. unfold JS.set_add. destruct (decide (y ∈ l)) as [Hy|Hy]; [exact Hl|].
  apply NoDup_app. split; [exact Hl|]. split.
  - intros x Hx Hx'. apply list_elem_of_singleton in Hx'. now subst.
  - apply NoDup_singleton.
Qed.

Lemma fold_set_add_elem {A} `{EqDecision A} (xs acc : list A) (x : A) :
  x ∈ fold_left JS.set_add xs acc ↔ x ∈ acc ∨ x ∈ xs.
Proof.
  revert acc. induction xs as [|y xs IH]; intros acc; simpl.
  - rewrite elem_of_nil. tauto.
  - rewrite IH, set_add_elem, elem_of_cons. tauto.
Qed.

Lemma fold_set_add_NoDup {A} `{EqDecision A} (xs acc : list A) :
  NoDup acc → NoDup (fold_left JS.set_add xs acc).
Proof.
  revert acc. induction xs as [|y xs IH]; intros acc Hacc; simpl; [exact Hacc|].
  apply IH. now apply set_add_NoDup.
Qed.

Lemma Set_of_elem {A} `{EqDecision A} (xs : list A) (x : A) : x ∈ JS.Set_of xs ↔ x ∈ xs.
Proof. unfold JS.Set_of. rewrite fold_set_add_elem, elem_of_nil. tauto. Qed.

Lemma Set_of_NoDup {A} `{EqDecision A} (xs : list A) : NoDup (JS.Set_of xs).
Proof. apply fold_set_add_NoDup. constructor. Qed.

Lemma parseTargetLanguages_eq params :
  parseTargetLanguages params =
    match requested params with
    | [] => ["English"]
    | _ => JS.Set_of (requested params)
    end.
Proof. reflexivity. Qed.

Lemma parseTargetLanguages_spec params :
  let L := parseTargetLanguages params in
  NoDup L ∧ L ≠ [] ∧
  (requested params = [] → L = ["English"]) ∧
  (requested params ≠ [] → ∀ l, l ∈ L ↔ l ∈ requested params).
Proof.
  cbv zeta. rewrite parseTargetLanguages_eq.
  destruct (requested params) as [|a all] eqn:E.
  - split; [apply NoDup_singleton|]. split; [discriminate|]. split; [reflexivity|].
    intros H. contradiction.
  - split; [apply Set_of_NoDup|]. split.
    + intros H. assert (Ha : a ∈ JS.Set_of (a :: all)) by (apply Set_of_elem; left).
      rewrite H in Ha. now apply elem_of_nil in Ha.
    + split; [discriminate|]. intros _ l. apply Set_of_elem.
Qed.

(** Every requested language is trimmed and not blank. *)
Lemma requested_trimmed params l :
  l ∈ requested params →
  l ≠ "" ∧
  ∃ v, l = JS.trim v ∧
       v ∈ flat_map (JS.split ",") (getAll "targetLang" params) ++
           JS.split "," (JS.or_else (get "targetLangs" params) "").
Proof.
  unfold requested. rewrite list_elem_of_filter, list_elem_of_fmap.
  intros [Ht (v & -> & Hv)]. split; [now apply truthy_true | eauto].
Qed.

(** ** States the process can reach *)

Lemma tidy_init : tidy init.
Proof. split; intros k v H; simpl in H; now rewrite lookup_empty in H. Qed.

Lemma tidy_extends st st' : extends st st' → tidy st → tidy st'.
Proof.
  intros (Hr & Hs & _) [H1 H2]. split; intros k v.
  - rewrite Hs. apply H1.
  - rewrite Hr. apply H2.
Qed.

Lemma handle_state cfg upstream req st :
  snd (handleTranslateRequest cfg upstream req st) = st ∨
  (submit_passcode req ≠ "" ∧
   extends (bound req st) (snd (handleTranslateRequest cfg upstream req st))).
Proof.
  rewrite handle_eq.
  destruct (negb (ensureApiKey cfg)); [now left|].
  destruct (negb (JS.truthy (submit_passcode req))) eqn:Ht; [now left|].
  destruct (mismatch _ _); [now left|].
  right. split; [now apply negb_false_iff, truthy_true in Ht|].
  destruct (length (readRequestBody req) =? 0); [apply extends_refl|].
  apply keeps_try_catch; [apply keeps_translate_segment | apply keeps_server_error].
Qed.

Lemma tidy_bound req st : submit_passcode req ≠ "" → tidy st → tidy (bound req st).
Proof.
  intros Hp [H1 H2]. split; [exact H1|]. intros room p. unfold bound. simpl.
  destruct (decide (submit_room req = room)) as [->|Hne].
  - rewrite lookup_insert_eq. now intros [= <-].
  - rewrite lookup_insert_ne by exact Hne. apply H2.
Qed.

Lemma set_delete_NoDup {A} `{EqDecision A} (l : list A) (x : A) :
  NoDup l → NoDup (JS.set_delete l x).
Proof. intros H. unfold JS.set_delete. now apply NoDup_filter. Qed.

Lemma tidy_addSubscriber channel res st : tidy st → tidy (addSubscriber channel res st).
Proof.
  intros [H1 H2]. split; [|exact H2]. intros ch set. unfold addSubscriber. simpl.
  destruct (decide (channel = ch)) as [->|Hne].
  - rewrite lookup_insert_eq. intros [= <-]. split.
    + apply set_add_NoDup. destruct (subscribers st !! ch) as [old|] eqn:E; simpl.
      * now apply (H1 ch old).
      * constructor.
    + intros E. assert (Hin : res ∈ JS.set_add (default [] (subscribers st !! ch)) res)
        by (apply set_add_elem; now right).
      rewrite E in Hin. now apply elem_of_nil in Hin.
  - rewrite lookup_insert_ne by exact Hne. apply H1.
Qed.

Lemma tidy_removeSubscriber channel res st : tidy st → tidy (removeSubscriber channel res st).
Proof.
  intros [H1 H2]. unfold removeSubscriber.
  destruct (subscribers st !! channel) as [old|] eqn:E; [|now split].
  destruct (JS.set_delete old res) as [|x rest] eqn:D.
  - split; [|exact H2]. intros ch set. simpl.
    destruct (decide (channel = ch)) as [->|Hne].
    + now rewrite lookup_delete_eq.
    + rewrite lookup_delete_ne by exact Hne. apply H1.
  - split; [|exact H2]. intros ch set. simpl.
    destruct (decide (channel = ch)) as [->|Hne].
    + rewrite lookup_insert_eq. intros [= <-]. split; [|discriminate].
      rewrite <- D. apply set_delete_NoDup. now apply (H1 ch old).
    + rewrite lookup_insert_ne by exact Hne. apply H1.
Qed.

Lemma tidy_step cfg upstream st ev : tidy st → tidy (step cfg upstream st ev).
Proof.
  intros Ht. destruct ev as [req|req res|res|res|res]; simpl.
  - destruct (handle_state cfg upstream req st) as [->|[Hp Hx]]; [exact Ht|].
    eapply tidy_extends; [exact Hx|]. now apply tidy_bound.
  - unfold handleSubscribeRequest.
    destruct (get "channel" (searchParams req)) as [[|a c]|]; try exact Ht.
    destruct (mismatch _ _); [exact Ht|]. simpl.
    assert (T : tidy (write res (Data (Ready (String a c)))
                        (addSubscriber (String a c) res st))).
    { eapply tidy_extends; [apply write_extends|]. now apply tidy_addSubscriber. }
    destruct T as [T1 T2]. split; assumption.
  - destruct Ht as [H1 H2]. split; assumption.
  - destruct (closeHandlers st !! res) as [channel|]; [|exact Ht].
    unfold on_close. apply tidy_removeSubscriber.
    destruct Ht as [H1 H2]. split; assumption.
  - destruct (decide _); [|exact Ht]. eapply tidy_extends; [apply write_extends | exact Ht].
Qed.

Lemma tidy_run cfg upstream st evs : tidy st → tidy (run cfg upstream st evs).
Proof.
  revert st. induction evs as [|ev evs IH]; intros st Ht; simpl; [exact Ht|].
  apply IH. now apply tidy_step.
Qed.

(** From the start of the process on, each listener of a channel is
    sent a broadcast event at most once. *)
Lemma reachable_broadcast cfg upstream evs channel payload set res :
  let st := run cfg upstream init evs in
  subscribers st !! channel = Some set →
  written_to res (broadcast channel payload st) =
    if decide (res ∈ set ∧ res ∉ destroyed st)
    then written_to res st ++ [Data payload]
    else written_to res st.
Proof.
  intros st Hs. unfold broadcast. rewrite Hs. apply fold_write_written.
  destruct (tidy_run cfg upstream init evs tidy_init) as [H _]. now apply (H channel set).
Qed.

(** The submit handler always answers, with one of four statuses. *)
Lemma handle_answers cfg upstream req st :
  ∃ status data,
    fst (handleTranslateRequest cfg upstream req st) = Ok (respondJson status data) ∧
    (status = 200 ∨ status = 400 ∨ status = 403 ∨ status = 500).
Proof.
  rewrite handle_eq.
  destruct (negb (ensureApiKey cfg)); [simpl; eauto 8|].
  destruct (negb (JS.truthy (submit_passcode req))); [simpl; eauto 8|].
  destruct (mismatch _ _); [simpl; eauto 8|].
  destruct (length (readRequestBody req) =? 0); [simpl; eauto 8|].
  destruct (validated_shape cfg upstream req (bound req st))
    as ([(t & rs & u & c & H)|(e & H)] & _); rewrite H; eauto 8.
Qed.

(** The listener sets change on subscribe and close events only. *)
Lemma subscribers_step cfg upstream st ev :
  match ev with
  | Subscribe _ _ | Close _ => True
  | _ => subscribers (step cfg upstream st ev) = subscribers st
  end.
Proof.
  destruct ev as [req|req res|res|res|res]; simpl; try exact I; try reflexivity.
  - destruct (handle_state cfg upstream req st) as [->|[_ Hx]]; [reflexivity|].
    destruct Hx as (_ & -> & _). reflexivity.
  - destruct (decide _); [|reflexivity]. apply write_extends.
Qed.

Lemma removeSubscriber_gone channel res st :
  res ∉ default [] (subscribers (removeSubscriber channel res st) !! channel).
Proof.
  unfold removeSubscriber.
  destruct (subscribers st !! channel) as [old|] eqn:E.
  - destruct (JS.set_delete old res) as [|x rest] eqn:D; simpl.
    + rewrite lookup_delete_eq. apply not_elem_of_nil.
    + rewrite lookup_insert_eq. simpl. rewrite <- D. unfold JS.set_delete.
      rewrite list_elem_of_filter. tauto.
  - rewrite E. apply not_elem_of_nil.
Qed.

(** The close event of a subscribe request takes its listener off
    the channel it subscribed to. *)
Lemma close_removes cfg upstream st res channel :
  closeHandlers st !! res = Some channel →
  res ∉ default [] (subscribers (step cfg upstream st (Close res)) !! channel).
Proof.
  intros H. simpl. rewrite H. unfold on_close. apply removeSubscriber_gone.
Qed.

(** ** Fan-out *)

Lemma all_fulfilled_Ok {A} (rs : list (Result A)) (l : list A) :
  all_fulfilled rs = Ok l → rs = map Ok l.
Proof.
  revert l. induction rs as [|[a|e] rs IH]; intros l; simpl.
  - intros [= <-]. reflexivity.
  - destruct (all_fulfilled rs) as [l'|e]; [|discriminate].
    intros [= <-]. simpl. now rewrite (IH l').
  - discriminate.
Qed.

Lemma all_fulfilled_Throw {A} (rs : list (Result A)) e :
  all_fulfilled rs = Throw e → Throw e ∈ rs.
Proof.
  induction rs as [|[a|e'] rs IH]; simpl.
  - discriminate.
  - destruct (all_fulfilled rs) as [l'|e2]; [discriminate|].
    intros [= <-]. right. now apply IH.
  - intros [= <-]. left.
Qed.

Lemma all_fulfilled_map_Ok {A} (l : list A) : all_fulfilled (map Ok l) = Ok l.
Proof. induction l as [|a l IH]; simpl; [reflexivity|]. now rewrite IH. Qed.

Lemma settle_all_cons {A} (p : M A) (ps : list (M A)) st :
  settle_all (p :: ps) st =
    (fst (p st) :: fst (settle_all ps (snd (p st))), snd (settle_all ps (snd (p st)))).
Proof.
  simpl. destruct (p st) as [r st1]. simpl. now destruct (settle_all ps st1).
Qed.

Lemma Promise_all_eq {A} (ps : list (M A)) st :
  Promise_all ps st = (all_fulfilled (fst (settle_all ps st)), snd (settle_all ps st)).
Proof. unfold Promise_all. now destruct (settle_all ps st). Qed.

Lemma answered_app upstream h n1 n2 :
  answered upstream h (n1 ++ n2) =
    answered upstream h n1 && answered upstream (h ++ n1) n2.
Proof.
  revert h. induction n1 as [|c n1 IH]; intros h; simpl.
  - now rewrite app_nil_r.
  - rewrite IH, <- app_assoc. simpl. now rewrite andb_assoc.
Qed.

Lemma clean_refl upstream st : clean upstream st st.
Proof. exists []. split; [now rewrite app_nil_r | reflexivity]. Qed.

Lemma clean_trans upstream st1 st2 st3 :
  clean upstream st1 st2 → clean upstream st2 st3 → clean upstream st1 st3.
Proof.
  intros (n1 & E1 & A1) (n2 & E2 & A2). exists (n1 ++ n2). split.
  - rewrite E2, E1. now rewrite app_assoc.
  - rewrite answered_app, A1. simpl. now rewrite <- E1.
Qed.

Lemma careful_ret upstream {A} (a : A) : careful upstream (ret a).
Proof. intros st b st' [= _ <-]. apply clean_refl. Qed.

Lemma careful_throw upstream {A} e : careful upstream (@throw A e).
Proof. intros st b st' H. discriminate. Qed.

Lemma careful_gets upstream {A} (f : State → A) : careful upstream (gets f).
Proof. intros st b st' [= _ <-]. apply clean_refl. Qed.

Lemma careful_bind upstream {A B} (m : M A) (k : A → M B) :
  careful upstream m → (∀ a, careful upstream (k a)) → careful upstream (bind m k).
Proof.
  intros Hm Hk st b st' H. apply bind_Ok_inv in H as (a & st1 & H1 & H2).
  eapply clean_trans; [eapply Hm | eapply Hk]; eassumption.
Qed.

Lemma careful_same_calls upstream (f : State → State) :
  (∀ st, calls (f st) = calls st) → careful upstream (modify f).
Proof.
  intros Hf st b st' [= _ <-]. exists []. split; [|reflexivity].
  now rewrite Hf, app_nil_r.
Qed.

Lemma careful_modify_usage upstream f : careful upstream (modify (set_sessionUsage f)).
Proof. now apply careful_same_calls. Qed.

Lemma careful_modify_broadcast upstream channel payload :
  careful upstream (modify (broadcast channel payload)).
Proof. apply careful_same_calls. intros st. apply broadcast_calls. Qed.

Lemma careful_if upstream {A} (b : bool) (m1 m2 : M A) :
  careful upstream m1 → careful upstream m2 → careful upstream (if b then m1 else m2).
Proof. now destruct b. Qed.

Create HintDb careful.
#[local] Hint Resolve careful_ret careful_throw careful_gets careful_bind
  careful_modify_usage careful_modify_broadcast careful_if : careful.

Ltac careful_step :=
  first
    [ progress auto with careful
    | apply careful_bind
    | match goal with
      | |- ∀ _, careful _ _ => intro
      | |- careful _ (match ?x with _ => _ end) => destruct x
      end ].

Lemma keeps_run {A} (m : M A) st r st' : keeps m → m st = (r, st') → extends st st'.
Proof. intros K H. specialize (K st). now rewrite H in K. Qed.

Section Fanout.

Variable cfg : Config.
Variable upstream : Upstream.

Lemma fetch_Ok c st r st' :
  fetch upstream c st = (Ok r, st') →
  upstream (calls st) c = Responded r ∧ calls st' = calls st ++ [c].
Proof.
  unfold fetch. destruct (upstream (calls st) c) as [e|r']; [discriminate|].
  intros [= <- <-]. split; reflexivity.
Qed.

Lemma clean_one c st st' r :
  upstream (calls st) c = Responded r → ok r = true →
  calls st' = calls st ++ [c] → clean upstream st st'.
Proof.
  intros Hu Hok Hc. exists [c]. split; [exact Hc|].
  simpl. rewrite Hu. simpl. now rewrite Hok.
Qed.

Lemma careful_fetchJson c : careful upstream (fetchJson upstream c).
Proof.
  intros st j st' H. unfold fetchJson in H.
  apply bind_Ok_inv in H as (r & st1 & H1 & H2).
  apply fetch_Ok in H1 as (Hu & Hc).
  destruct (ok r) eqn:Hok; simpl in H2; [|discriminate].
  destruct (res_json r); [discriminate|]. injection H2 as _ <-.
  eapply clean_one; eassumption.
Qed.

Lemma careful_fetchArrayBuffer c : careful upstream (fetchArrayBuffer upstream c).
Proof.
  intros st j st' H. unfold fetchArrayBuffer in H.
  apply bind_Ok_inv in H as (r & st1 & H1 & H2).
  apply fetch_Ok in H1 as (Hu & Hc).
  destruct (ok r) eqn:Hok; simpl in H2; [|discriminate].
  injection H2 as _ <-. eapply clean_one; eassumption.
Qed.
#[local] Hint Resolve careful_fetchJson careful_fetchArrayBuffer : careful.

Lemma careful_transcribeAudio a s m : careful upstream (transcribeAudio cfg upstream a s m).
Proof. unfold transcribeAudio. repeat careful_step. Qed.

Lemma careful_refineTranscript raw s : careful upstream (refineTranscript cfg upstream raw s).
Proof. unfold refineTranscript. repeat careful_step. Qed.

Lemma careful_tryTranslate ms : careful upstream (tryTranslate cfg upstream ms).
Proof. unfold tryTranslate. repeat careful_step. Qed.
#[local] Hint Resolve careful_tryTranslate : careful.

Lemma careful_translateText t l c : careful upstream (translateText cfg upstream t l c).
Proof. unfold translateText. repeat careful_step. Qed.

Lemma careful_synthesizeSpeech t : careful upstream (synthesizeSpeech cfg upstream t).
Proof. unfold synthesizeSpeech. repeat careful_step. Qed.
#[local] Hint Resolve careful_translateText careful_synthesizeSpeech : careful.

Lemma careful_branch room t c w l : careful upstream (branch cfg upstream room t c w l).
Proof. unfold branch. repeat careful_step. Qed.

Lemma careful_Promise_all {A} (ps : list (M A)) :
  (∀ p, p ∈ ps → careful upstream p) → careful upstream (Promise_all ps).
Proof.
  intros Hps st l st'. rewrite Promise_all_eq. intros [= Hl <-].
  apply all_fulfilled_Ok in Hl. revert st l Hl.
  induction ps as [|p ps IH]; intros st l Hl.
  - apply clean_refl.
  - rewrite settle_all_cons in Hl |- *. simpl in *.
    destruct l as [|a l]; [discriminate|]. injection Hl as Hp Hl.
    apply clean_trans with (st2 := snd (p st)).
    + assert (Hc : careful upstream p) by (apply Hps; left).
      apply (Hc st a). destruct (p st) as [r st1]. simpl in *. now subst.
    + apply (IH (λ q Hq, Hps q (list_elem_of_further _ _ _ Hq)) _ l Hl).
Qed.

Lemma careful_translate_segment req : careful upstream (translate_segment cfg upstream req).
Proof.
  unfold translate_segment.
  apply careful_bind; [apply careful_transcribeAudio|]. intros raw.
  apply careful_bind; [apply careful_refineTranscript|]. intros transcript.
  apply careful_bind.
  - apply careful_Promise_all. intros p Hp.
    apply list_elem_of_fmap in Hp as (l & -> & _). apply careful_branch.
  - intros results. repeat careful_step.
Qed.

(** The parts of a successful segment. *)
Lemma translate_segment_inv req st r st' :
  translate_segment cfg upstream req st = (Ok r, st') →
  ∃ transcript results st2,
    extends st st2 ∧
    Promise_all
      (map (branch cfg upstream (submit_room req) transcript
              (JS.or_else (get "context" (searchParams req)) "") (wants_audio req))
         (parseTargetLanguages (searchParams req))) st2 = (Ok results, st') ∧
    r = respondJson 200
          (TranslateData transcript results (sessionUsage st') (estimateCost cfg st')
             (OPENAI_TRANSLATE_MODEL cfg)).
Proof.
  unfold translate_segment. intros H.
  apply bind_Ok_inv in H as (raw & s1 & H1 & H).
  apply bind_Ok_inv in H as (transcript & s2 & H2 & H).
  apply bind_Ok_inv in H as (results & s3 & H3 & H).
  unfold bind, gets, ret in H. injection H as <- <-.
  exists transcript, results, s2. split; [|split; [exact H3 | reflexivity]].
  eapply extends_trans.
  - eapply keeps_run; [apply keeps_transcribeAudio | exact H1].
  - eapply keeps_run; [apply keeps_refineTranscript | exact H2].
Qed.

Lemma branch_inv room t c w l st r st' :
  branch cfg upstream room t c w l st = (Ok r, st') →
  ∃ s2, extends st s2 ∧
        st' = broadcast (channelName room l)
                (Translation room l t (r_translation r) (r_audioBase64 r)) s2 ∧
        r_language r = l ∧
        (w = false → r_audioBase64 r = None) ∧
        (w = true → ∃ a, r_audioBase64 r = Some a).
Proof.
  unfold branch. intros H.
  apply bind_Ok_inv in H as (tr & s1 & H1 & H).
  apply bind_Ok_inv in H as (a & s2 & H2 & H).
  unfold bind, modify, ret in H. injection H as <- <-. simpl.
  exists s2. split; [|split; [reflexivity|split; [reflexivity|]]].
  - eapply extends_trans.
    + eapply keeps_run; [apply keeps_translateText | exact H1].
    + destruct w.
      * apply bind_Ok_inv in H2 as (b & s & H2 & H3). injection H3 as _ <-.
        eapply keeps_run; [apply keeps_synthesizeSpeech | exact H2].
      * injection H2 as _ <-. apply extends_refl.
  - split; intros ->.
    + now injection H2 as <- _.
    + apply bind_Ok_inv in H2 as (b & s & _ & H3). injection H3 as <- _. eauto.
Qed.

End Fanout.

(** ** Publication *)

Lemma extends_written st st' res x :
  extends st st' → x ∈ written_to res st → x ∈ written_to res st'.
Proof.
  intros (_ & _ & _ & _ & _ & _ & H) Hx. destruct (H res) as (more & ->).
  apply elem_of_app. now left.
Qed.

Lemma fold_write_extends payload set st :
  extends st (fold_left (λ st r, write r (Data payload) st) set st).
Proof.
  revert st. induction set as [|r set IH]; intros st; simpl.
  - apply extends_refl.
  - eapply extends_trans; [apply write_extends | apply IH].
Qed.

Lemma fold_write_delivers payload res set :
  ∀ st, res ∈ set → res ∉ destroyed st →
  Data payload ∈ written_to res (fold_left (λ st r, write r (Data payload) st) set st).
Proof.
  induction set as [|r set IH]; intros st Hin Hd; simpl.
  - now apply elem_of_nil in Hin.
  - destruct (decide (r = res)) as [->|Hne].
    + eapply extends_written; [apply fold_write_extends|].
      rewrite write_written. case_decide as H; [|tauto].
      apply elem_of_app. right. left.
    + apply IH.
      * apply elem_of_cons in Hin as [->|Hin]; [contradiction | exact Hin].
      * assert (E : destroyed (write r (Data payload) st) = destroyed st)
          by apply write_extends.
        now rewrite E.
Qed.

Lemma broadcast_delivers channel payload st set res :
  subscribers st !! channel = Some set → res ∈ set → res ∉ destroyed st →
  Data payload ∈ written_to res (broadcast channel payload st).
Proof.
  intros Hs Hin Hd. unfold broadcast. rewrite Hs. now apply fold_write_delivers.
Qed.

Section Published.

Variable cfg : Config.
Variable upstream : Upstream.

(** Whatever becomes of the other branches, a branch that completes
    has sent its event to every live listener of its channel. *)
Lemma settle_published room t c w langs :
  ∀ st r set res,
    Ok r ∈ fst (settle_all (map (branch cfg upstream room t c w) langs) st) →
    subscribers st !! channelName room (r_language r) = Some set →
    res ∈ set → res ∉ destroyed st →
    Data (Translation room (r_language r) t (r_translation r) (r_audioBase64 r))
      ∈ written_to res (snd (settle_all (map (branch cfg upstream room t c w) langs) st)).
Proof.
  induction langs as [|l langs IH]; intros st r set res Hr Hs Hin Hd.
  - simpl in Hr. now apply elem_of_nil in Hr.
  - simpl map in *. rewrite settle_all_cons in Hr |- *. simpl fst in Hr. simpl snd.
    assert (K := keeps_branch cfg upstream room t c w l st).
    destruct (branch cfg upstream room t c w l st) as [r1 st1] eqn:E. simpl in *.
    apply elem_of_cons in Hr as [Hr|Hr].
    + subst r1. apply branch_inv in E as (s2 & Hx & -> & Hl & _).
      eapply extends_written.
      * apply settle_all_extends. intros p Hp.
        apply list_elem_of_fmap in Hp as (l' & -> & _). apply keeps_branch.
      * destruct Hx as (_ & Hsub & _ & _ & Hdes & _).
        rewrite Hl. eapply broadcast_delivers.
        -- rewrite Hsub, <- Hl. exact Hs.
        -- exact Hin.
        -- now rewrite Hdes.
    + destruct K as (_ & Hsub & _ & _ & Hdes & _).
      apply (IH st1 r set res Hr); [now rewrite Hsub | exact Hin | now rewrite Hdes].
Qed.

Lemma settle_languages room t c w langs :
  ∀ st results,
    fst (settle_all (map (branch cfg upstream room t c w) langs) st) = map Ok results →
    map r_language results = langs.
Proof.
  induction langs as [|l langs IH]; intros st results H.
  - destruct results; [reflexivity | discriminate].
  - simpl map in H. rewrite settle_all_cons in H. simpl in H.
    destruct results as [|r results]; [discriminate|]. injection H as H1 H2.
    simpl. f_equal.
    + destruct (branch cfg upstream room t c w l st) as [r1 st1] eqn:E. simpl in H1.
      subst r1. now apply branch_inv in E as (_ & _ & _ & Hl & _).
    + eapply IH. exact H2.
Qed.

(** What an answer 200 tells about the run. *)
Lemma handle_200_inv req st data :
  fst (handleTranslateRequest cfg upstream req st) = Ok (respondJson 200 data) →
  translate_segment cfg upstream req (bound req st) =
    (Ok (respondJson 200 data), snd (handleTranslateRequest cfg upstream req st)).
Proof.
  rewrite handle_eq.
  destruct (negb (ensureApiKey cfg)); [discriminate|].
  destruct (negb (JS.truthy (submit_passcode req))); [discriminate|].
  destruct (mismatch _ _); [discriminate|].
  destruct (length (readRequestBody req) =? 0); [discriminate|].
  unfold try_catch.
  destruct (translate_segment cfg upstream req (bound req st)) as [[r|e] st1]; simpl.
  - now intros [= ->].
  - discriminate.
Qed.

Lemma handle_200_results req st transcript results usage cost model :
  fst (handleTranslateRequest cfg upstream req st) =
    Ok (respondJson 200 (TranslateData transcript results usage cost model)) →
  ∃ st2,
    extends (bound req st) st2 ∧
    settle_all
      (map (branch cfg upstream (submit_room req) transcript
              (JS.or_else (get "context" (searchParams req)) "") (wants_audio req))
         (parseTargetLanguages (searchParams req))) st2 =
      (map Ok results, snd (handleTranslateRequest cfg upstream req st)).
Proof.
  intros H. apply handle_200_inv in H.
  apply translate_segment_inv in H as (t & rs & st2 & Hx & Hp & Hr).
  injection Hr as -> -> _ _ _. exists st2. split; [exact Hx|].
  rewrite Promise_all_eq in Hp. injection Hp as Hp1 Hp2.
  apply all_fulfilled_Ok in Hp1.
  destruct (settle_all _ st2) as [rs' st']. simpl in *. now subst.
Qed.

End Published.

(** C4 (as amended) — A successful submit returns exactly one result
    per requested language, in the order of [parseTargetLanguages]:
    the languages named by the repeated [targetLang] parameters and by
    the comma-joined [targetLangs], trimmed, blanks dropped, and
    deduplicated by exact string equality, so that spellings differing
    in case count as different languages; the single language
    [English] when none is supplied. *)
Theorem C4_one_result_per_language cfg upstream req st transcript results usage cost model :
  fst (handleTranslateRequest cfg upstream req st) =
    Ok (respondJson 200 (TranslateData transcript results usage cost model)) →
  let L := parseTargetLanguages (searchParams req) in
  map r_language results = L ∧
  length results = length L ∧
  NoDup L ∧
  (requested (searchParams req) = [] → L = ["English"]) ∧
  (requested (searchParams req) ≠ [] → ∀ l, l ∈ L ↔ l ∈ requested (searchParams req)) ∧
  (getAll "targetLang" (searchParams req) = [] →
   get "targetLangs" (searchParams req) = None → L = ["English"]).
Proof.
  intros H L.
  apply handle_200_results in H as (st2 & _ & H).
  assert (Hl : map r_language results = L).
  { apply (settle_languages cfg upstream (submit_room req) transcript
             (JS.or_else (get "context" (searchParams req)) "") (wants_audio req)
             L st2 results).
    unfold L. now rewrite H. }
  destruct (parseTargetLanguages_spec (searchParams req)) as (Hnd & _ & Hdef & Hmem).
  split; [exact Hl|]. split; [now rewrite <- Hl, length_map|].
  split; [exact Hnd|]. split; [exact Hdef|]. split; [exact Hmem|].
  intros Hall Hget. apply Hdef. unfold requested. now rewrite Hall, Hget.
Qed.

Lemma C4_one_result_per_language_witness :
  ∃ transcript results usage cost model,
    fst (handleTranslateRequest Fixture.cfg Fixture.healthy Fixture.owner init) =
      Ok (respondJson 200 (TranslateData transcript results usage cost model)) ∧
    map r_language results = ["English"; "Cantonese"].
Proof.
  assert (H : fst (handleTranslateRequest Fixture.cfg Fixture.healthy Fixture.owner init) =
    Ok (respondJson 200 (TranslateData "Hello there."
          [mkTargetResult "English" "Hello there." None;
           mkTargetResult "Cantonese" "Nei hou." None]
          (mkUsage 150 7 157) (Double.literal (27 # 1000000)) "gpt-4o-mini")))
    by (vm_compute; reflexivity).
  do 5 eexists. split; [exact H|].
  destruct (C4_one_result_per_language _ _ _ _ _ _ _ _ _ H) as (Hl & _).
  rewrite Hl. reflexivity.
Defined.

(** C4 (as stated) fails — [targetLangs=English,english] names one
    language in two spellings that differ in case only, and the
    answer has two results, one for each spelling. *)
Lemma C4_counterexample :
  get "targetLangs" (searchParams Fixture.two_spellings) = Some "English,english" ∧
  JS.toLowerCase "English" = JS.toLowerCase "english" ∧
  parseTargetLanguages (searchParams Fixture.two_spellings) = ["English"; "english"] ∧
  map r_language
    (results_of (fst (handleTranslateRequest Fixture.cfg Fixture.healthy
                        Fixture.two_spellings init))) = ["English"; "english"].
Proof. repeat split; vm_compute; reflexivity. Qed.

(** ** Speech synthesis is called for audio output only *)

Lemma quiet_same_calls {A} (m : M A) :
  (∀ st, calls (snd (m st)) = calls st) → quiet m.
Proof. intros H st. exists []. rewrite H, app_nil_r. now split. Qed.

Lemma quiet_ret {A} (a : A) : quiet (ret a).
Proof. now apply quiet_same_calls. Qed.

Lemma quiet_throw {A} e : quiet (@throw A e).
Proof. now apply quiet_same_calls. Qed.

Lemma quiet_gets {A} (f : State → A) : quiet (gets f).
Proof. now apply quiet_same_calls. Qed.

Lemma quiet_modify_usage f : quiet (modify (set_sessionUsage f)).
Proof. now apply quiet_same_calls. Qed.

Lemma quiet_modify_broadcast channel payload : quiet (modify (broadcast channel payload)).
Proof. apply quiet_same_calls. intros st. apply broadcast_calls. Qed.

Lemma quiet_bind {A B} (m : M A) (k : A → M B) :
  quiet m → (∀ a, quiet (k a)) → quiet (bind m k).
Proof.
  intros Hm Hk st. unfold bind. destruct (Hm st) as (n1 & E1 & S1).
  destruct (m st) as [[a|e] st1]; simpl in *.
  - destruct (Hk a st1) as (n2 & E2 & S2). exists (n1 ++ n2). split.
    + rewrite E2, E1. now rewrite app_assoc.
    + unfold speechless in *. rewrite forallb_app, S1, S2. reflexivity.
  - exists n1. now split.
Qed.

Lemma quiet_if {A} (b : bool) (m1 m2 : M A) : quiet m1 → quiet m2 → quiet (if b then m1 else m2).
Proof. now destruct b. Qed.

Create HintDb quiet.
#[local] Hint Resolve quiet_ret quiet_throw quiet_gets quiet_modify_usage
  quiet_modify_broadcast quiet_bind quiet_if : quiet.

Ltac quiet_step :=
  first
    [ progress auto with quiet
    | apply quiet_bind
    | match goal with
      | |- ∀ _, quiet _ => intro
      | |- quiet (match ?x with _ => _ end) => destruct x
      end ].

Section Quiet.

Variable cfg : Config.
Variable upstream : Upstream.

Lemma quiet_fetchJson c : is_speech c = false → quiet (fetchJson upstream c).
Proof.
  intros Hc st. exists [c]. split; [apply fetchJson_calls|].
  simpl. now rewrite Hc.
Qed.

Lemma quiet_transcribeAudio a s m : quiet (transcribeAudio cfg upstream a s m).
Proof.
  unfold transcribeAudio. apply quiet_bind; [now apply quiet_fetchJson|].
  repeat quiet_step.
Qed.

Lemma quiet_refineTranscript raw s : quiet (refineTranscript cfg upstream raw s).
Proof.
  unfold refineTranscript. destruct raw as [raw|]; [|apply quiet_ret].
  apply quiet_if; [apply quiet_ret|].
  apply quiet_bind; [now apply quiet_fetchJson|]. repeat quiet_step.
Qed.

Lemma quiet_tryTranslate ms : quiet (tryTranslate cfg upstream ms).
Proof.
  unfold tryTranslate. apply quiet_bind; [now apply quiet_fetchJson|].
  repeat quiet_step.
Qed.
#[local] Hint Resolve quiet_tryTranslate : quiet.

Lemma quiet_translateText t l c : quiet (translateText cfg upstream t l c).
Proof. unfold translateText. repeat quiet_step. Qed.
#[local] Hint Resolve quiet_translateText : quiet.

Lemma quiet_branch room t c l : quiet (branch cfg upstream room t c false l).
Proof. unfold branch. repeat quiet_step. Qed.

Lemma quiet_Promise_all {A} (ps : list (M A)) :
  (∀ p, p ∈ ps → quiet p) → quiet (Promise_all ps).
Proof.
  intros Hps st. rewrite Promise_all_eq. simpl. revert st.
  induction ps as [|p ps IH]; intros st.
  - exists []. simpl. rewrite app_nil_r. now split.
  - rewrite settle_all_cons. simpl.
    destruct (Hps p (list_elem_of_here _ _) st) as (n1 & E1 & S1).
    destruct (IH (λ q Hq, Hps q (list_elem_of_further _ _ _ Hq)) (snd (p st)))
      as (n2 & E2 & S2).
    exists (n1 ++ n2). split.
    + rewrite E2, E1. now rewrite app_assoc.
    + unfold speechless in *. rewrite forallb_app, S1, S2. reflexivity.
Qed.

Lemma quiet_translate_segment req :
  wants_audio req = false → quiet (translate_segment cfg upstream req).
Proof.
  intros Hw. unfold translate_segment.
  apply quiet_bind; [apply quiet_transcribeAudio|]. intros raw.
  apply quiet_bind; [apply quiet_refineTranscript|]. intros transcript.
  apply quiet_bind.
  - apply quiet_Promise_all. intros p Hp.
    apply list_elem_of_fmap in Hp as (l & -> & _).
    fold (wants_audio req). rewrite Hw. apply quiet_branch.
  - intros results. repeat quiet_step.
Qed.

Lemma quiet_handleTranslateRequest req :
  wants_audio req = false → quiet (handleTranslateRequest cfg upstream req).
Proof.
  intros Hw st. rewrite handle_eq.
  assert (Hsame : ∃ new, calls st = calls st ++ new ∧ speechless new = true).
  { exists []. rewrite app_nil_r. now split. }
  destruct (negb (ensureApiKey cfg)); [exact Hsame|].
  destruct (negb (JS.truthy (submit_passcode req))); [exact Hsame|].
  destruct (mismatch _ _); [exact Hsame|].
  destruct (length (readRequestBody req) =? 0); [exact Hsame|].
  destruct (quiet_translate_segment req Hw (bound req st)) as (new & E & S).
  exists new. split; [|exact S]. unfold try_catch.
  destruct (translate_segment cfg upstream req (bound req st)) as [[r|e] st1]; exact E.
Qed.

End Quiet.

(** C3 (as amended) — A speech-synthesis call is made for a submit
    request only when its output mode is [audio] or [both]; and if
    such a call fails, the request as a whole is answered 500 with an
    error message and the caller receives no result for any language:
    the fan-out is one [Promise.all] inside one [try], with nothing
    that isolates a branch. *)
Theorem C3_speech_failure_fails_request cfg upstream req st pre c post :
  let out := handleTranslateRequest cfg upstream req st in
  calls (snd out) = calls st ++ pre ++ c :: post →
  is_speech c = true →
  failed (upstream (calls st ++ pre) c) = true →
  wants_audio req = true ∧
  (∃ e, fst out = Ok (respondJson 500 (ErrorData e))) ∧
  results_of (fst out) = [].
Proof.
  intros out Hcalls Hspeech Hfail. subst out. split.
  { destruct (wants_audio req) eqn:Hw; [reflexivity|]. exfalso.
    destruct (quiet_handleTranslateRequest cfg upstream req Hw st) as (new & E & S).
    rewrite E in Hcalls. apply app_inv_head in Hcalls. subst new.
    unfold speechless in S. rewrite forallb_app in S. simpl in S.
    rewrite Hspeech in S. simpl in S. now rewrite andb_false_r in S. }
  revert Hcalls. rewrite handle_eq.
  assert (Hnone : calls st = calls st ++ pre ++ c :: post → False).
  { intros E. apply (f_equal length) in E. rewrite !length_app in E. simpl in E. lia. }
  destruct (negb (ensureApiKey cfg)); [intros E; destruct (Hnone E)|].
  destruct (negb (JS.truthy (submit_passcode req))); [intros E; destruct (Hnone E)|].
  destruct (mismatch _ _); [intros E; destruct (Hnone E)|].
  destruct (length (readRequestBody req) =? 0); [intros E; destruct (Hnone E)|].
  unfold try_catch.
  destruct (translate_segment cfg upstream req (bound req st)) as [[r|e] st1] eqn:E.
  - intros Hcalls. simpl in Hcalls. exfalso.
    apply careful_translate_segment in E as (new & Hnew & Hans).
    simpl in Hnew. rewrite Hnew in Hcalls. apply app_inv_head in Hcalls. subst new.
    simpl in Hans. rewrite answered_app in Hans. simpl in Hans.
    rewrite Hfail in Hans. simpl in Hans. now rewrite andb_false_r in Hans.
  - intros _. simpl. split; [eauto | reflexivity].
Qed.

Lemma C3_speech_failure_fails_request_witness :
  let out := handleTranslateRequest Fixture.cfg Fixture.spanish_tts_down Fixture.spoken init in
  (∃ pre c post,
     calls (snd out) = calls init ++ pre ++ c :: post ∧ is_speech c = true ∧
     failed (Fixture.spanish_tts_down (calls init ++ pre) c) = true) ∧
  wants_audio Fixture.spoken = true ∧
  (∃ e, fst out = Ok (respondJson 500 (ErrorData e))) ∧ results_of (fst out) = [].
Proof.
  cbv zeta.
  set (out := handleTranslateRequest Fixture.cfg Fixture.spanish_tts_down Fixture.spoken init).
  set (c := mkCall "https://api.openai.com/v1/audio/speech" "Bearer sk-test"
              (SpeechJson "gpt-4o-mini-tts" "Hola." "alloy")).
  assert (H1 : calls (snd out) = calls init ++ removelast (calls (snd out)) ++ c :: [])
    by (vm_compute; reflexivity).
  assert (H2 : is_speech c = true) by reflexivity.
  assert (H3 : failed (Fixture.spanish_tts_down
                         (calls init ++ removelast (calls (snd out))) c) = true)
    by (vm_compute; reflexivity).
  split; [exists (removelast (calls (snd out))), c, []; auto|].
  exact (C3_speech_failure_fails_request Fixture.cfg Fixture.spanish_tts_down
           Fixture.spoken init _ c [] H1 H2 H3).
Defined.

(** C3 (as stated) fails — Cantonese and Spanish are requested with
    output mode [both], and listener 7 is on the Cantonese channel.
    The Cantonese branch completes, speech included, and its event
    reaches listener 7; then speech synthesis fails for Spanish.  The
    caller is answered 500 and gets no result, not even the completed
    Cantonese one. *)
Lemma C3_counterexample :
  let st := run Fixture.cfg Fixture.spanish_tts_down init
              [Subscribe Fixture.listen_cantonese 7] in
  let out := handleTranslateRequest Fixture.cfg Fixture.spanish_tts_down Fixture.spoken st in
  parseTargetLanguages (searchParams Fixture.spoken) = ["Cantonese"; "Spanish"] ∧
  written_to 7 (snd out) =
    [Data (Ready "r1:cantonese");
     Data (Translation "r1" "Cantonese" "Hello there." "Nei hou." (Some "TWFu"))] ∧
  fst out = Ok (respondJson 500 (ErrorData "OpenAI request failed (503): overloaded")) ∧
  results_of (fst out) = [].
Proof. cbv zeta. repeat split; vm_compute; reflexivity. Qed.

(** ** Subscriptions *)

Lemma handleSubscribe_eq req res st c :
  get "channel" (searchParams req) = Some c → c ≠ "" →
  handleSubscribeRequest req res st =
    if mismatch (roomPasscodes st !! subscribe_room req) (subscribe_passcode req)
    then (respondJson 403 (ErrorData "Invalid passcode"), st)
    else (EventStream,
          set_closeHandlers (<[res := c]>)
            (set_intervals (λ l, JS.set_add l res)
               (write res (Data (Ready c)) (addSubscriber c res st)))).
Proof.
  intros Hc Hne. unfold handleSubscribeRequest. rewrite Hc.
  destruct c as [|a c]; [contradiction|].
  fold (subscribe_room req). fold (subscribe_passcode req).
  now destruct (mismatch _ _).
Qed.

Lemma subscribed_state c res st :
  let st' := set_closeHandlers (<[res := c]>)
               (set_intervals (λ l, JS.set_add l res)
                  (write res (Data (Ready c)) (addSubscriber c res st))) in
  subscribers st' !! c = Some (JS.set_add (default [] (subscribers st !! c)) res) ∧
  destroyed st' = destroyed st ∧
  roomPasscodes st' = roomPasscodes st.
Proof.
  cbv zeta. simpl.
  destruct (write_extends res (Data (Ready c)) (addSubscriber c res st))
    as (Hr & Hs & _ & _ & Hd & _).
  rewrite Hs, Hd, Hr. simpl. split; [apply lookup_insert_eq | split; reflexivity].
Qed.

(** C2 — For a subscribe request with a non-empty [channel], whether
    the subscription is accepted is decided by the room and passcode
    parameters alone.  When the room it cites has no bound passcode
    the subscription is accepted whatever the channel, the listener
    is registered on that channel, and, its connection being alive,
    it is sent the translation event of every later successful submit
    whose room and language, a label written in ASCII, give that
    channel name, a room with a bound passcode included, without
    having presented that room's passcode. *)
Theorem C2_subscribe_ignores_channel cfg upstream req res st c :
  get "channel" (searchParams req) = Some c → c ≠ "" →
  let out := handleSubscribeRequest req res st in
  (fst out = EventStream ↔
   mismatch (roomPasscodes st !! subscribe_room req) (subscribe_passcode req) = false) ∧
  (roomPasscodes st !! subscribe_room req = None →
   fst out = EventStream ∧
   (∃ set, subscribers (snd out) !! c = Some set ∧ res ∈ set) ∧
   ∀ pub transcript results usage cost model r,
     res ∉ destroyed st →
     fst (handleTranslateRequest cfg upstream pub (snd out)) =
       Ok (respondJson 200 (TranslateData transcript results usage cost model)) →
     r ∈ results →
     JS.is_ascii (r_language r) = true →
     channelName (submit_room pub) (r_language r) = c →
     Data (Translation (submit_room pub) (r_language r) transcript
             (r_translation r) (r_audioBase64 r))
       ∈ written_to res (snd (handleTranslateRequest cfg upstream pub (snd out)))).
Proof.
  intros Hc Hne out. subst out. rewrite (handleSubscribe_eq req res st c Hc Hne).
  split.
  - destruct (mismatch _ _); simpl; split; congruence.
  - intros Hnone. rewrite Hnone. simpl.
    destruct (subscribed_state c res st) as (Hs & Hd & _). cbv zeta in Hs, Hd.
    set (st' := set_closeHandlers _ _) in *.
    split; [reflexivity|]. split.
    + eexists. split; [exact Hs|]. apply set_add_elem. now right.
    + intros pub transcript results usage cost model r Halive H200 Hr _ Hch.
      apply handle_200_results in H200 as (st2 & Hx & Hsettle).
      destruct Hx as (_ & Hsub & _ & _ & Hdes & _).
      change (subscribers (bound pub st')) with (subscribers st') in Hsub.
      change (destroyed (bound pub st')) with (destroyed st') in Hdes.
      assert (P := settle_published cfg upstream (submit_room pub) transcript
                     (JS.or_else (get "context" (searchParams pub)) "") (wants_audio pub)
                     (parseTargetLanguages (searchParams pub)) st2 r
                     (JS.set_add (default [] (subscribers st !! c)) res) res).
      rewrite Hsettle in P. simpl in P. apply P.
      * apply list_elem_of_fmap. eauto.
      * now rewrite Hsub, Hch.
      * apply set_add_elem. now right.
      * now rewrite Hdes, Hd.
Qed.

Lemma C2_subscribe_ignores_channel_witness :
  let st := snd (handleTranslateRequest Fixture.cfg Fixture.healthy Fixture.owner init) in
  let out := handleSubscribeRequest Fixture.eavesdrop 7 st in
  let final := snd (handleTranslateRequest Fixture.cfg Fixture.healthy Fixture.owner (snd out)) in
  (get "channel" (searchParams Fixture.eavesdrop) = Some "r1:cantonese" ∧
   "r1:cantonese" ≠ "" ∧
   roomPasscodes st !! "r1" = Some "abc" ∧
   get "passcode" (searchParams Fixture.eavesdrop) = None ∧
   roomPasscodes st !! subscribe_room Fixture.eavesdrop = None) ∧
  fst out = EventStream ∧
  Data (Translation "r1" "Cantonese" "Hello there." "Nei hou." None) ∈ written_to 7 final.
Proof.
  cbv zeta.
  set (st := snd (handleTranslateRequest Fixture.cfg Fixture.healthy Fixture.owner init)).
  assert (H1 : get "channel" (searchParams Fixture.eavesdrop) = Some "r1:cantonese")
    by reflexivity.
  assert (H2 : "r1:cantonese" ≠ "") by discriminate.
  assert (H3 : roomPasscodes st !! subscribe_room Fixture.eavesdrop = None)
    by (vm_compute; reflexivity).
  split.
  { repeat split; try assumption; vm_compute; reflexivity. }
  destruct (C2_subscribe_ignores_channel Fixture.cfg Fixture.healthy Fixture.eavesdrop 7 st
              "r1:cantonese" H1 H2) as (_ & H).
  destruct (H H3) as (Hacc & _ & Hleak). split; [exact Hacc|].
  apply (Hleak Fixture.owner "Hello there."
           [mkTargetResult "English" "Hello there." None;
            mkTargetResult "Cantonese" "Nei hou." None]
           (mkUsage 300 14 314) (Double.literal (53 # 1000000)) "gpt-4o-mini"
           (mkTargetResult "Cantonese" "Nei hou." None)).
  - apply (bool_decide_unpack _). vm_compute. exact I.
  - vm_compute. reflexivity.
  - right. left.
  - reflexivity.
  - reflexivity.
Defined.

(** ** Worked examples *)

Example trim_strips_both_ends : JS.trim "  a b  " = "a b".
Proof. reflexivity. Qed.

(** White space outside ASCII is white space: it is trimmed from
    passcodes and language labels, a passcode made of it is missing,
    and a transcript of one Chinese character has length 1 and is
    not refined. *)
Example unicode_white_space :
  let after_owner :=
    snd (handleTranslateRequest Fixture.cfg Fixture.healthy Fixture.owner init) in
  let refused :=
    handleTranslateRequest Fixture.cfg Fixture.healthy Sample.blank_passcode init in
  JS.trim (Sample.nbsp +:+ "abc" +:+ Sample.ideographic_space) = "abc" ∧
  JS.length (JS.trim "好") = 1 ∧
  parseTargetLanguages [("targetLangs", "English," +:+ Sample.ideographic_space)] =
    ["English"] ∧
  fst refused = Ok (respondJson 400 (ErrorData "Missing passcode")) ∧
  calls (snd refused) = [] ∧
  roomPasscodes (snd refused) !! "r1" = None ∧
  (∃ data, fst (handleTranslateRequest Fixture.cfg Fixture.healthy Sample.wide_padding
                  after_owner) = Ok (respondJson 200 data)) ∧
  calls (snd (refineTranscript Fixture.cfg Fixture.healthy (Some "好") "" init)) = [].
Proof.
  cbv zeta. repeat split; try (vm_compute; reflexivity).
  eexists. vm_compute. reflexivity.
Qed.

Example split_keeps_blanks : JS.split "," "a,,b" = ["a"; ""; "b"].
Proof. reflexivity. Qed.

Example split_of_empty : JS.split "," "" = [""].
Proof. reflexivity. Qed.

Example toLowerCase_ascii : JS.toLowerCase "EnGlish-9" = "english-9".
Proof. reflexivity. Qed.

Example Set_of_first_occurrences : JS.Set_of ["b"; "a"; "b"; "c"; "a"] = ["b"; "a"; "c"].
Proof. vm_compute. reflexivity. Qed.

Example base64_padding :
  base64 ["M"; "a"; "n"]%byte = "TWFu" ∧ base64 ["M"; "a"]%byte = "TWE=" ∧
  base64 ["M"]%byte = "TQ==".
Proof. repeat split; vm_compute; reflexivity. Qed.

Example mime_type_of_recorder :
  normalizeMimeType (Some "Audio/WebM; codecs=opus") = "audio/webm" ∧
  extensionForAudioMimeType "audio/x-wav" = "wav" ∧
  extensionForAudioMimeType "audio/novel" = "webm".
Proof. repeat split; vm_compute; reflexivity. Qed.

Example channel_names :
  channelName "r1" "Cantonese" = "r1:cantonese" ∧ channelName "" "" = "default:unknown".
Proof. split; reflexivity. Qed.

Example languages_from_both_parameters :
  parseTargetLanguages
    [("targetLang", "English, Spanish"); ("targetLangs", " Cantonese ,,English");
     ("targetLang", "Spanish")] = ["English"; "Spanish"; "Cantonese"] ∧
  parseTargetLanguages [("room", "r1")] = ["English"].
Proof. split; vm_compute; reflexivity. Qed.

Example labels_for_chinese :
  normalizeTargetLanguageLabel "HK Cantonese" =
    "Cantonese (Traditional Chinese, Cantonese phrasing)" ∧
  normalizeTargetLanguageLabel "Mandarin" =
    "Mandarin Chinese (Simplified Chinese, Mainland usage)" ∧
  normalizeTargetLanguageLabel "Spanish" = "Spanish".
Proof. repeat split; vm_compute; reflexivity. Qed.

Example toFixed6_rounds_half_away :
  (toFixed6 (5 # 10000000) == 1 # 1000000)%Q ∧
  (toFixed6 (- (5 # 10000000)) == - (1 # 1000000))%Q ∧
  (toFixed6 (4 # 10000000) == 0)%Q.
Proof. repeat split; vm_compute; reflexivity. Qed.

(** A blank first translation is retried with the stricter system
    message, and the second answer is returned. *)
Example retry_gets_text :
  let out := translateText Fixture.cfg Fixture.empty_then_text "Hello there." "English" ""
               init in
  fst out = Ok "Hello there." ∧ length (calls (snd out)) = 2 ∧
  sessionUsage (snd out) = mkUsage 130 3 133.
Proof. cbv zeta. repeat split; vm_compute; reflexivity. Qed.

(** The owner submits English and Cantonese as text; a listener
    already on [r1:cantonese] gets one translation event, the
    Cantonese one, and a listener who joins [r1:english] afterwards
    gets none. *)
Example cantonese_listener :
  let st := run Fixture.cfg Fixture.healthy init
              [Subscribe Fixture.listen_cantonese 7; Submit Fixture.owner;
               Subscribe Fixture.listen_english 8] in
  written_to 7 st =
    [Data (Ready "r1:cantonese");
     Data (Translation "r1" "Cantonese" "Hello there." "Nei hou." None)] ∧
  written_to 8 st = [Data (Ready "r1:english")].
Proof. cbv zeta. split; vm_compute; reflexivity. Qed.

(** Closing a connection removes its listener and its channel; a
    second close event changes nothing. *)
Example close_is_idempotent :
  let st := run Fixture.cfg Fixture.healthy init
              [Subscribe Fixture.listen_cantonese 7; Close 7] in
  subscribers st !! "r1:cantonese" = None ∧ intervals st = [] ∧
  subscribers (run Fixture.cfg Fixture.healthy st [Close 7]) !! "r1:cantonese" = None.
Proof. cbv zeta. repeat split; vm_compute; reflexivity. Qed.

(** * Further properties *)

(** ** Frame conditions, once for every relation

    What the upstream helpers and the submit handler preserve, for
    any relation between states that is reflexive and transitive and
    that the steps of the handler respect. *)

Lemma fetchJson_Ok upstream c st j st' :
  fetchJson upstream c st = (Ok j, st') →
  ∃ r, upstream (calls st) c = Responded r ∧ res_json r = inr j.
Proof.
  unfold fetchJson, bind, fetch.
  destruct (upstream (calls st) c) as [e|r]; [discriminate|].
  destruct (negb (ok r)); [discriminate|].
  destruct (res_json r) as [e|j'] eqn:E; [discriminate|].
  intros [= <- <-]. eauto.
Qed.

Lemma write_fields res chunk st :
  sessionUsage (write res chunk st) = sessionUsage st ∧
  roomPasscodes (write res chunk st) = roomPasscodes st ∧
  subscribers (write res chunk st) = subscribers st ∧
  destroyed (write res chunk st) = destroyed st.
Proof. unfold write. now destruct (decide _). Qed.

Lemma broadcast_fields channel payload st :
  sessionUsage (broadcast channel payload st) = sessionUsage st ∧
  destroyed (broadcast channel payload st) = destroyed st.
Proof.
  unfold broadcast. destruct (subscribers st !! channel) as [set|]; [|now split].
  revert st. induction set as [|res set IH]; intros st; simpl; [now split|].
  destruct (IH (write res (Data payload) st)) as [-> ->].
  destruct (write_fields res (Data payload) st) as (-> & _ & _ & ->). now split.
Qed.

Section Frame.

Variable cfg : Config.
Variable upstream : Upstream.
Variable R : State → State → Prop.

Hypothesis R_refl : ∀ st, R st st.
Hypothesis R_trans : ∀ st1 st2 st3, R st1 st2 → R st2 st3 → R st1 st3.
Hypothesis R_calls : ∀ st new, R st (set_calls (λ l, l ++ new) st).

Lemma respects_ret {A} (a : A) : respects R (ret a).
Proof. intros st. apply R_refl. Qed.

Lemma respects_throw {A} e : respects R (@throw A e).
Proof. intros st. apply R_refl. Qed.

Lemma respects_gets {A} (f : State → A) : respects R (gets f).
Proof. intros st. apply R_refl. Qed.

Lemma respects_bind {A B} (m : M A) (k : A → M B) :
  respects R m → (∀ a, respects R (k a)) → respects R (bind m k).
Proof.
  intros Hm Hk st. unfold bind. specialize (Hm st).
  destruct (m st) as [[a|e] st1]; simpl in *.
  - eapply R_trans; [exact Hm | apply Hk].
  - exact Hm.
Qed.

Lemma respects_try_catch {A} (m : M A) (h : string → M A) :
  respects R m → (∀ e, respects R (h e)) → respects R (try_catch m h).
Proof.
  intros Hm Hh st. unfold try_catch. specialize (Hm st).
  destruct (m st) as [[a|e] st1]; simpl in *; [exact Hm|].
  eapply R_trans; [exact Hm | apply Hh].
Qed.

Lemma respects_fetch c : respects R (fetch upstream c).
Proof.
  intros st. unfold fetch. destruct (upstream (calls st) c); simpl; apply R_calls.
Qed.

Lemma respects_fetchJson c : respects R (fetchJson upstream c).
Proof.
  unfold fetchJson. apply respects_bind; [apply respects_fetch|]. intros r.
  destruct (negb (ok r)); [apply respects_throw|].
  destruct (res_json r); [apply respects_throw | apply respects_ret].
Qed.

Lemma respects_fetchArrayBuffer c : respects R (fetchArrayBuffer upstream c).
Proof.
  unfold fetchArrayBuffer. apply respects_bind; [apply respects_fetch|]. intros r.
  destruct (negb (ok r)); [apply respects_throw | apply respects_ret].
Qed.

Lemma respects_transcribeAudio a s m : respects R (transcribeAudio cfg upstream a s m).
Proof.
  unfold transcribeAudio. apply respects_bind; [apply respects_fetchJson|].
  intros j. apply respects_ret.
Qed.

Lemma respects_refineTranscript raw s : respects R (refineTranscript cfg upstream raw s).
Proof.
  unfold refineTranscript. destruct raw as [raw|]; [|apply respects_ret].
  destruct (_ || _); [apply respects_ret|].
  apply respects_bind; [apply respects_fetchJson|]. intros j. apply respects_ret.
Qed.

Lemma respects_synthesizeSpeech t : respects R (synthesizeSpeech cfg upstream t).
Proof.
  unfold synthesizeSpeech. apply respects_bind; [apply respects_fetchArrayBuffer|].
  intros b. apply respects_ret.
Qed.

(** The usage that the services report satisfies [U], and adding
    such a usage to the counters respects [R]. *)
Variable U : UsageJson → Prop.
Hypothesis upstream_U :
  ∀ h c r j u,
    upstream h c = Responded r → res_json r = inr j → j_usage j = Some u → U u.
Hypothesis R_usage : ∀ u st, U u → R st (set_sessionUsage (add_usage u) st).

Lemma respects_tryTranslate ms : respects R (tryTranslate cfg upstream ms).
Proof.
  intros st. unfold tryTranslate, bind.
  assert (H := respects_fetchJson (chat cfg ms) st).
  destruct (fetchJson upstream (chat cfg ms) st) as [[j|e] st1] eqn:E; simpl in *;
    [|exact H].
  apply fetchJson_Ok in E as (r & Hr & Hj).
  destruct (j_usage j) as [u|] eqn:Eu; simpl; [|exact H].
  eapply R_trans; [exact H|]. apply R_usage. eapply upstream_U; eassumption.
Qed.

Lemma respects_translateText t l c : respects R (translateText cfg upstream t l c).
Proof.
  unfold translateText. apply respects_bind; [apply respects_tryTranslate|].
  intros r. destruct (negb (JS.truthy r)); [apply respects_tryTranslate | apply respects_ret].
Qed.

(** Publishing to the channels of [room] for [langs] respects [R],
    and so does remembering a passcode. *)
Variable room : string.
Variable langs : list string.
Hypothesis R_publish :
  ∀ l payload st, l ∈ langs → R st (broadcast (channelName room l) payload st).
Hypothesis R_remember : ∀ st f, R st (set_roomPasscodes f st).

Lemma respects_branch t c w l :
  l ∈ langs → respects R (branch cfg upstream room t c w l).
Proof.
  intros Hl. unfold branch. apply respects_bind; [apply respects_translateText|].
  intros translation. apply respects_bind.
  - destruct w; [|apply respects_ret].
    apply respects_bind; [apply respects_synthesizeSpeech|]. intros a. apply respects_ret.
  - intros a. apply respects_bind; [|intros _; apply respects_ret].
    intros st. now apply R_publish.
Qed.

Lemma respects_settle_all t c w ls :
  (∀ l, l ∈ ls → l ∈ langs) →
  ∀ st, R st (snd (settle_all (map (branch cfg upstream room t c w) ls) st)).
Proof.
  induction ls as [|l ls IH]; intros Hls st; [apply R_refl|].
  cbn [map]. rewrite settle_all_cons. cbn [snd].
  eapply R_trans.
  - apply respects_branch. apply Hls. left.
  - apply IH. intros l' Hl'. apply Hls. now right.
Qed.

Lemma respects_translate_segment req :
  submit_room req = room → parseTargetLanguages (searchParams req) = langs →
  respects R (translate_segment cfg upstream req).
Proof.
  intros Hroom Hlangs. unfold translate_segment.
  apply respects_bind; [apply respects_transcribeAudio|]. intros raw.
  apply respects_bind; [apply respects_refineTranscript|]. intros transcript.
  apply respects_bind.
  - intros st. rewrite Promise_all_eq. cbn [snd].
    fold (submit_room req). rewrite Hroom, Hlangs. now apply respects_settle_all.
  - intros results. apply respects_bind; [apply respects_gets|]. intros u.
    apply respects_bind; [apply respects_gets|]. intros q. apply respects_ret.
Qed.

Lemma respects_handleTranslateRequest req :
  submit_room req = room → parseTargetLanguages (searchParams req) = langs →
  respects R (handleTranslateRequest cfg upstream req).
Proof.
  intros Hroom Hlangs st. rewrite handle_eq.
  destruct (negb (ensureApiKey cfg)); [apply R_refl|].
  destruct (negb (JS.truthy (submit_passcode req))); [apply R_refl|].
  destruct (mismatch _ _); [apply R_refl|].
  destruct (length (readRequestBody req) =? 0); [apply R_remember|].
  eapply R_trans; [apply (R_remember st)|].
  apply respects_try_catch.
  - now apply respects_translate_segment.
  - intros e. apply respects_ret.
Qed.

End Frame.

(** ** Events other than a submission *)

Lemma removeSubscriber_fields channel res st :
  calls (removeSubscriber channel res st) = calls st ∧
  roomPasscodes (removeSubscriber channel res st) = roomPasscodes st ∧
  sessionUsage (removeSubscriber channel res st) = sessionUsage st ∧
  written (removeSubscriber channel res st) = written st.
Proof.
  unfold removeSubscriber. destruct (subscribers st !! channel) as [set|]; [|done].
  now destruct (JS.set_delete set res).
Qed.

Lemma handleSubscribe_fields req res st :
  calls (snd (handleSubscribeRequest req res st)) = calls st ∧
  sessionUsage (snd (handleSubscribeRequest req res st)) = sessionUsage st.
Proof.
  unfold handleSubscribeRequest.
  destruct (get "channel" (searchParams req)) as [[|a c]|]; [done| |done].
  destruct (mismatch _ _); [done|]. cbn [snd].
  unfold write. now destruct (decide _).
Qed.

Lemma step_fields cfg upstream st ev :
  match ev with
  | Submit _ => True
  | _ =>
      calls (step cfg upstream st ev) = calls st ∧
      roomPasscodes (step cfg upstream st ev) = roomPasscodes st ∧
      sessionUsage (step cfg upstream st ev) = sessionUsage st
  end.
Proof.
  destruct ev as [req|req res|res|res|res]; [exact I| | | |]; cbn [step].
  - destruct (handleSubscribe_fields req res st) as [-> ->].
    now rewrite handleSubscribe_roomPasscodes.
  - done.
  - destruct (closeHandlers st !! res) as [channel|]; [|done].
    unfold on_close.
    destruct (removeSubscriber_fields channel res
                (set_intervals (λ l, JS.set_delete l res)
                   (set_closeHandlers (delete res)
                      (set_destroyed (λ d, {[res]} ∪ d) st)))) as (-> & -> & -> & _).
    done.
  - destruct (decide _); [|done]. unfold write. now destruct (decide _).
Qed.

(** X1 — In every state that the process reaches from its start,
    whatever the requests, the configuration and the services: each
    channel of the subscriber registry has a listener set without
    repetitions that is not empty (a channel whose last listener
    leaves is deleted), and each passcode in the room registry is a
    non-empty string. *)
Theorem registries_stay_tidy cfg upstream evs :
  (∀ channel set,
     subscribers (run cfg upstream init evs) !! channel = Some set →
     NoDup set ∧ set ≠ []) ∧
  (∀ room p, roomPasscodes (run cfg upstream init evs) !! room = Some p → p ≠ "").
Proof. exact (tidy_run cfg upstream init evs tidy_init). Qed.

(** X2 — A submission, whatever its outcome, leaves the subscriber
    registry, the keep-alive timers, the close handlers and the set
    of closed connections as they were; the room registry is either
    unchanged or has this request's room bound to this request's
    trimmed passcode; the log of upstream calls and what each
    listener was sent only grow at the end. *)
Theorem submit_frame cfg upstream req st :
  let st' := snd (handleTranslateRequest cfg upstream req st) in
  subscribers st' = subscribers st ∧
  intervals st' = intervals st ∧
  closeHandlers st' = closeHandlers st ∧
  destroyed st' = destroyed st ∧
  (roomPasscodes st' = roomPasscodes st ∨
   roomPasscodes st' = <[submit_room req := submit_passcode req]> (roomPasscodes st)) ∧
  (∃ new, calls st' = calls st ++ new) ∧
  (∀ res, ∃ more, written_to res st' = written_to res st ++ more).
Proof.
  cbv zeta. destruct (handle_state cfg upstream req st) as [->|[_ H]].
  - repeat split; auto.
    + exists []. now rewrite app_nil_r.
    + intros res. exists []. now rewrite app_nil_r.
  - destruct H as (H1 & H2 & H3 & H4 & H5 & H6 & H7).
    repeat split; auto.
Qed.

(** X3 — Without an API key in the configuration the server is
    inert towards the services and the rooms: after any sequence of
    events it has made no upstream call, has bound no passcode to
    any room, and its usage counters are zero. *)
Theorem keyless_server_inert cfg upstream evs :
  ensureApiKey cfg = false →
  calls (run cfg upstream init evs) = [] ∧
  roomPasscodes (run cfg upstream init evs) = ∅ ∧
  sessionUsage (run cfg upstream init evs) = mkUsage 0 0 0.
Proof.
  intros Hk.
  change (calls (run cfg upstream init evs) = calls init ∧
          roomPasscodes (run cfg upstream init evs) = roomPasscodes init ∧
          sessionUsage (run cfg upstream init evs) = sessionUsage init).
  generalize init. unfold run.
  induction evs as [|ev evs IH]; intros st; cbn [fold_left]; [done|].
  destruct (IH (step cfg upstream st ev)) as (-> & -> & ->).
  destruct ev as [req|req res|res|res|res];
    try apply (step_fields cfg upstream st (Subscribe req res));
    try apply (step_fields cfg upstream st (SocketGone res));
    try apply (step_fields cfg upstream st (Close res));
    try apply (step_fields cfg upstream st (KeepAlive res)).
  cbn [step]. now rewrite handle_no_key.
Qed.

Lemma keyless_server_inert_witness :
  calls (run Sample.keyless Fixture.healthy init
           [Submit Fixture.owner; Subscribe Fixture.listen_english 7]) = [].
Proof.
  apply (keyless_server_inert Sample.keyless Fixture.healthy
           [Submit Fixture.owner; Subscribe Fixture.listen_english 7]).
  reflexivity.
Defined.

(** ** Who is sent what *)




(** ** Usage accounting *)

(** X5 — Only translation is metered.  Transcription, transcript
    refinement (which is a chat completion that reports its usage)
    and speech synthesis leave the session's usage counters as they
    were, whether the call succeeds or fails. *)
Theorem only_translation_is_metered cfg upstream audio lang mime raw text st :
  sessionUsage (snd (transcribeAudio cfg upstream audio lang mime st)) = sessionUsage st ∧
  sessionUsage (snd (refineTranscript cfg upstream raw lang st)) = sessionUsage st ∧
  sessionUsage (snd (synthesizeSpeech cfg upstream text st)) = sessionUsage st.
Proof.
  pose (R := λ s s' : State, sessionUsage s' = sessionUsage s).
  assert (Hr : ∀ s, R s s) by done.
  assert (Ht : ∀ s1 s2 s3, R s1 s2 → R s2 s3 → R s1 s3)
    by (unfold R; intros; congruence).
  assert (Hc : ∀ s new, R s (set_calls (λ l, l ++ new) s)) by done.
  repeat split.
  - exact (respects_transcribeAudio cfg upstream R Hr Ht Hc audio lang mime st).
  - exact (respects_refineTranscript cfg upstream R Hr Ht Hc raw lang st).
  - exact (respects_synthesizeSpeech cfg upstream R Hr Ht Hc text st).
Qed.

Lemma usage_le_refl u : usage_le u u.
Proof. unfold usage_le. lia. Qed.

Lemma usage_le_trans u v w : usage_le u v → usage_le v w → usage_le u w.
Proof. unfold usage_le. lia. Qed.

Lemma handle_usage_le cfg upstream req st :
  reports_nonnegative upstream →
  usage_le (sessionUsage st) (sessionUsage (snd (handleTranslateRequest cfg upstream req st))).
Proof.
  intros Hup.
  apply (respects_handleTranslateRequest cfg upstream
           (λ s s', usage_le (sessionUsage s) (sessionUsage s')))
    with (U := λ u, (0 <= default 0 (j_prompt_tokens u))%Z ∧
                    (0 <= default 0 (j_completion_tokens u))%Z ∧
                    (0 <= default 0 (j_total_tokens u))%Z)
         (room := submit_room req) (langs := parseTargetLanguages (searchParams req));
    [ | | | exact Hup | | | | reflexivity | reflexivity ].
  - intros s. apply usage_le_refl.
  - intros s1 s2 s3. apply usage_le_trans.
  - intros s new. apply usage_le_refl.
  - intros u s (H1 & H2 & H3). unfold usage_le. simpl. lia.
  - intros l payload s _.
    destruct (broadcast_fields (channelName (submit_room req) l) payload s) as [-> _].
    apply usage_le_refl.
  - intros s f. apply usage_le_refl.
Qed.

(** X6 — When the services never report a negative token count, no
    event makes a usage counter smaller: along any sequence of
    events the prompt, completion and total counters only grow.
    Nothing in the process resets them. *)
Theorem usage_never_decreases cfg upstream st evs :
  reports_nonnegative upstream →
  usage_le (sessionUsage st) (sessionUsage (run cfg upstream st evs)).
Proof.
  intros Hup. revert st. unfold run.
  induction evs as [|ev evs IH]; intros st; cbn [fold_left]; [apply usage_le_refl|].
  eapply usage_le_trans; [|apply IH].
  destruct ev as [req|req res|res|res|res].
  - now apply handle_usage_le.
  - destruct (step_fields cfg upstream st (Subscribe req res)) as (_ & _ & ->).
    apply usage_le_refl.
  - destruct (step_fields cfg upstream st (SocketGone res)) as (_ & _ & ->).
    apply usage_le_refl.
  - destruct (step_fields cfg upstream st (Close res)) as (_ & _ & ->).
    apply usage_le_refl.
  - destruct (step_fields cfg upstream st (KeepAlive res)) as (_ & _ & ->).
    apply usage_le_refl.
Qed.

Lemma healthy_reports_nonnegative : reports_nonnegative Fixture.healthy.
Proof.
  intros h c r j u H Hj Hu. unfold Fixture.healthy in H.
  destruct (body c) as [? ? ? ? ?|? messages ?|? ? ?].
  - injection H as <-. simpl in Hj. injection Hj as <-. discriminate.
  - repeat (match type of H with
            | (if ?b then _ else _) = _ => destruct b
            end);
      injection H as <-; simpl in Hj; injection Hj as <-;
      simpl in Hu; injection Hu as <-; simpl; lia.
  - injection H as <-. discriminate.
Qed.

Lemma usage_never_decreases_witness :
  usage_le (sessionUsage init)
    (sessionUsage (run Fixture.cfg Fixture.healthy init
                     [Submit Fixture.owner; Submit Fixture.spoken])).
Proof.
  apply (usage_never_decreases Fixture.cfg Fixture.healthy init
           [Submit Fixture.owner; Submit Fixture.spoken]).
  exact healthy_reports_nonnegative.
Defined.

(** ** The answer to a submission *)

(** X7 — A submission is always answered and never ends in an
    exception.  The answer is either 200 with one result per parsed
    target language, in the order of the parsed list, together with
    the session-wide usage counters and the cost estimate as they
    stand when the request ends and the configured translate model;
    or an error answer with status 400, 403 or 500 and a message
    that is not empty. *)
Theorem submit_answer_shape cfg upstream req st :
  let out := handleTranslateRequest cfg upstream req st in
  (∃ transcript results,
     fst out =
       Ok (respondJson 200
             (TranslateData transcript results (sessionUsage (snd out))
                (estimateCost cfg (snd out)) (OPENAI_TRANSLATE_MODEL cfg))) ∧
     map r_language results = parseTargetLanguages (searchParams req)) ∨
  (∃ status message,
     fst out = Ok (respondJson status (ErrorData message)) ∧
     (status = 400 ∨ status = 403 ∨ status = 500) ∧ message ≠ "").
Proof.
  cbv zeta. rewrite handle_eq.
  destruct (negb (ensureApiKey cfg)); [right; eexists _, _; repeat split; eauto|].
  destruct (negb (JS.truthy (submit_passcode req)));
    [right; eexists _, _; repeat split; eauto|].
  destruct (mismatch _ _); [right; eexists _, _; repeat split; eauto|].
  destruct (length (readRequestBody req) =? 0);
    [right; eexists _, _; repeat split; eauto|].
  unfold try_catch.
  destruct (translate_segment cfg upstream req (bound req st)) as [[r|e] st'] eqn:E.
  - left. apply translate_segment_inv in E as (transcript & results & st2 & _ & HP & ->).
    exists transcript, results. split; [reflexivity|].
    rewrite Promise_all_eq in HP. injection HP as HP _.
    apply all_fulfilled_Ok in HP. now apply settle_languages in HP.
  - right. unfold server_error, ret. cbn [fst].
    eexists _, _. split; [reflexivity|]. split; [auto|].
    now apply or_else_nonempty.
Qed.

Lemma settle_audio cfg upstream room t c w langs :
  ∀ st results,
    fst (settle_all (map (branch cfg upstream room t c w) langs) st) = map Ok results →
    Forall (λ r, is_Some (r_audioBase64 r) ↔ w = true) results.
Proof.
  induction langs as [|l langs IH]; intros st results.
  - destruct results; [constructor | discriminate].
  - cbn [map]. rewrite settle_all_cons. cbn [fst].
    destruct results as [|r results]; [discriminate|]. cbn [map].
    intros [= Hr Hrs]. constructor; [|eapply IH; exact Hrs].
    destruct (branch cfg upstream room t c w l st) as [x st1] eqn:E.
    cbn [fst] in Hr. subst x.
    apply branch_inv in E as (_ & _ & _ & _ & Hf & Ht).
    destruct w.
    + destruct (Ht eq_refl) as [a ->]. split; eauto.
    + rewrite (Hf eq_refl). split; [intros [? ?]|]; discriminate.
Qed.

(** X8 — In a 200 answer every result carries audio exactly when
    the request's output mode is [audio] or [both]: with any other
    mode, or none, every [audioBase64] is null, and with one of
    these two modes no [audioBase64] is null. *)
Theorem audio_iff_requested cfg upstream req st transcript results usage cost model :
  fst (handleTranslateRequest cfg upstream req st) =
    Ok (respondJson 200 (TranslateData transcript results usage cost model)) →
  Forall (λ r, is_Some (r_audioBase64 r) ↔ wants_audio req = true) results.
Proof.
  intros H. apply handle_200_results in H as (st2 & _ & H).
  eapply settle_audio. rewrite H. reflexivity.
Qed.

Lemma audio_iff_requested_witness :
  Forall (λ r, is_Some (r_audioBase64 r) ↔ wants_audio Fixture.spoken = true)
    [mkTargetResult "Cantonese" "Nei hou." (Some "TWFu");
     mkTargetResult "Spanish" "Hola." (Some "TWFu")].
Proof.
  apply (audio_iff_requested Fixture.cfg Fixture.healthy Fixture.spoken init
           "Hello there." _ (mkUsage 150 7 157) (Double.literal (27 # 1000000)) "gpt-4o-mini").
  vm_compute. reflexivity.
Defined.

Lemma fetchJson_failed upstream c st ans :
  upstream (calls st) c = ans → failed ans = true →
  fetchJson upstream c st =
    (Throw match ans with
           | NetworkError e => e
           | Responded r => request_failed r
           end,
     set_calls (λ l, l ++ [c]) st).
Proof.
  intros Hup Hf. unfold fetchJson, bind, fetch. rewrite Hup.
  destruct ans as [e|r]; [reflexivity|]. simpl in Hf. now rewrite Hf.
Qed.

Lemma translate_segment_failed cfg upstream req st ans :
  (∀ c, upstream (calls st) c = ans) → failed ans = true →
  ∃ c, translate_segment cfg upstream req st =
         (Throw match ans with
                | NetworkError e => e
                | Responded r => request_failed r
                end,
          set_calls (λ l, l ++ [c]) st).
Proof.
  intros Hup Hf. eexists. unfold translate_segment.
  apply bind_Throw. unfold transcribeAudio. apply bind_Throw.
  apply fetchJson_failed; [apply Hup | exact Hf].
Qed.

(** X9 — When the transcription call of a validated submission
    fails, the answer is 500 and relays the failure to the client:
    for an upstream answer outside 2xx the message is
    [OpenAI request failed (<status>): <body text>], and for a
    network error it is the error's message, or
    [Unexpected server error] when that is empty.  Exactly one
    upstream call has been made, and the passcode stays bound to
    the room. *)
Theorem transcription_failure_answer cfg upstream req st ans :
  ensureApiKey cfg = true → submit_passcode req ≠ "" →
  mismatch (roomPasscodes st !! submit_room req) (submit_passcode req) = false →
  readRequestBody req ≠ [] →
  (∀ c, upstream (calls st) c = ans) → failed ans = true →
  let out := handleTranslateRequest cfg upstream req st in
  fst out =
    Ok (respondJson 500
          (ErrorData match ans with
                     | NetworkError e => JS.or_else (Some e) "Unexpected server error"
                     | Responded r => request_failed r
                     end)) ∧
  length (calls (snd out)) = S (length (calls st)) ∧
  roomPasscodes (snd out) !! submit_room req = Some (submit_passcode req).
Proof.
  intros Hk Hp Hm Hb Hup Hf. cbv zeta. rewrite handle_validated by assumption.
  destruct (translate_segment_failed cfg upstream req (bound req st) ans Hup Hf)
    as [c E].
  unfold try_catch. rewrite E. unfold server_error, ret. cbn [fst snd].
  split; [|split].
  - now destruct ans.
  - simpl. rewrite length_app. simpl. lia.
  - simpl. apply lookup_insert_eq.
Qed.

Lemma transcription_failure_answer_witness :
  fst (handleTranslateRequest Fixture.cfg Sample.refusing Fixture.owner init) =
    Ok (respondJson 500 (ErrorData "OpenAI request failed (503): overloaded")).
Proof.
  refine (proj1 (transcription_failure_answer Fixture.cfg Sample.refusing Fixture.owner init
                   (Responded Sample.overloaded) _ _ _ _ _ _)).
  - reflexivity.
  - vm_compute. discriminate.
  - reflexivity.
  - vm_compute. discriminate.
  - reflexivity.
  - reflexivity.
Defined.

(** ** The subscriber registry *)

Lemma set_delete_absent {A} `{EqDecision A} (l : list A) (x : A) :
  x ∉ l → JS.set_delete l x = l.
Proof.
  unfold JS.set_delete. induction l as [|y l IH]; intros Hx; [reflexivity|].
  rewrite filter_cons. rewrite not_elem_of_cons in Hx. destruct Hx as [Hne Hx].
  destruct (decide (y ≠ x)) as [_|H]; [now rewrite IH|].
  exfalso. apply H. congruence.
Qed.

Lemma set_delete_elem {A} `{EqDecision A} (l : list A) (x y : A) :
  y ∈ JS.set_delete l x ↔ y ∈ l ∧ y ≠ x.
Proof. unfold JS.set_delete. rewrite list_elem_of_filter. tauto. Qed.

Lemma set_delete_add {A} `{EqDecision A} (l : list A) (x : A) :
  x ∉ l → JS.set_delete (JS.set_add l x) x = l.
Proof.
  intros Hx. unfold JS.set_add. destruct (decide (x ∈ l)); [contradiction|].
  unfold JS.set_delete. rewrite filter_app.
  fold (JS.set_delete l x). rewrite set_delete_absent by exact Hx.
  rewrite filter_cons. destruct (decide (x ≠ x)); [congruence|].
  now rewrite app_nil_r.
Qed.

(** X10 — Joining a channel and leaving it again is a round trip:
    in a state whose registry holds no empty listener set, adding a
    listener that is not yet on the channel and then removing it
    gives back the state exactly, the channel's entry included (a
    channel that did not exist does not exist afterwards). *)
Theorem join_then_leave_restores channel res st :
  tidy st → res ∉ listeners channel st →
  removeSubscriber channel res (addSubscriber channel res st) = st.
Proof.
  intros [Ht _] Hn. unfold listeners in Hn.
  unfold removeSubscriber, addSubscriber. cbn [subscribers set_subscribers].
  rewrite lookup_insert_eq. rewrite set_delete_add by exact Hn.
  destruct (subscribers st !! channel) as [set|] eqn:E; cbn [default].
  - destruct set as [|x set]; [now destruct (Ht channel [] E)|].
    destruct st. unfold set_subscribers. cbn in *. f_equal.
    rewrite insert_insert_eq. now apply insert_id.
  - destruct st. unfold set_subscribers. cbn in *. f_equal.
    rewrite delete_insert_eq. now apply delete_id.
Qed.

Lemma join_then_leave_restores_witness :
  let st := run Fixture.cfg Fixture.healthy init [Subscribe Fixture.listen_cantonese 7] in
  removeSubscriber "r1:cantonese" 8 (addSubscriber "r1:cantonese" 8 st) = st.
Proof.
  cbv zeta. apply join_then_leave_restores.
  - apply tidy_run, tidy_init.
  - apply (bool_decide_unpack _). vm_compute. exact I.
Defined.

(** X11 — Removing a listener from a channel takes it off that
    channel, touches no other channel, and is idempotent: removing
    it a second time, as a second close would, changes nothing. *)
Theorem removeSubscriber_once_is_enough channel res st :
  (res ∉ listeners channel (removeSubscriber channel res st)) ∧
  (∀ other, other ≠ channel →
     subscribers (removeSubscriber channel res st) !! other = subscribers st !! other) ∧
  removeSubscriber channel res (removeSubscriber channel res st) =
    removeSubscriber channel res st.
Proof.
  split; [apply removeSubscriber_gone|]. split.
  - intros other Hne. unfold removeSubscriber.
    destruct (subscribers st !! channel) as [set|]; [|reflexivity].
    destruct (JS.set_delete set res); cbn [subscribers set_subscribers].
    + now rewrite lookup_delete_ne.
    + now rewrite lookup_insert_ne.
  - unfold removeSubscriber at 2 3.
    destruct (subscribers st !! channel) as [set|] eqn:E.
    + destruct (JS.set_delete set res) as [|x rest] eqn:D.
      * unfold removeSubscriber. cbn [subscribers set_subscribers].
        now rewrite lookup_delete_eq.
      * unfold removeSubscriber. cbn [subscribers set_subscribers].
        rewrite lookup_insert_eq.
        assert (D2 : JS.set_delete (x :: rest) res = x :: rest).
        { apply set_delete_absent. rewrite <- D. rewrite set_delete_elem. tauto. }
        rewrite D2. destruct st. unfold set_subscribers. cbn. f_equal.
        apply insert_insert_eq.
    + unfold removeSubscriber. now rewrite E.
Qed.

Lemma removeSubscriber_keeps_others channel ch res r st :
  res ∈ listeners channel st → r ≠ res →
  res ∈ listeners channel (removeSubscriber ch r st).
Proof.
  unfold listeners. intros Hin Hne. unfold removeSubscriber.
  destruct (subscribers st !! ch) as [set|] eqn:E; [|exact Hin].
  destruct (decide (ch = channel)) as [->|Hc].
  - rewrite E in Hin. cbn [default] in Hin.
    assert (H : res ∈ JS.set_delete set r) by (rewrite set_delete_elem; auto).
    destruct (JS.set_delete set r) as [|x rest]; [now apply elem_of_nil in H|].
    cbn [subscribers set_subscribers]. now rewrite lookup_insert_eq.
  - destruct (JS.set_delete set r); cbn [subscribers set_subscribers].
    + now rewrite lookup_delete_ne.
    + now rewrite lookup_insert_ne.
Qed.

Lemma step_keeps_listener cfg upstream st ev channel res :
  res ∈ listeners channel st → ev ≠ Close res →
  res ∈ listeners channel (step cfg upstream st ev).
Proof.
  intros Hin Hev. destruct ev as [req|req r|r|r|r].
  - unfold listeners. now rewrite (subscribers_step cfg upstream st (Submit req)).
  - cbn [step]. unfold handleSubscribeRequest.
    destruct (get "channel" (searchParams req)) as [[|a c]|]; [exact Hin| |exact Hin].
    destruct (mismatch _ _); [exact Hin|]. cbn [snd]. unfold listeners.
    cbn [subscribers set_closeHandlers set_intervals].
    destruct (write_fields r (Data (Ready (String a c)))
                (addSubscriber (String a c) r st)) as (_ & _ & -> & _).
    unfold addSubscriber. cbn [subscribers set_subscribers].
    destruct (decide (String a c = channel)) as [->|Hc].
    + rewrite lookup_insert_eq.
      change (res ∈ JS.set_add (default [] (subscribers st !! channel)) r).
      rewrite set_add_elem. now left.
    + now rewrite lookup_insert_ne.
  - exact Hin.
  - cbn [step]. destruct (closeHandlers st !! r) as [ch|]; [|exact Hin].
    unfold on_close. apply removeSubscriber_keeps_others; [exact Hin|].
    intros ->. now apply Hev.
  - cbn [step]. destruct (decide _); [|exact Hin]. unfold listeners.
    now destruct (write_fields r Ping st) as (_ & _ & -> & _).
Qed.

(** X12 — A listener leaves a channel only through its own close
    event.  Once on a channel it is still on it after any sequence
    of events that does not close it: submissions, including those
    that bind or present a passcode the listener never knew, other
    subscriptions, other listeners' closes, keep-alive ticks and
    broken sockets do not evict it. *)
Theorem listener_stays_until_close cfg upstream evs st channel res :
  res ∈ listeners channel st → Close res ∉ evs →
  res ∈ listeners channel (run cfg upstream st evs).
Proof.
  revert st. unfold run.
  induction evs as [|ev evs IH]; intros st Hin Hev; cbn [fold_left]; [exact Hin|].
  rewrite not_elem_of_cons in Hev. destruct Hev as [Hne Hev].
  apply IH; [|exact Hev]. apply step_keeps_listener; [exact Hin | congruence].
Qed.

Lemma listener_stays_until_close_witness :
  7 ∈ listeners "r1:cantonese"
        (run Fixture.cfg Fixture.healthy
           (run Fixture.cfg Fixture.healthy init [Subscribe Fixture.eavesdrop 7])
           [Submit Fixture.owner; SocketGone 7; Subscribe Fixture.listen_cantonese 8;
            Close 8]).
Proof.
  apply listener_stays_until_close.
  - apply (bool_decide_unpack _). vm_compute. exact I.
  - rewrite !not_elem_of_cons. repeat split; try discriminate. apply not_elem_of_nil.
Defined.

(** ** Subscribing and closing *)

(** X13 — What a subscribe request meets, in the order of the
    checks.  A request whose URL cannot be parsed makes the handler
    throw before it has touched anything.  Otherwise a missing or
    empty channel parameter is answered 400, whatever the room and
    the passcode are; with a channel, a passcode mismatch is
    answered 403; and both refusals leave the state as it was.  With
    a channel and no mismatch an event stream is opened, and then
    the listener is on the channel it named, has its keep-alive
    timer and its close handler registered, has been sent the
    [ready] event for that channel as the last chunk so far unless
    its connection was already gone, and the room registry is
    untouched. *)
Theorem subscribe_outcomes req res st :
  let channel := get "channel" (searchParams req) in
  let refused :=
    mismatch (roomPasscodes st !! subscribe_room req) (subscribe_passcode req) in
  let out := handleSubscribeRequest req res st in
  subscribe_handler Unparsable res st = (Throw "Invalid URL", st) ∧
  subscribe_handler (Parsed req) res st = (Ok (fst out), snd out) ∧
  (JS.or_else channel "" = "" →
   out = (respondJson 400 (ErrorData "Missing channel query param"), st)) ∧
  (JS.or_else channel "" ≠ "" → refused = true →
   out = (respondJson 403 (ErrorData "Invalid passcode"), st)) ∧
  (JS.or_else channel "" ≠ "" → refused = false →
   fst out = EventStream ∧
   ∃ c, channel = Some c ∧
        res ∈ listeners c (snd out) ∧
        res ∈ intervals (snd out) ∧
        closeHandlers (snd out) !! res = Some c ∧
        roomPasscodes (snd out) = roomPasscodes st ∧
        (res ∉ destroyed st →
         written_to res (snd out) = written_to res st ++ [Data (Ready c)])).
Proof.
  cbv zeta. split; [reflexivity|]. split; [reflexivity|].
  destruct (get "channel" (searchParams req)) as [c|] eqn:E.
  2:{ unfold handleSubscribeRequest. rewrite E. cbn [JS.or_else].
      split; [reflexivity|]. split; intros H; now elim H. }
  destruct (decide (c = "")) as [->|Hc].
  { unfold handleSubscribeRequest. rewrite E. cbn [JS.or_else JS.truthy].
    split; [reflexivity|]. split; intros H; now elim H. }
  assert (Hor : JS.or_else (Some c) "" = c).
  { now destruct c. }
  rewrite Hor, (handleSubscribe_eq req res st c E Hc).
  split; [intros H; contradiction|].
  split; [now intros _ ->|].
  intros _ ->. split; [reflexivity|]. exists c. cbn [snd].
  destruct (subscribed_state c res st) as (Hs & Hd & Hr).
  repeat split; auto.
  - unfold listeners. rewrite Hs. cbn [default from_option id].
    rewrite set_add_elem. now right.
  - change (res ∈ JS.set_add
                    (intervals (write res (Data (Ready c)) (addSubscriber c res st))) res).
    rewrite set_add_elem. now right.
  - cbn [closeHandlers set_closeHandlers]. apply lookup_insert_eq.
  - intros Hn.
    change (written_to res (write res (Data (Ready c)) (addSubscriber c res st)) =
            written_to res st ++ [Data (Ready c)]).
    rewrite write_written. case_decide as H; [reflexivity|].
    exfalso. apply H. split; [reflexivity | exact Hn].
Qed.

(** A subscribe request with no channel and a wrong passcode for a
    guarded room is told about the channel, not about the passcode. *)
Example channel_is_checked_first :
  let st := snd (handleTranslateRequest Fixture.cfg Fixture.healthy Fixture.owner init) in
  let req := mkRequest [("room", "r1"); ("passcode", "nope")] None None [] in
  roomPasscodes st !! "r1" = Some "abc" ∧
  fst (handleSubscribeRequest req 7 st) =
    respondJson 400 (ErrorData "Missing channel query param").
Proof. cbv zeta. split; vm_compute; reflexivity. Qed.

(** X14 — After the close event of a listener that has a close
    handler, the listener is off the channel it joined, its
    keep-alive timer is cleared and its handler is gone; a later
    keep-alive tick for it writes nothing and a second close event
    changes nothing. *)
Theorem close_cleans_up cfg upstream st res channel :
  closeHandlers st !! res = Some channel →
  let st' := step cfg upstream st (Close res) in
  (res ∉ listeners channel st') ∧
  (res ∉ intervals st') ∧
  closeHandlers st' !! res = None ∧
  step cfg upstream st' (KeepAlive res) = st' ∧
  step cfg upstream st' (Close res) = st'.
Proof.
  intros H. cbv zeta.
  assert (Hi : res ∉ intervals (step cfg upstream st (Close res))).
  { cbn [step]. rewrite H. unfold on_close, removeSubscriber.
    assert (G : ∀ l : list Listener, res ∉ JS.set_delete l res)
      by (intros l; rewrite set_delete_elem; tauto).
    repeat case_match; cbn; apply G. }
  assert (Hc : closeHandlers (step cfg upstream st (Close res)) !! res = None).
  { cbn [step]. rewrite H. unfold on_close, removeSubscriber.
    repeat case_match; cbn; apply lookup_delete_eq. }
  split; [now apply close_removes|].
  generalize dependent (step cfg upstream st (Close res)). intros st' Hi Hc.
  repeat split; [exact Hi | exact Hc | |]; cbn [step].
  - now destruct (decide _).
  - now rewrite Hc.
Qed.

Lemma close_cleans_up_witness :
  let st := run Fixture.cfg Fixture.healthy init [Subscribe Fixture.listen_cantonese 7] in
  step Fixture.cfg Fixture.healthy (step Fixture.cfg Fixture.healthy st (Close 7))
    (KeepAlive 7) =
  step Fixture.cfg Fixture.healthy st (Close 7).
Proof.
  cbv zeta.
  refine (proj1 (proj2 (proj2 (proj2
    (close_cleans_up Fixture.cfg Fixture.healthy _ 7 "r1:cantonese" _))))).
  vm_compute. reflexivity.
Defined.

(** ** Strings: reversing, trimming, case and splitting *)

Lemma sapp_nil_l s : "" +:+ s = s.
Proof. reflexivity. Qed.

Lemma sapp_cons c s t : String c s +:+ t = String c (s +:+ t).
Proof. reflexivity. Qed.

Lemma sapp_nil_r s : s +:+ "" = s.
Proof.
  induction s as [|c s IH]; [reflexivity|]. now rewrite sapp_cons, IH.
Qed.

Lemma sapp_assoc a b c : (a +:+ b) +:+ c = a +:+ (b +:+ c).
Proof.
  induction a as [|x a IH]; [reflexivity|]. now rewrite !sapp_cons, IH.
Qed.

Lemma rev_onto_app s acc : JS.rev_onto s acc = JS.rev_onto s "" +:+ acc.
Proof.
  revert acc. induction s as [|c s IH]; intros acc; simpl; [reflexivity|].
  rewrite (IH (String c acc)), (IH (String c "")). now rewrite sapp_assoc.
Qed.

Lemma reverse_cons c s : JS.reverse (String c s) = JS.reverse s +:+ String c "".
Proof. unfold JS.reverse. simpl. apply rev_onto_app. Qed.

Lemma reverse_app a b : JS.reverse (a +:+ b) = JS.reverse b +:+ JS.reverse a.
Proof.
  induction a as [|c a IH].
  - now rewrite sapp_nil_l, sapp_nil_r.
  - now rewrite sapp_cons, !reverse_cons, IH, sapp_assoc.
Qed.

Lemma reverse_involutive s : JS.reverse (JS.reverse s) = s.
Proof.
  induction s as [|c s IH]; [reflexivity|].
  now rewrite reverse_cons, reverse_app, IH.
Qed.

Lemma has_char_app c a b :
  Path.has_char c (a +:+ b) = Path.has_char c a || Path.has_char c b.
Proof.
  induction a as [|x a IH]; [reflexivity|]. rewrite sapp_cons. cbn [Path.has_char].
  now rewrite IH, orb_assoc.
Qed.

(** Induction on the length of a string. *)
Lemma string_length_ind (P : string → Prop) :
  (∀ s, (∀ r, String.length r < String.length s → P r) → P s) → ∀ s, P s.
Proof.
  intros H s. remember (String.length s) as n eqn:E. revert s E.
  induction n as [n IH] using lt_wf_ind. intros s ->.
  apply H. intros r Hr. now apply (IH (String.length r)).
Qed.

(** *** White space at the front *)

Lemma skip_space_split s r : JS.skip_space s = Some r → ∃ w, w ≠ "" ∧ s = w +:+ r.
Proof.
  destruct s as [|a [|b [|c s]]]; cbn [JS.skip_space]; try discriminate.
  - destruct (JS.space1 a); [|discriminate]. intros [= <-]. now exists (String a "").
  - destruct (JS.space1 a); [intros [= <-]; now exists (String a "")|].
    destruct (JS.space2 a b); [|discriminate].
    intros [= <-]. now exists (String a (String b "")).
  - destruct (JS.space1 a); [intros [= <-]; now exists (String a "")|].
    destruct (JS.space2 a b); [intros [= <-]; now exists (String a (String b ""))|].
    destruct (JS.space3 a b c); [|discriminate].
    intros [= <-]. now exists (String a (String b (String c ""))).
Qed.

Lemma length_sapp a b : String.length (a +:+ b) = String.length a + String.length b.
Proof. induction a as [|x a IH]; [reflexivity|]. rewrite sapp_cons. simpl. now rewrite IH. Qed.

Lemma skip_space_shorter s r :
  JS.skip_space s = Some r → String.length r < String.length s.
Proof.
  intros H. apply skip_space_split in H as (w & Hw & ->). rewrite length_sapp.
  destruct w; [congruence | simpl; lia].
Qed.

Lemma skip_space_app a b r :
  JS.skip_space a = Some r → JS.skip_space (a +:+ b) = Some (r +:+ b).
Proof.
  destruct a as [|x [|y [|z a]]]; cbn [JS.skip_space]; try discriminate;
    rewrite ?sapp_cons, ?sapp_nil_l; cbn [JS.skip_space].
  - destruct (JS.space1 x); [|discriminate]. now intros [= <-].
  - destruct (JS.space1 x); [now intros [= <-]|].
    destruct (JS.space2 x y); [|discriminate]. now intros [= <-].
  - destruct (JS.space1 x); [now intros [= <-]|].
    destruct (JS.space2 x y); [now intros [= <-]|].
    destruct (JS.space3 x y z); [|discriminate]. now intros [= <-].
Qed.

Lemma strip_fuel n : ∀ m s,
  String.length s ≤ n → String.length s ≤ m → JS.strip n s = JS.strip m s.
Proof.
  induction n as [|n IH]; intros m s Hn Hm.
  - destruct s; [|simpl in Hn; lia]. now destruct m.
  - destruct m as [|m].
    + destruct s; [reflexivity | simpl in Hm; lia].
    + cbn [JS.strip]. destruct (JS.skip_space s) as [r|] eqn:E; [|reflexivity].
      apply skip_space_shorter in E. apply IH; lia.
Qed.

Lemma trimStart_eq s :
  JS.trimStart s =
    match JS.skip_space s with
    | Some r => JS.trimStart r
    | None => s
    end.
Proof.
  unfold JS.trimStart. destruct s as [|a s]; [reflexivity|].
  cbn [String.length JS.strip].
  destruct (JS.skip_space (String a s)) as [r|] eqn:E; [|reflexivity].
  apply skip_space_shorter in E. cbn [String.length] in E. apply strip_fuel; lia.
Qed.

Lemma trimStart_fixed s : JS.skip_space s = None → JS.trimStart s = s.
Proof. intros H. now rewrite trimStart_eq, H. Qed.

Lemma skip_space_trimStart s : JS.skip_space (JS.trimStart s) = None.
Proof.
  induction s as [s IH] using string_length_ind. rewrite trimStart_eq.
  destruct (JS.skip_space s) as [r|] eqn:E; [|exact E].
  apply IH. now apply skip_space_shorter.
Qed.

Lemma trimStart_split s : ∃ w, s = w +:+ JS.trimStart s.
Proof.
  induction s as [s IH] using string_length_ind. rewrite trimStart_eq.
  destruct (JS.skip_space s) as [r|] eqn:E; [|now exists ""].
  destruct (skip_space_split s r E) as (w & _ & ->).
  destruct (IH r (skip_space_shorter _ _ E)) as [w' Hw'].
  exists (w +:+ w'). now rewrite sapp_assoc, <- Hw'.
Qed.

Lemma trimStart_blank_app a b : JS.blank a = true → JS.trimStart (a +:+ b) = JS.trimStart b.
Proof.
  unfold JS.blank. induction a as [a IH] using string_length_ind. intros H.
  apply String.eqb_eq in H. rewrite trimStart_eq in H.
  destruct (JS.skip_space a) as [r|] eqn:E.
  - rewrite trimStart_eq, (skip_space_app a b r E).
    apply IH; [now apply skip_space_shorter | now apply String.eqb_eq].
  - now subst a.
Qed.

(** *** White space at the end *)

Lemma trimEnd_cons c s :
  JS.trimEnd (String c s) =
    if JS.blank (String c s) then "" else String c (JS.trimEnd s).
Proof. reflexivity. Qed.

Lemma trimEnd_split s : ∃ r, s = JS.trimEnd s +:+ r ∧ JS.blank r = true.
Proof.
  induction s as [|c s (r & Hr & Hb)]; [now exists ""|]. rewrite trimEnd_cons.
  destruct (JS.blank (String c s)) eqn:E.
  - now exists (String c s).
  - exists r. split; [|exact Hb]. rewrite sapp_cons. now rewrite <- Hr.
Qed.

Lemma trimEnd_idempotent s : JS.trimEnd (JS.trimEnd s) = JS.trimEnd s.
Proof.
  induction s as [|c s IH]; [reflexivity|]. rewrite trimEnd_cons.
  destruct (JS.blank (String c s)) eqn:E; [reflexivity|].
  rewrite trimEnd_cons, IH.
  destruct (JS.blank (String c (JS.trimEnd s))) eqn:E'; [|reflexivity].
  destruct (trimEnd_split s) as (r & Hr & Hb).
  assert (B : JS.blank (String c s) = true).
  { unfold JS.blank. rewrite Hr at 1. rewrite <- sapp_cons.
    rewrite (trimStart_blank_app _ r E'). exact Hb. }
  congruence.
Qed.

Lemma skip_space_trimEnd s : JS.skip_space s = None → JS.skip_space (JS.trimEnd s) = None.
Proof.
  intros H. destruct (JS.skip_space (JS.trimEnd s)) as [x|] eqn:E; [|reflexivity].
  destruct (trimEnd_split s) as (r & Hr & _).
  apply (skip_space_app _ r) in E. rewrite <- Hr in E. congruence.
Qed.

Lemma trim_idempotent s : JS.trim (JS.trim s) = JS.trim s.
Proof.
  unfold JS.trim.
  rewrite (trimStart_fixed (JS.trimEnd (JS.trimStart s))).
  - apply trimEnd_idempotent.
  - apply skip_space_trimEnd, skip_space_trimStart.
Qed.

Lemma includes_char s c : JS.includes s (String c "") = Path.has_char c s.
Proof.
  induction s as [|a s IH]; [reflexivity|].
  cbn [JS.includes Path.has_char JS.startsWith]. rewrite IH, (eqb_sym c a).
  destruct (Ascii.eqb a c); [|reflexivity]. now destruct s.
Qed.

Lemma has_char_trimStart c s :
  Path.has_char c s = false → Path.has_char c (JS.trimStart s) = false.
Proof.
  intros H. destruct (trimStart_split s) as [w Hw]. rewrite Hw, has_char_app in H.
  now apply orb_false_iff in H as [_ H].
Qed.

Lemma has_char_trimEnd c s :
  Path.has_char c s = false → Path.has_char c (JS.trimEnd s) = false.
Proof.
  intros H. destruct (trimEnd_split s) as (r & Hr & _). rewrite Hr, has_char_app in H.
  now apply orb_false_iff in H as [H _].
Qed.

Lemma has_char_trim c s : Path.has_char c s = false → Path.has_char c (JS.trim s) = false.
Proof. intros H. unfold JS.trim. now apply has_char_trimEnd, has_char_trimStart. Qed.

(** *** Letter case *)















Lemma split_nonempty sep s : ∃ h t, JS.split sep s = h :: t.
Proof.
  destruct s as [|c s]; simpl; [eauto|].
  destruct (Ascii.eqb c sep); [eauto|]. destruct (JS.split sep s); eauto.
Qed.

Lemma split_pieces sep s : Forall (λ p, Path.has_char sep p = false) (JS.split sep s).
Proof.
  induction s as [|c s IH]; simpl; [repeat constructor|].
  destruct (Ascii.eqb c sep) eqn:E; [now constructor|].
  destruct (JS.split sep s) as [|h t]; [repeat constructor; simpl; now rewrite E|].
  inversion IH as [|? ? Hh Ht]; subst. constructor; [|exact Ht].
  simpl. now rewrite E, Hh.
Qed.

Lemma split_without sep s : Path.has_char sep s = false → JS.split sep s = [s].
Proof.
  induction s as [|c s IH]; [reflexivity|]. simpl. intros H.
  apply orb_false_iff in H as [Hc H]. rewrite Hc, (IH H). reflexivity.
Qed.

Lemma split_app sep a b :
  JS.split sep (a +:+ String sep b) = JS.split sep a ++ JS.split sep b.
Proof.
  induction a as [|c a IH].
  - rewrite sapp_nil_l. simpl. now rewrite Ascii.eqb_refl.
  - rewrite sapp_cons. simpl. destruct (Ascii.eqb c sep); [now rewrite IH|]. rewrite IH.
    destruct (split_nonempty sep a) as (h & t & ->). reflexivity.
Qed.

(** ** Labels, MIME types and room names *)




(** X17 — Every target language that [parseTargetLanguages]
    returns is a usable label: it is not empty, it has no white
    space at either end, and it contains no comma. *)
Theorem target_labels_are_clean params l :
  l ∈ parseTargetLanguages params →
  l ≠ "" ∧ JS.trim l = l ∧ JS.includes l "," = false.
Proof.
  intros Hl. destruct (parseTargetLanguages_spec params) as (_ & _ & He & Hr).
  destruct (requested params) as [|r0 rs] eqn:E.
  - rewrite (He eq_refl) in Hl. apply list_elem_of_singleton in Hl as ->.
    split; [discriminate|]. split; vm_compute; reflexivity.
  - assert (Hreq : l ∈ requested params).
    { rewrite E. apply Hr; [discriminate | exact Hl]. }
    apply requested_trimmed in Hreq as (Hne & v & -> & Hv).
    split; [exact Hne|]. split; [apply trim_idempotent|].
    rewrite includes_char. apply has_char_trim.
    assert (P : ∀ s, v ∈ JS.split "," s → Path.has_char "," v = false).
    { intros s Hs. assert (F := split_pieces "," s).
      rewrite Forall_forall in F. now apply F. }
    apply elem_of_app in Hv as [Hv|Hv]; [|now apply (P _ Hv)].
    apply list_elem_of_In, in_flat_map in Hv as (s & _ & Hs).
    apply list_elem_of_In in Hs. now apply (P s).
Qed.

Lemma target_labels_are_clean_witness :
  "Spanish" ≠ "" ∧ JS.trim "Spanish" = "Spanish" ∧ JS.includes "Spanish" "," = false.
Proof.
  apply (target_labels_are_clean
           [("targetLang", "English, Spanish"); ("targetLangs", " Cantonese ,,English")]).
  apply (bool_decide_unpack _). vm_compute. exact I.
Defined.

(** X18 — Normalising a target language label is idempotent, and
    the system message that [translateText] builds from a normalised
    label is made of the five general instructions, the first of
    them naming the label, followed by the three instructions on
    written Cantonese exactly when the requested language mentions
    Cantonese in any letter case, and by nothing otherwise. *)
Theorem cantonese_label_keeps_instructions language :
  let label := normalizeTargetLanguageLabel language in
  normalizeTargetLanguageLabel label = label ∧
  sysParts label =
    [ "You are a translation engine. Translate user text to " +:+ label +:+ ".";
      "Use the provided context for coherence (names, pronouns, tense).";
      "Return ONLY the translation of the new text, not the context.";
      "If the text is already in the target language, return it unchanged.";
      "Never reply with explanations, apologies, or placeholders. Never return empty output." ] ++
    (if JS.includes (JS.toLowerCase language) "cantonese"
     then
       [ "Write in spoken Cantonese using Traditional Chinese characters (e.g., 喺/嘅/佢/佢哋/唔/冇/咗/啦/喇/啱).";
         "Avoid Mainland Mandarin lexical choices; prefer colloquial Cantonese phrasing and particles.";
         "Do not mix Simplified Chinese; keep vocabulary natural for Cantonese listeners." ]
     else []).
Proof.
  cbv zeta. unfold normalizeTargetLanguageLabel.
  destruct (JS.includes (JS.toLowerCase language) "cantonese") eqn:C.
  - split; vm_compute; reflexivity.
  - destruct (JS.includes (JS.toLowerCase language) "mandarin") eqn:Mn.
    + split; vm_compute; reflexivity.
    + rewrite C, Mn. split; [reflexivity|]. unfold sysParts. rewrite C.
      now rewrite app_nil_r.
Qed.

Lemma subscribe_room_trimmed req : JS.trim (subscribe_room req) = subscribe_room req.
Proof.
  unfold subscribe_room, JS.or_else.
  destruct (JS.truthy _); [apply trim_idempotent | reflexivity].
Qed.

(** X19 — The submit handler binds a passcode to the room name as
    given, while the subscribe handler looks the room up by its
    trimmed name.  A passcode bound to a room name with white space
    at either end therefore guards nothing: with or without that
    binding every subscribe request gets the same answer. *)
Theorem padded_room_is_unguarded room passcode req res st :
  JS.trim room ≠ room →
  fst (handleSubscribeRequest req res (set_roomPasscodes (<[room := passcode]>) st)) =
  fst (handleSubscribeRequest req res st).
Proof.
  intros Hpad.
  assert (Hne : room ≠ subscribe_room req).
  { intros ->. apply Hpad, subscribe_room_trimmed. }
  destruct (get "channel" (searchParams req)) as [c|] eqn:E.
  2:{ unfold handleSubscribeRequest. now rewrite E. }
  destruct (decide (c = "")) as [->|Hc].
  { unfold handleSubscribeRequest. now rewrite E. }
  rewrite !(handleSubscribe_eq req res _ c E Hc).
  cbn [roomPasscodes set_roomPasscodes]. rewrite lookup_insert_ne by exact Hne.
  now destruct (mismatch _ _).
Qed.

Lemma padded_room_is_unguarded_witness :
  fst (handleSubscribeRequest Sample.wrong_passcode 7
         (set_roomPasscodes (<[" r1 " := "abc"]>) init)) =
  fst (handleSubscribeRequest Sample.wrong_passcode 7 init).
Proof.
  apply padded_room_is_unguarded. vm_compute. discriminate.
Defined.

(** ** Paths *)

Lemma absolute_eq segs : absolute segs = String "/" (JS.join "/" segs).
Proof. reflexivity. Qed.

Lemma plain_inv s :
  plain s = true → s ≠ "" ∧ s ≠ "." ∧ s ≠ ".." ∧ Path.has_char "/" s = false.
Proof.
  unfold plain. rewrite !andb_true_iff, !negb_true_iff, !String.eqb_neq. tauto.
Qed.

Lemma split_join sep segs :
  segs ≠ [] → Forall (λ p, Path.has_char sep p = false) segs →
  JS.split sep (JS.join (String sep "") segs) = segs.
Proof.
  induction segs as [|p rest IH]; [congruence|]. intros _ H.
  inversion H as [|? ? Hp Hrest]; subst.
  destruct rest as [|q rest]; [now apply split_without|].
  change (JS.join (String sep "") (p :: q :: rest))
    with (p +:+ String sep (JS.join (String sep "") (q :: rest))).
  rewrite split_app, (split_without _ _ Hp), IH by (congruence || assumption).
  reflexivity.
Qed.

Lemma join_snoc sep segs x :
  ∃ pre, JS.join sep (segs ++ [x]) = pre +:+ x.
Proof.
  induction segs as [|p rest IH]; [now exists ""|].
  destruct IH as [pre E]. destruct rest as [|q rest].
  - exists (p +:+ sep). cbn [app JS.join]. now rewrite sapp_assoc.
  - exists (p +:+ sep +:+ pre).
    change (JS.join sep ((p :: q :: rest) ++ [x]))
      with (p +:+ sep +:+ JS.join sep ((q :: rest) ++ [x])).
    now rewrite E, !sapp_assoc.
Qed.

Lemma join_nonempty sep p rest : p ≠ "" → JS.join sep (p :: rest) ≠ "".
Proof.
  intros Hp. destruct p as [|c p]; [congruence|].
  destruct rest; cbn [JS.join]; [discriminate|]. rewrite sapp_cons. discriminate.
Qed.

Lemma last_char_app pre x : x ≠ "" → Path.last_char (pre +:+ x) = Path.last_char x.
Proof.
  intros Hx. induction pre as [|c pre IH]; [reflexivity|].
  rewrite sapp_cons. cbn [Path.last_char]. rewrite IH.
  destruct (pre +:+ x) eqn:E; [|reflexivity].
  destruct pre; [rewrite sapp_nil_l in E; congruence | discriminate].
Qed.

Lemma last_char_without c x : Path.has_char c x = false → Path.last_char x ≠ Some c.
Proof.
  induction x as [|a x IH]; [discriminate|]. cbn [Path.has_char].
  intros H. apply orb_false_iff in H as [Ha H]. cbn [Path.last_char].
  destruct x as [|b x]; [|now apply IH].
  intros [= ->]. now rewrite Ascii.eqb_refl in Ha.
Qed.

Lemma normalizeString_plain b stack s rest :
  plain s = true →
  Path.normalizeString b stack (s :: rest) = Path.normalizeString b (s :: stack) rest.
Proof.
  intros H. apply plain_inv in H as (H1 & H2 & H3 & _).
  apply String.eqb_neq in H1, H2, H3. cbn [Path.normalizeString].
  now rewrite H1, H2, H3.
Qed.

Lemma normalizeString_plains b xs more :
  Forall (λ s, plain s = true) xs →
  ∀ stack, Path.normalizeString b stack (xs ++ more) =
           Path.normalizeString b (rev xs ++ stack) more.
Proof.
  induction 1 as [|x xs Hx _ IH]; intros stack; [reflexivity|].
  cbn [app]. rewrite normalizeString_plain by exact Hx. rewrite IH.
  cbn [rev]. now rewrite <- app_assoc.
Qed.

Lemma normalizeString_ups k :
  ∀ stack rest,
    Forall (λ s, plain s = true) stack →
    Path.normalizeString false stack (repeat ".." k ++ rest) =
    Path.normalizeString false (drop k stack) rest.
Proof.
  induction k as [|k IH]; intros stack rest Hs; [now rewrite drop_0|].
  cbn [repeat app]. destruct stack as [|top below].
  - cbn. now rewrite (IH [] rest), drop_nil by constructor.
  - inversion Hs as [|? ? Ht Hb]; subst.
    apply plain_inv in Ht as (_ & _ & Ht & _). apply String.eqb_neq in Ht.
    cbn [Path.normalizeString]. cbn [String.eqb Ascii.eqb Bool.eqb orb].
    rewrite Ht. cbn [drop]. now apply IH.
Qed.

Lemma normalizeString_joined stack rs more :
  Forall (λ s, plain s = true) rs →
  Path.normalizeString false stack (JS.split "/" (JS.join "/" rs) ++ more) =
  Path.normalizeString false (rev rs ++ stack) more.
Proof.
  intros H. destruct rs as [|r rs]; [reflexivity|].
  rewrite split_join; [now apply normalizeString_plains | discriminate |].
  eapply Forall_impl; [exact H|]. intros s Hs. now apply plain_inv in Hs.
Qed.

Lemma startsWith_nil s : JS.startsWith s "" = true.
Proof. now destruct s. Qed.

(** An absolute path whose segments resolve to [final]. *)
Lemma normalize_absolute body final pre x :
  final ≠ [] → Forall (λ s, plain s = true) final →
  Path.normalizeString false [] (JS.split "/" body) = final →
  body = pre +:+ x → x ≠ "" → Path.has_char "/" x = false →
  Path.normalize ("/" +:+ body) = absolute final.
Proof.
  intros Hne Hf Hn Hb Hx Hs. unfold Path.normalize.
  change ("/" +:+ body) with (String "/" body).
  cbn [String.eqb JS.startsWith Ascii.eqb Bool.eqb negb].
  assert (Hl : Path.last_char (String "/" body) = Path.last_char x).
  { change (String "/" body) with ("/" +:+ body). rewrite Hb, <- sapp_assoc.
    now apply last_char_app. }
  rewrite Hl.
  assert (Ht : match Path.last_char x with Some "/"%char => true | _ => false end = false).
  { assert (N := last_char_without "/" x Hs).
    destruct (Path.last_char x) as [c|]; [|reflexivity].
    destruct (Ascii.eqb_spec c "/") as [->|Hc]; [congruence|].
    destruct c as [[] [] [] [] [] [] [] []]; try reflexivity. congruence. }
  rewrite Ht. cbn [JS.split]. rewrite Ascii.eqb_refl.
  cbn [Path.normalizeString String.eqb orb].
  rewrite !startsWith_nil. cbn [negb]. rewrite Hn.
  destruct final as [|p rest]; [congruence|].
  assert (Hp : plain p = true) by now inversion Hf.
  apply plain_inv in Hp as (Hp & _).
  assert (J := join_nonempty "/" p rest Hp). apply String.eqb_neq in J.
  now rewrite J.
Qed.

Lemma join_resolve rs b final pre x :
  Forall (λ s, plain s = true) rs →
  b ≠ "" → final ≠ [] → Forall (λ s, plain s = true) final →
  Path.normalizeString false (rev rs) (JS.split "/" b) = final →
  b = pre +:+ x → x ≠ "" → Path.has_char "/" x = false →
  Path.join (absolute rs) b = absolute final.
Proof.
  intros Hrs Hb Hne Hf Hn Hpre Hx Hs. unfold Path.join.
  rewrite absolute_eq. cbn [String.eqb]. rewrite <- absolute_eq.
  apply String.eqb_neq in Hb. rewrite Hb.
  assert (E : absolute rs +:+ "/" +:+ b = "/" +:+ (JS.join "/" rs +:+ String "/" b)).
  { unfold absolute. now rewrite sapp_assoc. }
  rewrite E. change ("/" +:+ (JS.join "/" rs +:+ String "/" b))
    with (String "/" (JS.join "/" rs +:+ String "/" b)) at 1.
  cbn [String.eqb].
  apply normalize_absolute with (pre := JS.join "/" rs +:+ "/" +:+ pre) (x := x);
    try assumption.
  - rewrite split_app, normalizeString_joined by exact Hrs.
    now rewrite app_nil_r.
  - rewrite Hpre, !sapp_assoc. reflexivity.
Qed.

Lemma publicDir_absolute rs :
  Forall (λ s, plain s = true) rs → publicDir (absolute rs) = absolute (rs ++ ["public"]).
Proof.
  intros Hrs. unfold publicDir.
  apply join_resolve with (pre := "") (x := "public"); try done.
  - now destruct rs.
  - apply Forall_app. split; [exact Hrs | now repeat constructor].
  - cbn [JS.split Ascii.eqb Bool.eqb]. cbn.
    now rewrite rev_involutive.
Qed.

Lemma forallb_Forall {A} (f : A → bool) l : forallb f l = true → Forall (λ x, f x = true) l.
Proof.
  induction l as [|x l IH]; [constructor|]. cbn [forallb].
  intros H. apply andb_true_iff in H as [Hx Hl]. constructor; auto.
Qed.

Lemma has_char_join c sep segs :
  Path.has_char c sep = false → Forall (λ s, Path.has_char c s = false) segs →
  Path.has_char c (JS.join sep segs) = false.
Proof.
  intros Hsep. induction 1 as [|p rest Hp Hrest IH]; [reflexivity|].
  destruct rest as [|q rest]; [exact Hp|].
  change (JS.join sep (p :: q :: rest)) with (p +:+ sep +:+ JS.join sep (q :: rest)).
  now rewrite !has_char_app, Hp, Hsep, IH.
Qed.

Lemma plain_ups k segs :
  Forall (λ s, plain s = true) segs →
  Forall (λ s, Path.has_char "/" s = false) (repeat ".." k ++ segs).
Proof.
  intros H. apply Forall_app. split.
  - induction k; now constructor.
  - eapply Forall_impl; [exact H|]. intros s Hs. now apply plain_inv in Hs.
Qed.

(** X20 — Where a URL is served from.  For a project root with
    plain segments and a URL path that starts with [k] segments
    [..] followed by plain segments without a question mark, the
    file served is the one reached from
    [<project root>/public] by going up [k] directories and then
    down the remaining segments.  With no [..] that file is under
    the public directory; each leading [..] climbs one directory
    out of it, so [/../<name>] is served from the project root
    itself. *)
Theorem static_path_resolves rs k segs :
  forallb plain rs = true →
  forallb (λ s, plain s && negb (Path.has_char "?" s)) segs = true →
  segs ≠ [] →
  static_path (absolute rs) (absolute (repeat ".." k ++ segs)) =
    absolute (drop_last k (rs ++ ["public"]) ++ segs).
Proof.
  intros Hrs Hsegs Hne. apply forallb_Forall in Hrs, Hsegs.
  assert (Hplain : Forall (λ s, plain s = true) segs).
  { eapply Forall_impl; [exact Hsegs|]. intros s Hs. cbv beta in Hs.
    now apply andb_true_iff in Hs as [? _]. }
  assert (Hq : Forall (λ s, Path.has_char "?" s = false) (repeat ".." k ++ segs)).
  { apply Forall_app. split; [induction k; now constructor|].
    eapply Forall_impl; [exact Hsegs|]. intros s Hs. cbv beta in Hs.
    apply andb_true_iff in Hs as [_ Hs]. now apply negb_true_iff in Hs. }
  assert (Hpub : Forall (λ s, plain s = true) (rs ++ ["public"])).
  { apply Forall_app. split; [exact Hrs | now repeat constructor]. }
  destruct (repeat ".." k ++ segs) as [|u us] eqn:Eu.
  { apply app_eq_nil in Eu as [_ ->]. congruence. }
  assert (Hu : u ≠ "").
  { destruct k as [|k]; cbn [repeat app] in Eu.
    - subst segs. inversion Hplain as [|? ? Hp _]; subst. now apply plain_inv in Hp.
    - injection Eu as <- _. discriminate. }
  assert (Hj := join_nonempty "/" u us Hu).
  unfold static_path.
  assert (Hurl : JS.split "?" (absolute (u :: us)) = [absolute (u :: us)]).
  { apply split_without. rewrite absolute_eq. cbn [Path.has_char].
    rewrite (has_char_join "?" "/" (u :: us)); [reflexivity | reflexivity | exact Hq]. }
  rewrite Hurl. cbn [hd].
  assert (Hroot : String.eqb (absolute (u :: us)) "/" = false).
  { rewrite absolute_eq. cbn [String.eqb Ascii.eqb Bool.eqb].
    now apply String.eqb_neq. }
  rewrite Hroot, publicDir_absolute by exact Hrs.
  destruct (exists_last Hne) as (segs' & x & Es).
  assert (Hx : plain x = true).
  { rewrite Es in Hplain. apply Forall_app in Hplain as [_ Hx]. now inversion Hx. }
  apply plain_inv in Hx as (Hx0 & _ & _ & Hxs).
  destruct (join_snoc "/" (repeat ".." k ++ segs') x) as [pre Epre].
  apply join_resolve with (pre := "/" +:+ pre) (x := x); try assumption.
  - rewrite absolute_eq. discriminate.
  - destruct segs; [congruence | now destruct (drop_last k (rs ++ ["public"]))].
  - apply Forall_app. split; [|exact Hplain].
    unfold drop_last. apply Forall_rev, Forall_drop, Forall_rev. exact Hpub.
  - rewrite absolute_eq. cbn [JS.split]. rewrite Ascii.eqb_refl.
    cbn [Path.normalizeString String.eqb orb]. rewrite <- Eu.
    rewrite split_join; [| rewrite Eu; discriminate | now apply plain_ups].
    rewrite normalizeString_ups by now apply Forall_rev.
    rewrite <- (app_nil_r segs) at 1.
    rewrite normalizeString_plains by exact Hplain.
    cbn [Path.normalizeString]. rewrite rev_app_distr, rev_involutive. reflexivity.
  - rewrite <- Eu, Es, app_assoc. unfold absolute. rewrite Epre.
    now rewrite sapp_assoc.
Qed.

Lemma static_path_resolves_witness :
  static_path "/srv/app" "/../.env" = "/srv/app/.env".
Proof.
  apply (static_path_resolves ["srv"; "app"] 1 [".env"]).
  - reflexivity.
  - reflexivity.
  - discriminate.
Defined.

Lemma normalizeString_no_ups b xs :
  ".." ∉ xs →
  ∀ stack, Path.normalizeString b stack xs =
           rev stack ++ filter (λ s, s ≠ "" ∧ s ≠ ".") xs.
Proof.
  induction xs as [|x xs IH]; intros Hn stack.
  - cbn. now rewrite app_nil_r.
  - rewrite not_elem_of_cons in Hn. destruct Hn as [Hx Hn].
    cbn [Path.normalizeString]. rewrite filter_cons.
    destruct (String.eqb_spec x "") as [->|H1].
    { cbn [orb]. rewrite IH by exact Hn.
      destruct (decide _) as [[? _]|_]; [congruence | reflexivity]. }
    destruct (String.eqb_spec x ".") as [->|H2].
    { cbn [orb]. rewrite IH by exact Hn.
      destruct (decide _) as [[_ ?]|_]; [congruence | reflexivity]. }
    cbn [orb]. destruct (String.eqb_spec x "..") as [->|_]; [congruence|].
    rewrite IH by exact Hn. cbn [rev]. rewrite <- app_assoc.
    destruct (decide _) as [_|H]; [reflexivity | tauto].
Qed.

Lemma normalize_absolute_under body final :
  final ≠ [] → hd "" final ≠ "" →
  Path.normalizeString false [] (JS.split "/" body) = final →
  ∃ t, (t = "" ∨ t = "/") ∧ Path.normalize ("/" +:+ body) = absolute final +:+ t.
Proof.
  intros Hne Hhd Hn. unfold Path.normalize.
  change ("/" +:+ body) with (String "/" body).
  cbn [String.eqb JS.startsWith Ascii.eqb Bool.eqb negb JS.split].
  rewrite ?Ascii.eqb_refl, !startsWith_nil.
  cbn [Path.normalizeString String.eqb orb negb]. rewrite Hn.
  destruct final as [|p rest]; [congruence|]. cbn [hd] in Hhd.
  assert (J := join_nonempty "/" p rest Hhd). apply String.eqb_neq in J. rewrite J.
  destruct (match Path.last_char (String "/" body) with
            | Some "/"%char => true
            | _ => false
            end).
  - exists "/". split; [now right|]. unfold absolute. now rewrite sapp_assoc.
  - exists "". split; [now left|]. now rewrite sapp_nil_r.
Qed.

Lemma join_under rs x :
  Forall (λ s, plain s = true) rs → rs ≠ [] → ".." ∉ JS.split "/" x →
  ∃ t, (t = "" ∨ t = "/") ∧
       Path.join (absolute rs) x =
         absolute (rs ++ filter (λ s, s ≠ "" ∧ s ≠ ".") (JS.split "/" x)) +:+ t.
Proof.
  intros Hrs Hne Hx. unfold Path.join.
  rewrite absolute_eq. cbn [String.eqb]. rewrite <- absolute_eq.
  assert (Hhd : ∀ more, hd "" (rs ++ more) ≠ "").
  { intros more. destruct rs as [|r rs]; [congruence|]. cbn [app hd].
    inversion Hrs as [|? ? Hr _]; subst. now apply plain_inv in Hr. }
  destruct (String.eqb_spec x "") as [->|Hx0].
  - rewrite absolute_eq. cbn [String.eqb]. rewrite <- absolute_eq.
    cbn [JS.split]. rewrite filter_cons, filter_nil.
    destruct (decide _) as [[? _]|_]; [congruence|]. rewrite app_nil_r.
    apply normalize_absolute_under.
    + exact Hne.
    + specialize (Hhd []). now rewrite app_nil_r in Hhd.
    + rewrite <- (app_nil_r (JS.split "/" (JS.join "/" rs))).
      rewrite normalizeString_joined by exact Hrs.
      cbn [Path.normalizeString]. now rewrite app_nil_r, rev_involutive.
  - assert (E : absolute rs +:+ "/" +:+ x = "/" +:+ (JS.join "/" rs +:+ String "/" x)).
    { unfold absolute. now rewrite sapp_assoc. }
    rewrite E.
    change ("/" +:+ (JS.join "/" rs +:+ String "/" x))
      with (String "/" (JS.join "/" rs +:+ String "/" x)) at 1.
    cbn [String.eqb].
    apply normalize_absolute_under.
    + now destruct rs.
    + apply Hhd.
    + rewrite split_app, normalizeString_joined by exact Hrs.
      rewrite normalizeString_no_ups by exact Hx.
      now rewrite app_nil_r, rev_involutive.
Qed.

(** X21 — A URL whose path has no [..] segment is served from
    inside the public directory.  Whatever else the path contains
    (empty segments, [.] segments, a trailing slash, a query
    string), the file path computed for it is the public directory
    followed by the path's remaining segments, with at most a
    trailing separator: [index.html] for the path [/], and
    otherwise the segments that are neither empty nor [.]. *)
Theorem static_path_confined rs url :
  forallb plain rs = true → ".." ∉ url_segments url →
  ∃ t, (t = "" ∨ t = "/") ∧
       static_path (absolute rs) url =
         absolute (rs ++ ["public"] ++
                   if String.eqb (hd "" (JS.split "?" url)) "/" then ["index.html"]
                   else filter (λ s, s ≠ "" ∧ s ≠ ".") (url_segments url)) +:+ t.
Proof.
  intros Hrs Hurl. apply forallb_Forall in Hrs.
  unfold static_path. rewrite publicDir_absolute by exact Hrs.
  rewrite app_assoc.
  assert (Hpub : Forall (λ s, plain s = true) (rs ++ ["public"])).
  { apply Forall_app. split; [exact Hrs | now repeat constructor]. }
  assert (Hne : rs ++ ["public"] ≠ []) by now destruct rs.
  unfold url_segments in *.
  destruct (String.eqb (hd "" (JS.split "?" url)) "/").
  - apply (join_under (rs ++ ["public"]) "index.html" Hpub Hne).
    cbn. rewrite list_elem_of_singleton. discriminate.
  - now apply join_under.
Qed.

Lemma static_path_confined_witness :
  ∃ t, (t = "" ∨ t = "/") ∧
       static_path "/srv/app" "/docs/./a//b.js?next=../.." =
         "/srv/app/public/docs/a/b.js" +:+ t.
Proof.
  apply (static_path_confined ["srv"; "app"] "/docs/./a//b.js?next=../..").
  - reflexivity.
  - apply (bool_decide_unpack _). vm_compute. exact I.
Defined.

(** ** The static file server *)

Lemma normalizeString_snoc b s xs :
  plain s = true →
  ∀ stack, Path.normalizeString b stack (xs ++ [s]) =
           Path.normalizeString b stack xs ++ [s].
Proof.
  intros Hs. induction xs as [|x xs IH]; intros stack.
  - cbn [app]. rewrite normalizeString_plain by exact Hs. reflexivity.
  - cbn [app Path.normalizeString]. repeat case_match; apply IH.
Qed.

Lemma join_snoc_eq sep segs x :
  segs ≠ [] → JS.join sep (segs ++ [x]) = JS.join sep segs +:+ sep +:+ x.
Proof.
  induction segs as [|p rest IH]; [congruence|]. intros _.
  destruct rest as [|q rest]; [reflexivity|].
  change (JS.join sep ((p :: q :: rest) ++ [x]))
    with (p +:+ sep +:+ JS.join sep ((q :: rest) ++ [x])).
  rewrite IH by discriminate.
  change (JS.join sep (p :: q :: rest)) with (p +:+ sep +:+ JS.join sep (q :: rest)).
  now rewrite !sapp_assoc.
Qed.

Lemma basename_under Y x :
  x ≠ "" → Path.has_char "/" x = false → Path.basename (Y +:+ String "/" x) = x.
Proof.
  intros Hx Hs. unfold Path.basename.
  rewrite split_app, (split_without _ _ Hs), filter_app, filter_cons, filter_nil.
  destruct (decide (x ≠ "")); [|contradiction]. now rewrite last_snoc.
Qed.

Lemma extname_of_index filePath :
  Path.extname (Path.join filePath "index.html") = ".html".
Proof.
  unfold Path.join. destruct (String.eqb_spec filePath "") as [->|Hp]; [reflexivity|].
  cbn [String.eqb].
  assert (E : filePath +:+ "/" +:+ "index.html" = filePath +:+ String "/" "index.html")
    by reflexivity.
  rewrite E. clear E.
  destruct (String.eqb_spec (filePath +:+ String "/" "index.html") "") as [E|_].
  { destruct filePath; [congruence | discriminate]. }
  unfold Path.normalize.
  destruct (String.eqb_spec (filePath +:+ String "/" "index.html") "") as [E|_].
  { destruct filePath; [congruence | discriminate]. }
  rewrite (last_char_app filePath (String "/" "index.html")) by discriminate.
  cbn [Path.last_char]. rewrite split_app.
  change (JS.split "/" "index.html") with ["index.html"].
  rewrite normalizeString_snoc by reflexivity.
  set (b := JS.startsWith (filePath +:+ String "/" "index.html") "/").
  set (L := Path.normalizeString (negb b) [] (JS.split "/" filePath)).
  destruct L as [|l0 L'] eqn:EL.
  - cbn [app JS.join]. cbn [String.eqb Ascii.eqb Bool.eqb].
    destruct b; reflexivity.
  - rewrite join_snoc_eq by discriminate.
    destruct (String.eqb_spec (JS.join "/" (l0 :: L') +:+ "/" +:+ "index.html") "")
      as [E|_].
    { destruct (JS.join "/" (l0 :: L')); discriminate. }
    unfold Path.extname. destruct b.
    + change ("/" +:+ JS.join "/" (l0 :: L') +:+ "/" +:+ "index.html")
        with (("/" +:+ JS.join "/" (l0 :: L')) +:+ String "/" "index.html").
      now rewrite basename_under.
    + change (JS.join "/" (l0 :: L') +:+ "/" +:+ "index.html")
        with (JS.join "/" (l0 :: L') +:+ String "/" "index.html").
      now rewrite basename_under.
Qed.

(** X22 — What the static file server answers.  For a path whose
    [index.html] is not itself a directory, two calls of
    [serveStatic] always suffice: a path that does not exist gets
    404 [Not found]; a directory gets its [index.html], served as
    [text/html; charset=utf-8], or 403 [Forbidden] when it has
    none, and never a listing; any other file gets 200 with its
    bytes and the content type of its extension in the table, or
    [application/octet-stream] when the extension is not listed. *)
Theorem serveStatic_outcomes fs filePath fuel :
  2 ≤ fuel →
  isDirectory fs (Path.join filePath "index.html") = false →
  serveStatic fuel fs filePath =
    Some (if negb (existsSync fs filePath) then Plain 404 "Not found"
          else if isDirectory fs filePath
          then (if negb (existsSync fs (Path.join filePath "index.html"))
                then Plain 403 "Forbidden"
                else File 200 "text/html; charset=utf-8"
                       (readFileSync fs (Path.join filePath "index.html")))
          else File 200
                 (JS.or_else (MIME_TYPES !! Path.extname filePath)
                    "application/octet-stream")
                 (readFileSync fs filePath)).
Proof.
  intros Hfuel Hd. destruct fuel as [|[|fuel]]; [lia | lia |].
  cbn [serveStatic]. destruct (existsSync fs filePath); [|reflexivity]. cbn [negb].
  destruct (isDirectory fs filePath); [|reflexivity].
  destruct (existsSync fs (Path.join filePath "index.html")); [|reflexivity].
  cbn [negb]. rewrite Hd, extname_of_index. reflexivity.
Qed.

Lemma serveStatic_outcomes_witness :
  serveStatic 2 Sample.disk "/srv/app/public/docs" =
    Some (File 200 "text/html; charset=utf-8" ["d"]%byte).
Proof.
  refine (serveStatic_outcomes Sample.disk "/srv/app/public/docs" 2 _ _).
  - lia.
  - reflexivity.
Defined.

(** ** How many upstream calls a submission makes *)

Lemma within_ret {A} (a : A) : within 0 (ret a).
Proof. intros st. cbn. lia. Qed.

Lemma within_throw {A} e : within 0 (@throw A e).
Proof. intros st. cbn. lia. Qed.

Lemma within_gets {A} (f : State → A) : within 0 (gets f).
Proof. intros st. cbn. lia. Qed.

Lemma within_modify f : (∀ st, calls (f st) = calls st) → within 0 (modify f).
Proof. intros H st. cbn. rewrite H. lia. Qed.

Lemma within_weaken {A} (m : M A) k k' : k ≤ k' → within k m → within k' m.
Proof. intros Hk H st. specialize (H st). lia. Qed.

Lemma within_bind {A B} (m : M A) (f : A → M B) k1 k2 :
  within k1 m → (∀ a, within k2 (f a)) → within (k1 + k2) (bind m f).
Proof.
  intros Hm Hf st. unfold bind. specialize (Hm st).
  destruct (m st) as [[a|e] st1]; cbn [snd] in *; [|lia].
  specialize (Hf a st1). lia.
Qed.

Lemma within_try_catch {A} (m : M A) (h : string → M A) k :
  within k m → (∀ e, within 0 (h e)) → within k (try_catch m h).
Proof.
  intros Hm Hh st. unfold try_catch. specialize (Hm st).
  destruct (m st) as [[a|e] st1]; cbn [snd] in *; [lia|].
  specialize (Hh e st1). lia.
Qed.

Section Budget.

Variable cfg : Config.
Variable upstream : Upstream.

Lemma within_fetchJson c : within 1 (fetchJson upstream c).
Proof. intros st. rewrite fetchJson_calls, length_app. cbn. lia. Qed.

Lemma within_fetchArrayBuffer c : within 1 (fetchArrayBuffer upstream c).
Proof. intros st. rewrite fetchArrayBuffer_calls, length_app. cbn. lia. Qed.

Lemma within_transcribeAudio a s m : within 1 (transcribeAudio cfg upstream a s m).
Proof.
  unfold transcribeAudio. apply (within_bind _ _ 1 0); [apply within_fetchJson|].
  intros j. apply within_ret.
Qed.

Lemma within_refineTranscript raw s : within 1 (refineTranscript cfg upstream raw s).
Proof.
  unfold refineTranscript.
  destruct raw as [raw|]; [|apply (within_weaken _ 0); [lia | apply within_ret]].
  destruct (_ || _); [apply (within_weaken _ 0); [lia | apply within_ret]|].
  apply (within_bind _ _ 1 0); [apply within_fetchJson|]. intros j. apply within_ret.
Qed.

Lemma within_translateText t l c : within 2 (translateText cfg upstream t l c).
Proof.
  intros st. destruct (translateText_calls cfg upstream t l c st) as (new & -> & H).
  rewrite length_app. lia.
Qed.

Lemma within_synthesizeSpeech t : within 1 (synthesizeSpeech cfg upstream t).
Proof.
  unfold synthesizeSpeech. apply (within_bind _ _ 1 0); [apply within_fetchArrayBuffer|].
  intros b. apply within_ret.
Qed.

Lemma within_branch room t c (w : bool) l :
  within (if w then 3 else 2) (branch cfg upstream room t c w l).
Proof.
  unfold branch.
  replace (if w then 3 else 2) with (2 + ((if w then 1 else 0) + (0 + 0)))
    by (destruct w; reflexivity).
  apply within_bind; [apply within_translateText|]. intros translation.
  apply within_bind.
  - destruct w; [|apply within_ret].
    apply (within_bind _ _ 1 0); [apply within_synthesizeSpeech|].
    intros a. apply within_ret.
  - intros a. apply within_bind; [|intros _; apply within_ret].
    apply within_modify. intros st. apply broadcast_calls.
Qed.

Lemma within_settle_all room t c (w : bool) langs :
  ∀ st,
    length (calls (snd (settle_all (map (branch cfg upstream room t c w) langs) st))) ≤
    length (calls st) + (if w then 3 else 2) * length langs.
Proof.
  induction langs as [|l langs IH]; intros st; [cbn; lia|].
  cbn [map]. rewrite settle_all_cons. cbn [snd length].
  specialize (IH (snd (branch cfg upstream room t c w l st))).
  assert (H := within_branch room t c w l st). lia.
Qed.

Lemma within_translate_segment req :
  within (2 + (if wants_audio req then 3 else 2) *
              length (parseTargetLanguages (searchParams req)))
    (translate_segment cfg upstream req).
Proof.
  unfold translate_segment.
  change (2 + (if wants_audio req then 3 else 2) *
              length (parseTargetLanguages (searchParams req)))
    with (1 + (1 + (if wants_audio req then 3 else 2) *
                   length (parseTargetLanguages (searchParams req)))).
  apply within_bind; [apply within_transcribeAudio|]. intros raw.
  apply within_bind; [apply within_refineTranscript|]. intros transcript.
  rewrite <- (Nat.add_0_r (_ * _)).
  apply within_bind.
  - intros st. rewrite Promise_all_eq. cbn [snd]. apply within_settle_all.
  - intros results. apply (within_bind _ _ 0 0); [apply within_gets|]. intros u.
    apply (within_bind _ _ 0 0); [apply within_gets|]. intros q. apply within_ret.
Qed.

End Budget.

(** X23 — A submission makes a bounded number of upstream calls:
    at most two (transcription and refinement) plus, for each
    parsed target language, two translation attempts and, when
    audio is asked for, one speech synthesis.  A request that is
    rejected before the audio is read makes none. *)
Theorem submit_call_budget cfg upstream req st :
  length (calls (snd (handleTranslateRequest cfg upstream req st))) ≤
  length (calls st) + 2 +
  (if wants_audio req then 3 else 2) * length (parseTargetLanguages (searchParams req)).
Proof.
  rewrite handle_eq.
  destruct (negb (ensureApiKey cfg)); [cbn; lia|].
  destruct (negb (JS.truthy (submit_passcode req))); [cbn; lia|].
  destruct (mismatch _ _); [cbn; lia|].
  destruct (length (readRequestBody req) =? 0); [cbn; lia|].
  assert (H := within_try_catch _ server_error _
                 (within_translate_segment cfg upstream req)
                 (λ e, within_ret _) (bound req st)).
  change (calls (bound req st)) with (calls st) in H. lia.
Qed.

(** The environment file of the sample project is served to
    whoever asks for [/../.env]. *)
Example env_file_is_served :
  serveStatic 2 Sample.disk (static_path "/srv/app" "/../.env") =
    Some (File 200 "application/octet-stream" ["K"; "E"; "Y"]%byte) ∧
  serveStatic 2 Sample.disk (static_path "/srv/app" "/") =
    Some (File 200 "text/html; charset=utf-8" ["<"; "p"; ">"]%byte) ∧
  serveStatic 2 Sample.disk (static_path "/srv/app" "/empty") =
    Some (Plain 403 "Forbidden") ∧
  serveStatic 2 Sample.disk (static_path "/srv/app" "/app.js?v=2") =
    Some (File 200 "application/javascript; charset=utf-8" ["1"; ";"]%byte).
Proof. repeat split; vm_compute; reflexivity. Qed.

(** ** Configuration *)

Lemma strip_trailing_slash_added s : strip_trailing_slash (s +:+ "/") = s.
Proof.
  unfold strip_trailing_slash. rewrite reverse_app.
  change (JS.reverse "/" +:+ JS.reverse s) with (String "/" (JS.reverse s)).
  apply reverse_involutive.
Qed.

Lemma strip_trailing_slash_none s :
  Path.last_char s ≠ Some "/"%char → strip_trailing_slash s = s.
Proof.
  intros H. unfold strip_trailing_slash.
  destruct (JS.reverse s) as [|c r] eqn:E; [reflexivity|].
  destruct (Ascii.eqb_spec c "/") as [->|Hc].
  - exfalso. apply H. rewrite <- (reverse_involutive s), E, reverse_cons.
    now rewrite last_char_app.
  - destruct c as [[] [] [] [] [] [] [] []]; try reflexivity. congruence.
Qed.

(** X24 — The base URL of the services is read with one trailing
    slash removed, and only one: a value [base/] gives [base], a
    value that does not end in a slash is taken as it is, and when
    the variable is unset or empty the base is
    [https://api.openai.com/v1]. *)
Theorem base_url_loses_one_slash env base :
  OPENAI_API_BASE_URL (load_config (<["OPENAI_API_BASE_URL" := base +:+ "/"]> env)) = base ∧
  (base ≠ "" → Path.last_char base ≠ Some "/"%char →
   OPENAI_API_BASE_URL (load_config (<["OPENAI_API_BASE_URL" := base]> env)) = base) ∧
  OPENAI_API_BASE_URL (load_config (<["OPENAI_API_BASE_URL" := ""]> env)) =
    "https://api.openai.com/v1" ∧
  OPENAI_API_BASE_URL (load_config (delete "OPENAI_API_BASE_URL" env)) =
    "https://api.openai.com/v1".
Proof.
  unfold load_config. cbn [OPENAI_API_BASE_URL].
  rewrite !lookup_insert_eq, lookup_delete_eq. repeat split.
  - assert (T : JS.truthy (base +:+ "/") = true) by now destruct base.
    cbn [JS.or_else]. rewrite T. apply strip_trailing_slash_added.
  - intros Hb Hl. apply truthy_true in Hb. cbn [JS.or_else]. rewrite Hb.
    now apply strip_trailing_slash_none.
Qed.

(** ** From a submission to a subscription *)

(** X25 — The passcode that a submission presents guards the
    room from then on.  After a submission with a key configured, a
    passcode that is not empty and no mismatch, whatever its
    further outcome, a subscribe request for that room that names a
    channel is given an event stream exactly when its trimmed
    passcode equals the submission's, and is answered 403
    otherwise. *)
Theorem passcode_guards_subscription cfg upstream req st sub res :
  ensureApiKey cfg = true → submit_passcode req ≠ "" →
  mismatch (roomPasscodes st !! submit_room req) (submit_passcode req) = false →
  subscribe_room sub = submit_room req →
  JS.or_else (get "channel" (searchParams sub)) "" ≠ "" →
  let st' := snd (handleTranslateRequest cfg upstream req st) in
  fst (handleSubscribeRequest sub res st') =
    if String.eqb (subscribe_passcode sub) (submit_passcode req)
    then EventStream
    else respondJson 403 (ErrorData "Invalid passcode").
Proof.
  intros Hk Hp Hm Hroom Hch. cbv zeta.
  assert (Hb : roomPasscodes (snd (handleTranslateRequest cfg upstream req st))
                 !! submit_room req = Some (submit_passcode req)).
  { rewrite handle_eq, Hk. apply truthy_true in Hp. rewrite Hp, Hm. cbn [negb].
    destruct (length (readRequestBody req) =? 0); cbn [snd].
    - apply lookup_insert_eq.
    - destruct (validated_shape cfg upstream req (bound req st)) as (_ & -> & _).
      apply lookup_insert_eq. }
  destruct (get "channel" (searchParams sub)) as [c|] eqn:E; [|now cbn in Hch].
  assert (Hc : c ≠ "") by (intros ->; now cbn in Hch).
  rewrite (handleSubscribe_eq sub res _ c E Hc), Hroom, Hb.
  destruct (String.eqb_spec (subscribe_passcode sub) (submit_passcode req)) as [->|Hne].
  - now rewrite mismatch_same.
  - assert (M : mismatch (Some (submit_passcode req)) (subscribe_passcode sub) = true).
    { apply mismatch_true. split; congruence. }
    now rewrite M.
Qed.

Lemma passcode_guards_subscription_witness :
  fst (handleSubscribeRequest Sample.wrong_passcode 7
         (snd (handleTranslateRequest Fixture.cfg Sample.refusing Fixture.owner init))) =
  respondJson 403 (ErrorData "Invalid passcode").
Proof.
  apply (passcode_guards_subscription Fixture.cfg Sample.refusing Fixture.owner init
           Sample.wrong_passcode 7).
  - reflexivity.
  - vm_compute. discriminate.
  - reflexivity.
  - reflexivity.
  - vm_compute. discriminate.
Defined.

(** With the network down the error has no message of its own, and
    a subscribe request without a channel is refused before its
    passcode is looked at. *)
Example network_down_and_no_channel :
  fst (handleTranslateRequest Fixture.cfg Sample.offline Fixture.owner init) =
    Ok (respondJson 500 (ErrorData "Unexpected server error")) ∧
  fst (handleSubscribeRequest Sample.no_channel 7
         (set_roomPasscodes (<["r1" := "xyz"]>) init)) =
    respondJson 400 (ErrorData "Missing channel query param").
Proof. split; vm_compute; reflexivity. Qed.
